(** * CertifyEye: the certificate scanner, its store and its scheduler

    A shallow embedding of [src/modules/scanner.js], of the persistence
    functions of [modules/database.js], of [modules/scheduler.js], of the
    handlers [POST /api/scan] and [GET /api/scan/history], of the form of
    [routes/scanner.js] and of the route of [routes/scheduler.js] that
    deletes a scan, followed by the properties of the specification that
    concern them and by further properties of the same code.

    JavaScript objects are finite maps from property names to values, so
    that a property the object does not have reads as [undefined], as it
    does in the source.  Promises are run to completion in program order:
    the source awaits every call it makes, apart from one write in
    [scheduleJob] whose order of arrival at the single database connection
    is the program order as well. *)

From Stdlib Require Import ZArith String Ascii List Lia.
From Stdlib Require Import Strings.Byte.
From stdpp Require Import base gmap strings list pretty.

Local Open Scope string_scope.
Local Open Scope list_scope.
Local Open Scope Z_scope.

(** ** JavaScript values *)

(** The values the program stores in its records.  The only arrays are the
    host list and the port list of a scan definition, and the multi-valued
    fields of a peer certificate, all arrays of strings or of numbers. *)
Inductive jsval : Type :=
  | VUndef
  | VNull
  | VBool (b : bool)
  | VNum (n : Z)
  | VNaN
  | VStr (s : string)
  | VStrs (l : list string)
  | VNums (l : list Z).

Global Instance jsval_eq_dec : EqDecision jsval.
Proof. solve_decision. Defined.

Abbreviation obj := (gmap string jsval).

(** [o.k]: a missing property reads as [undefined]. *)
Definition field (o : obj) (k : string) : jsval := default VUndef (o !! k).

(** ToBoolean. *)
Definition truthy (v : jsval) : bool :=
  match v with
  | VUndef | VNull | VNaN => false
  | VBool b => b
  | VNum n => negb (n =? 0)
  | VStr s => negb (String.eqb s "")
  | VStrs _ | VNums _ => true
  end.

(** [a || b]. *)
Definition js_or (a b : jsval) : jsval := if truthy a then a else b.
Infix "|||" := js_or (at level 50, left associativity).

(** [Array.prototype.join]. *)
Fixpoint join (sep : string) (l : list string) : string :=
  match l with
  | [] => ""
  | [x] => x
  | x :: rest => x +:+ sep +:+ join sep rest
  end.

(** ToString, as a template literal applies it. *)
Definition to_string (v : jsval) : string :=
  match v with
  | VUndef => "undefined"
  | VNull => "null"
  | VBool true => "true"
  | VBool false => "false"
  | VNum n => pretty n
  | VNaN => "NaN"
  | VStr s => s
  | VStrs l => join "," l
  | VNums l => join "," (pretty <$> l)
  end.

(** [a < n] for a number [a] and a literal [n]; any comparison with NaN is
    false. *)
Definition js_lt (a : jsval) (n : Z) : bool :=
  match a with
  | VNum x => x <? n
  | _ => false
  end.

(** [a !== b] on the scalar values compared in the program; NaN differs
    from itself. *)
Definition strict_ne (a b : jsval) : bool :=
  match a, b with
  | VNaN, _ | _, VNaN => true
  | _, _ => negb (bool_decide (a = b))
  end.

(** ** Certificates as the libraries hand them over *)

(** An attribute of a distinguished name, as node-forge decodes it. *)
Record attribute := {
  attr_shortName : jsval;
  attr_name : jsval;
  attr_value : jsval
}.

(** A distinguished name: an object that may carry an [attributes] array. *)
Record DN := { attributes : option (list attribute) }.

(** The key-usage extension object of node-forge. *)
Record key_usage := {
  digitalSignature : bool;
  nonRepudiation : bool;
  keyEncipherment : bool;
  dataEncipherment : bool;
  keyAgreement : bool;
  keyCertSign : bool;
  cRLSign : bool
}.

(** The certificate object [forge.pki.certificateFromAsn1] returns.  The
    validity dates are [Date] objects, kept as milliseconds since the epoch.
    [fc_host] and [fc_port] are the properties [cert.host] and [cert.port]
    that [parseCertificate] reads. *)
Record forge_cert := {
  fc_subject : option DN;
  fc_issuer : option DN;
  notBefore : Z;
  notAfter : Z;
  siginfo_algorithmOid : jsval;
  signatureOid : jsval;
  keyUsageExt : option key_usage;
  fc_host : jsval;
  fc_port : jsval
}.

(** The subject or issuer of the certificate object of Node's [tls] module:
    absent, a string, an instance of [Object] whose keys are kept in their
    order, or an object without a prototype, which is how recent versions
    of Node build these two names and which is no instance of [Object]. *)
Inductive raw_dn : Type :=
  | DnAbsent
  | DnString (s : string)
  | DnObject (fields : list (string * jsval))
  | DnBare (fields : list (string * jsval)).

(** The object [socket.getPeerCertificate(true)] returns. *)
Record peer_cert := {
  pc_subject : raw_dn;
  pc_issuer : raw_dn;
  valid_from : jsval;
  pc_validFrom : jsval;
  valid_to : jsval;
  pc_validTo : jsval;
  pc_fingerprint : jsval;
  pc_serialNumber : jsval;
  raw : option (list byte)
}.

(** How a call of [tls.connect] ends: the events the Promise of
    [getCertificate] settles on. *)
Inductive handshake : Type :=
  | ConnectThrows (msg : string)
  | SocketError (msg : string)
  | SocketTimeout
  | Stalled
  | Secured (cert : option peer_cert).

(** ** The store *)

(** A value as SQLite keeps it. *)
Inductive sqlval : Type :=
  | SNull
  | SInt (n : Z)
  | SText (s : string).

Global Instance sqlval_eq_dec : EqDecision sqlval.
Proof. solve_decision. Defined.

Global Instance sqlval_countable : Countable sqlval.
Proof.
  refine (inj_countable'
    (λ v, match v with
          | SNull => inl ()
          | SInt n => inr (inl n)
          | SText s => inr (inr s)
          end)
    (λ x, match x with
          | inl _ => SNull
          | inr (inl n) => SInt n
          | inr (inr s) => SText s
          end) _).
  by intros [].
Defined.

(** How the sqlite3 driver binds a statement parameter: [undefined] is left
    unbound, which SQLite reads as NULL; a boolean is an integer; NaN is
    stored as NULL; an array is bound through its string conversion. *)
Definition bind_param (v : jsval) : sqlval :=
  match v with
  | VUndef | VNull | VNaN => SNull
  | VBool b => SInt (if b then 1 else 0)
  | VNum n => SInt n
  | VStr s => SText s
  | VStrs _ | VNums _ => SText (to_string v)
  end.

(** A column value as the driver returns it in a row object. *)
Definition column (v : sqlval) : jsval :=
  match v with
  | SNull => VNull
  | SInt n => VNum n
  | SText s => VStr s
  end.

(** A row of [certificates] without its key columns [host] and [port]; the
    table is [UNIQUE(host, port)].  The column [id], which the store
    numbers itself and renews when a row is replaced, is not kept: no
    function modelled here reads it from a row. *)
Record cert_row := {
  c_subject : sqlval;
  c_issuer : sqlval;
  c_valid_from : sqlval;
  c_valid_to : sqlval;
  c_fingerprint : sqlval;
  c_signature_algorithm : sqlval;
  c_self_signed : sqlval;
  c_status : sqlval;
  c_last_scanned : sqlval;
  c_days_remaining : sqlval
}.

(** A row of [scheduled_scans] without its primary key [id].  [hosts] and
    [ports] are stored as JSON text and parsed back on every read; the
    arrays themselves are kept here. *)
Record scan_row := {
  r_name : sqlval;
  r_hosts : jsval;
  r_ports : jsval;
  r_frequency : sqlval;
  r_last_run : sqlval;
  r_next_run : sqlval;
  r_active : sqlval
}.

(** ** The scheduler's timers *)

(** A job of node-schedule: the scan object its callback closes over, the
    rule it was scheduled with, and whether it has not been cancelled. *)
Record job := {
  j_scan : obj;
  j_rule : string;
  j_live : bool
}.

(** ** Program state *)

(** [tick] counts the TLS connections made so far and indexes what the
    environment answers; [jobs] holds every job node-schedule created, a
    job being referred to by its position; [activeJobs] is the [Map] of the
    scheduler module in insertion order, an entry holding a job or [null]
    (the result of [schedule.scheduleJob] on a rule it cannot parse). *)
Record State := {
  tick : nat;
  certificates : gmap (sqlval * sqlval) cert_row;
  scheduled_scans : gmap Z scan_row;
  jobs : list job;
  activeJobs : list (jsval * option nat)
}.

Definition set_tick (n : nat) (st : State) : State :=
  {| tick := n; certificates := certificates st;
     scheduled_scans := scheduled_scans st; jobs := jobs st;
     activeJobs := activeJobs st |}.

Definition set_certificates (c : gmap (sqlval * sqlval) cert_row) (st : State) : State :=
  {| tick := tick st; certificates := c;
     scheduled_scans := scheduled_scans st; jobs := jobs st;
     activeJobs := activeJobs st |}.

Definition set_scheduled_scans (s : gmap Z scan_row) (st : State) : State :=
  {| tick := tick st; certificates := certificates st;
     scheduled_scans := s; jobs := jobs st;
     activeJobs := activeJobs st |}.

Definition set_jobs (j : list job) (st : State) : State :=
  {| tick := tick st; certificates := certificates st;
     scheduled_scans := scheduled_scans st; jobs := j;
     activeJobs := activeJobs st |}.

Definition set_activeJobs (a : list (jsval * option nat)) (st : State) : State :=
  {| tick := tick st; certificates := certificates st;
     scheduled_scans := scheduled_scans st; jobs := jobs st;
     activeJobs := a |}.

(** ** Computations that may throw *)

Inductive outcome (A : Type) : Type :=
  | Returned (a : A)
  | Thrown (msg : string).
Arguments Returned {A} a.
Arguments Thrown {A} msg.

(** A computation reads and writes the state and either returns or throws
    an [Error] with a message; what it wrote before throwing stays
    written. *)
Definition M (A : Type) : Type := State → outcome A * State.

Global Instance M_ret : MRet M := λ A a st, (Returned a, st).

Global Instance M_bind : MBind M := λ A B f m st,
  match m st with
  | (Returned a, st') => f a st'
  | (Thrown msg, st') => (Thrown msg, st')
  end.

Definition throw {A} (msg : string) : M A := λ st, (Thrown msg, st).

(** [try { m } catch (err) { handler err.message }]. *)
Definition try_catch {A} (m : M A) (handler : string → M A) : M A := λ st,
  match m st with
  | (Returned a, st') => (Returned a, st')
  | (Thrown msg, st') => handler msg st'
  end.

Definition get_state : M State := λ st, (Returned st, st).
Definition modify (f : State → State) : M unit := λ st, (Returned tt, f st).

(** [for (const x of xs) body]. *)
Fixpoint for_of {A} (xs : list A) (body : A → M unit) : M unit :=
  match xs with
  | [] => mret tt
  | x :: rest => body x ;; for_of rest body
  end.

(** ** Helpers on strings and bytes *)

Definition hex_digit (n : N) : ascii :=
  match n with
  | 0 => "0" | 1 => "1" | 2 => "2" | 3 => "3" | 4 => "4" | 5 => "5"
  | 6 => "6" | 7 => "7" | 8 => "8" | 9 => "9" | 10 => "a" | 11 => "b"
  | 12 => "c" | 13 => "d" | 14 => "e" | _ => "f"
  end%N%char.

Definition byte_hex (b : byte) : string :=
  String (hex_digit (Byte.to_N b / 16)) (String (hex_digit (Byte.to_N b mod 16)) "").

(** [ByteBuffer.toHex] of node-forge: two lower-case digits per byte. *)
Fixpoint toHex (bs : list byte) : string :=
  match bs with
  | [] => ""
  | b :: rest => byte_hex b +:+ toHex rest
  end.

Definition is_line_terminator (c : ascii) : bool :=
  bool_decide (c = "010"%char) || bool_decide (c = "013"%char).

(** The matches of the global regular expression [/.{2}/g], left to right. *)
Fixpoint match_pairs (s : string) : list string :=
  match s with
  | String a (String b rest as tl) =>
      if is_line_terminator a || is_line_terminator b
      then match_pairs tl
      else String a (String b "") :: match_pairs rest
  | _ => []
  end.

(** [s.match(/.{2}/g)]: [null] when nothing matches. *)
Definition match_all_pairs (s : string) : option (list string) :=
  match match_pairs s with
  | [] => None
  | ps => Some ps
  end.

Fixpoint strip_prefix (p s : string) : option string :=
  match p, s with
  | "", _ => Some s
  | String a p', String b s' => if bool_decide (a = b) then strip_prefix p' s' else None
  | _, _ => None
  end.

Fixpoint take_until_comma (s : string) : string :=
  match s with
  | "" => ""
  | String c rest => if bool_decide (c = ","%char) then "" else String c (take_until_comma rest)
  end.

(** The first capture of [new RegExp(`${fieldName}=([^,]+)`)] in [s], for a
    field name without special characters: the leftmost place where
    [fieldName=] is followed by a character other than a comma. *)
Fixpoint regex_field (fieldName s : string) : option string :=
  let here :=
    match strip_prefix (fieldName +:+ "=") s with
    | Some rest =>
        match take_until_comma rest with
        | "" => None
        | cap => Some cap
        end
    | None => None
    end in
  match here, s with
  | Some cap, _ => Some cap
  | None, String _ rest => regex_field fieldName rest
  | None, "" => None
  end.

(** Property lookup in an object whose keys are kept in order. *)
Fixpoint lookup_key (fields : list (string * jsval)) (k : string) : jsval :=
  match fields with
  | [] => VUndef
  | (k', v) :: rest => if bool_decide (k' = k) then v else lookup_key rest k
  end.

(** The table of signature algorithms of [parseCertificate]. *)
Definition oidMap : list (string * jsval) :=
  [ ("1.2.840.113549.1.1.1", VStr "RSA");
    ("1.2.840.113549.1.1.2", VStr "MD2withRSA");
    ("1.2.840.113549.1.1.4", VStr "MD5withRSA");
    ("1.2.840.113549.1.1.5", VStr "SHA1withRSA");
    ("1.2.840.113549.1.1.11", VStr "SHA256withRSA");
    ("1.2.840.113549.1.1.12", VStr "SHA384withRSA");
    ("1.2.840.113549.1.1.13", VStr "SHA512withRSA");
    ("1.2.840.10045.4.3.2", VStr "ECDSA with SHA256");
    ("1.2.840.10045.4.3.3", VStr "ECDSA with SHA384") ].

(** ** The scanner: [modules/scanner.js] *)

(** [formatDN(dn)]. *)
Definition formatDN (dn : option DN) : string :=
  match dn with
  | None => "Unknown"
  | Some d =>
      match attributes d with
      | None => "Unknown"
      | Some attrs =>
          join ", "
            ((λ attr, to_string (attr_shortName attr ||| attr_name attr)
                        +:+ "=" +:+ to_string (attr_value attr)) <$> attrs)
      end
  end.

(** [dn.getField(sn)] of node-forge: the first attribute with that short
    name, [null] when there is none; it throws on a name without an
    attribute array, which is [None] here. *)
Definition getField (d : DN) (sn : string) : option (option attribute) :=
  match attributes d with
  | None => None
  | Some attrs =>
      Some (List.find (λ attr, bool_decide (attr_shortName attr = VStr sn)) attrs)
  end.

(** The two places [parseCertificate] takes a subject field from: first
    [getField(sn)], a method every name of a node-forge certificate has,
    then a search by long or short name; an exception leaves the empty
    string. *)
Definition subject_field (subject : option DN) (long sn : string) : jsval :=
  match subject with
  | None => VStr ""
  | Some d =>
      match getField d sn with
      | None => VStr ""
      | Some (Some attr) => attr_value attr
      | Some None =>
          match attributes d with
          | None => VStr ""
          | Some attrs =>
              match List.find (λ attr, bool_decide (attr_name attr = VStr long)
                                        || bool_decide (attr_shortName attr = VStr sn)) attrs with
              | Some attr => attr_value attr
              | None => VStr ""
              end
          end
      end
  end.

(** The labels of the key-usage flags that are set, in the order of the
    source. *)
Definition keyUsage_labels (ext : option key_usage) : list string :=
  match ext with
  | None => []
  | Some e =>
      (if digitalSignature e then ["Digital Signature"] else []) ++
      (if nonRepudiation e then ["Non Repudiation"] else []) ++
      (if keyEncipherment e then ["Key Encipherment"] else []) ++
      (if dataEncipherment e then ["Data Encipherment"] else []) ++
      (if keyAgreement e then ["Key Agreement"] else []) ++
      (if keyCertSign e then ["Certificate Signing"] else []) ++
      (if cRLSign e then ["CRL Signing"] else [])
  end.

(** The status expression of [parseCertificate]. *)
Definition classify (daysRemaining : jsval) : string :=
  if js_lt daysRemaining 0 then "expired"
  else if js_lt daysRemaining 30 then "warning"
  else "valid".

(** [extractSubjectField(cert, fieldName)]. *)
Definition extractSubjectField (cert : peer_cert) (fieldName : string) : jsval :=
  match pc_subject cert with
  | DnAbsent => VStr ""
  | DnString s =>
      if String.eqb s "" then VStr ""
      else match regex_field fieldName s with
           | Some cap => VStr cap
           | None => VStr ""
           end
  | DnObject fields => lookup_key fields fieldName ||| VStr ""
  | DnBare _ => VStr ""
  end.

(** The last resort of [formatRawIssuer]: the [key=value] pairs of the
    truthy fields. *)
Definition fieldPairs (fields : list (string * jsval)) : list string :=
  (λ kv, fst kv +:+ "=" +:+ to_string (snd kv)) <$> filter (λ kv, truthy (snd kv) = true) fields.

(** [formatRawIssuer(issuer)]. *)
Definition formatRawIssuer (issuer : raw_dn) : jsval :=
  match issuer with
  | DnAbsent => VStr "Unknown"
  | DnString s => if String.eqb s "" then VStr "Unknown" else VStr s
  | DnObject fields =>
      if truthy (lookup_key fields "O") then lookup_key fields "O"
      else if truthy (lookup_key fields "CN") then lookup_key fields "CN"
      else VStr (join ", " (fieldPairs fields)) ||| VStr "Unknown"
  | DnBare _ => VStr "Unknown"
  end.

(** [Object.keys(cert).length === 0]. *)
Definition no_keys (cert : peer_cert) : bool :=
  match pc_subject cert, pc_issuer cert, valid_from cert, pc_validFrom cert,
        valid_to cert, pc_validTo cert, pc_fingerprint cert, pc_serialNumber cert,
        raw cert with
  | DnAbsent, DnAbsent, VUndef, VUndef, VUndef, VUndef, VUndef, VUndef, None => true
  | _, _, _, _, _, _, _, _, _ => false
  end.

(** An [error] record of [scanHost] and [scanHosts]. *)
Definition error_record (host : string) (port : jsval) (message lastScanned : string) : obj :=
  list_to_map
    [ ("host", VStr host); ("port", port); ("status", VStr "error");
      ("error", VStr message); ("lastScanned", VStr lastScanned) ].

(** [{...parsedCert, ...rawCertData, host, port, commonName: ..., ...}] of
    [getCertificate]. *)
Definition combinedData (host : string) (port : Z) (rawCertData parsedCert : obj) : obj :=
  <["validTo" := field rawCertData "validTo" ||| field parsedCert "validTo"]>
  (<["validFrom" := field rawCertData "validFrom" ||| field parsedCert "validFrom"]>
  (<["issuer" := field rawCertData "issuer" ||| field parsedCert "issuer"]>
  (<["organization" := field rawCertData "organization" ||| field parsedCert "organization"]>
  (<["commonName" := field rawCertData "commonName" ||| field parsedCert "commonName"]>
  (<["port" := VNum port]>
  (<["host" := VStr host]>
  (rawCertData ∪ parsedCert))))))).

(** ** The [Map] of the scheduler, in insertion order *)

Fixpoint map_get (k : jsval) (m : list (jsval * option nat)) : option (option nat) :=
  match m with
  | [] => None
  | (k', v) :: rest => if bool_decide (k' = k) then Some v else map_get k rest
  end.

Definition map_has (k : jsval) (m : list (jsval * option nat)) : bool :=
  bool_decide (is_Some (map_get k m)).

Definition map_delete (k : jsval) (m : list (jsval * option nat)) : list (jsval * option nat) :=
  filter (λ e, fst e ≠ k) m.

(** [m.set(k, v)]: an existing key keeps its place, a new one goes last. *)
Fixpoint map_set (k : jsval) (v : option nat) (m : list (jsval * option nat))
    : list (jsval * option nat) :=
  match m with
  | [] => [(k, v)]
  | (k', v') :: rest =>
      if bool_decide (k' = k) then (k, v) :: rest else (k', v') :: map_set k v rest
  end.

(** The body of an HTTP response of the API. *)
Inductive response : Type :=
  | JsonFailure (status : Z) (error : string)
  | JsonResults (data : list obj) (summary : obj).

(** ** The text of a request

    The hosts and the ports of a request arrive as text, which the routes
    split, trim and read as numbers.  The text is taken to hold characters
    below 128, as host names and port numbers do. *)

(** The characters [\s] matches, which are those [trim] removes and
    [parseInt] skips. *)
Definition is_space (c : ascii) : bool :=
  let n := N_of_ascii c in ((9 <=? n) && (n <=? 13) || (n =? 32))%N.

(** [/[,;\s]/], which the API writes [/[,;\n\s]/] for the hosts. *)
Definition is_separator (c : ascii) : bool :=
  bool_decide (c = ","%char) || bool_decide (c = ";"%char) || is_space c.

(** [/[,;\n]/]. *)
Definition is_line_separator (c : ascii) : bool :=
  bool_decide (c = ","%char) || bool_decide (c = ";"%char) || bool_decide (c = "010"%char).

(** ['\n']. *)
Definition newline : string := String "010" "".

(** [s.split(sep)] for a separator that matches one character: the pieces
    between the matches, of which there is always one. *)
Fixpoint split_on (sep : ascii → bool) (s : string) : list string :=
  match s with
  | "" => [""]
  | String c rest =>
      if sep c then "" :: split_on sep rest
      else match split_on sep rest with
           | piece :: pieces => String c piece :: pieces
           | [] => [String c ""]
           end
  end.

Fixpoint trim_start (s : string) : string :=
  match s with
  | String c rest => if is_space c then trim_start rest else s
  | "" => ""
  end.

Fixpoint trim_end (s : string) : string :=
  match s with
  | String c rest =>
      match trim_end rest with
      | "" => if is_space c then "" else String c ""
      | kept => String c kept
      end
  | "" => ""
  end.

(** [s.trim()]. *)
Definition trim (s : string) : string := trim_end (trim_start s).

Definition digit_of (c : ascii) : option Z :=
  let n := Z.of_N (N_of_ascii c) in
  if (48 <=? n) && (n <=? 57) then Some (n - 48) else None.

(** The number the decimal digits at the head of [s] spell after the
    digits read so far; [None] when there has been no digit. *)
Fixpoint parse_digits (acc : option Z) (s : string) : option Z :=
  match s with
  | String c rest =>
      match digit_of c with
      | Some d => parse_digits (Some (10 * default 0 acc + d)) rest
      | None => acc
      end
  | "" => acc
  end.

(** [parseInt(s, 10)]: leading white space is skipped, a sign is read,
    then the digits up to the first character that is none; NaN when
    there is no digit.  The value is exact, where JavaScript rounds a
    numeral of more than 15 digits; no such value is in the range of a
    port. *)
Definition parseInt (s : string) : jsval :=
  let number (negative : bool) (digits : string) :=
    match parse_digits None digits with
    | Some n => VNum (if negative then - n else n)
    | None => VNaN
    end in
  match trim_start s with
  | String "-" rest => number true rest
  | String "+" rest => number false rest
  | body => number false body
  end.

(** [!isNaN(p) && p > 0 && p < 65536]. *)
Definition port_of (p : jsval) : option Z :=
  match p with
  | VNum n => if (0 <? n) && (n <? 65536) then Some n else None
  | _ => None
  end.

(** [ports.split(/[,;\s]/).map(p => parseInt(p.trim(), 10))
     .filter(p => !isNaN(p) && p > 0 && p < 65536)]. *)
Definition parsePorts (ports : string) : list Z :=
  omap (λ p, port_of (parseInt (trim p))) (split_on is_separator ports).

(** [hosts.split(sep).map(h => h.trim()).filter(h => h.length > 0)]. *)
Definition splitHosts (sep : ascii → bool) (hosts : string) : list string :=
  filter (λ h, h ≠ "") (trim <$> split_on sep hosts).

(** Whether no character of [s] satisfies [p]. *)
Fixpoint free_of (p : ascii → bool) (s : string) : bool :=
  match s with
  | "" => true
  | String c rest => negb (p c) && free_of p rest
  end.

(** What [POST /scanner] renders: the form again with an error and the
    data of the request, or the results with their summary. *)
Inductive scanner_page : Type :=
  | ScannerForm (error : string) (formData : obj)
  | ScannerResults (results : list obj) (scanSummary : obj).

(** What a route of the scheduler answers: a redirection, or the error
    page with its status, its message and the message of the exception. *)
Inductive scheduler_page : Type :=
  | Redirect (url : string)
  | ErrorPage (status : Z) (message stack : string).

(** ** The history of the scans: [GET /api/scan/history]

    The loop of the handler over the rows [getAllCertificates] resolved
    with. *)

(** [cert.lastScanned?.split('T')[0] || 'Unknown']; [None] is the
    [TypeError] of a value that has no [split]. *)
Definition scanDate_of (cert : obj) : option string :=
  match field cert "lastScanned" with
  | VUndef | VNull => Some "Unknown"
  | VStr s =>
      match split_on (λ c, bool_decide (c = "T"%char)) s with
      | "" :: _ | [] => Some "Unknown"
      | date :: _ => Some date
      end
  | _ => None
  end.

(** The entry pushed for a date that has none. *)
Definition history_entry (id : Z) (date : string) : obj :=
  list_to_map
    [ ("id", VNum id); ("date", VStr date); ("totalHosts", VNum 0);
      ("validCerts", VNum 0); ("warningCerts", VNum 0); ("expiredCerts", VNum 0);
      ("errorCerts", VNum 0) ].

(** [entry[k]++], on a counter. *)
Definition increment (k : string) (entry : obj) : obj :=
  <[k := match field entry k with
         | VNum n => VNum (n + 1)
         | _ => VNaN
         end]> entry.

(** The counter the status of a row is counted under. *)
Definition status_counter (cert : obj) : string :=
  if bool_decide (field cert "status" = VStr "valid") then "validCerts"
  else if bool_decide (field cert "status" = VStr "warning") then "warningCerts"
  else if bool_decide (field cert "status" = VStr "expired") then "expiredCerts"
  else "errorCerts".

(** One turn of the loop, on [dateMap] and [scanHistory]. *)
Definition history_turn (acc : gmap string nat * list obj) (cert : obj)
    : option (gmap string nat * list obj) :=
  scanDate ← scanDate_of cert;
  let '(dateMap, scanHistory) :=
    match acc.1 !! scanDate with
    | Some _ => acc
    | None =>
        (<[scanDate := length acc.2]> acc.1,
         acc.2 ++ [history_entry (Z.of_nat (length acc.2) + 1) scanDate])
    end in
  index ← dateMap !! scanDate;
  Some (dateMap,
        alter (λ entry, increment (status_counter cert) (increment "totalHosts" entry))
          index scanHistory).

Fixpoint history_loop (acc : gmap string nat * list obj) (certs : list obj)
    : option (gmap string nat * list obj) :=
  match certs with
  | [] => Some acc
  | cert :: rest => acc' ← history_turn acc cert; history_loop acc' rest
  end.

(** The [data] of the answer; [None] when the loop throws, which the
    handler answers with the status 500. *)
Definition scanHistory (certs : list obj) : option (list obj) :=
  snd <$> history_loop (∅, []) certs.

(** ** The environment

    What the program observes and the library functions it calls.
    [env_network t host port] is how the TLS connection opened as
    connection number [t] to [host:port] ends; [env_clock t] is the time
    read after [t] connections, in milliseconds; [env_random t i] is draw
    [i] of [Math.floor(Math.random() * 1000000)].  Then
    [Date.prototype.toISOString], [new Date(string).getTime()] ([None] for
    an invalid date) and [moment(d).format('YYYY-MM-DD HH:mm:ss')]; of
    node-forge, the decoding of DER bytes into a certificate object ([None]
    when it throws), the encoding of the object back to DER ([None] when it
    throws) and the SHA-256 digest; of node-schedule, whether [scheduleJob]
    accepts a rule, and the next invocation of a rule after a given time
    ([None] for [null]). *)
Record Env := {
  env_network : nat → string → Z → handshake;
  env_clock : nat → Z;
  env_random : nat → nat → Z;
  env_toISOString : Z → string;
  env_parseDate : string → option Z;
  env_momentFormat : Z → string;
  env_certificateFromDer : list byte → option forge_cert;
  env_certificateToDer : forge_cert → option (list byte);
  env_sha256 : list byte → list byte;
  env_validRule : string → bool;
  env_nextInvocation : string → Z → option Z
}.

(** ** A sample environment

    One endpoint that presents an expired certificate issued by a
    certificate authority, one whose certificate cannot be decoded, every
    other endpoint refusing the connection, and stand-ins for the library
    functions. *)

Definition sample_der : list byte := [x30; x82; x01; x0a; x30; x81; xf1].

Definition sample_attr (sn long v : string) : attribute :=
  {| attr_shortName := VStr sn; attr_name := VStr long; attr_value := VStr v |}.

Definition sample_forge : forge_cert :=
  {| fc_subject := Some {| attributes := Some
       [ sample_attr "CN" "commonName" "internal.example";
         sample_attr "O" "organizationName" "Example Corp" ] |};
     fc_issuer := Some {| attributes := Some
       [ sample_attr "C" "countryName" "US";
         sample_attr "O" "organizationName" "Example CA";
         sample_attr "CN" "commonName" "Example Root" ] |};
     notBefore := 1700000000000;
     notAfter := 1760000000000;
     siginfo_algorithmOid := VStr "1.2.840.113549.1.1.11";
     signatureOid := VStr "1.2.840.113549.1.1.11";
     keyUsageExt := None;
     fc_host := VUndef;
     fc_port := VUndef |}.

Definition sample_peer : peer_cert :=
  {| pc_subject := DnObject [("CN", VStr "internal.example"); ("O", VStr "Example Corp")];
     pc_issuer := DnObject [("C", VStr "US"); ("O", VStr "Example CA");
                            ("CN", VStr "Example Root")];
     valid_from := VStr "Nov 14 22:13:20 2023 GMT";
     pc_validFrom := VUndef;
     valid_to := VStr "Oct  9 08:53:20 2025 GMT";
     pc_validTo := VUndef;
     pc_fingerprint := VStr "2A:7A:C2:DD:E5:F9:CC:53:72:35:99:7A:02:5A:71:38:52:EC:8A:DF";
     pc_serialNumber := VStr "0A1B2C";
     raw := Some sample_der |}.

(** The same certificate with truncated bytes, which node-forge cannot
    decode. *)
Definition sample_corrupt_peer : peer_cert :=
  {| pc_subject := pc_subject sample_peer;
     pc_issuer := pc_issuer sample_peer;
     valid_from := valid_from sample_peer;
     pc_validFrom := VUndef;
     valid_to := valid_to sample_peer;
     pc_validTo := VUndef;
     pc_fingerprint := pc_fingerprint sample_peer;
     pc_serialNumber := pc_serialNumber sample_peer;
     raw := Some [x30; x82; x01] |}.

(** The first endpoint answers its first connection and every later one
    but the second, which is refused; the second endpoint presents the
    certificate that cannot be decoded. *)
Definition sample_network (t : nat) (host : string) (port : Z) : handshake :=
  if bool_decide (host = "internal.example") && negb (bool_decide (t = 1%nat))
  then Secured (Some sample_peer)
  else if bool_decide (host = "corrupt.example")
  then Secured (Some sample_corrupt_peer)
  else SocketError "connect ECONNREFUSED".

(** The first of November 2025, one second passing per connection. *)
Definition sample_clock (t : nat) : Z := 1762000000000 + 1000 * Z.of_nat t.

Definition sample_random (t i : nat) : Z := 271828 + Z.of_nat i.

Definition sample_toISOString (ms : Z) : string := "T" +:+ pretty ms.

Definition sample_parseDate (s : string) : option Z :=
  if String.eqb s "Nov 14 22:13:20 2023 GMT" then Some 1700000000000
  else if String.eqb s "Oct  9 08:53:20 2025 GMT" then Some 1760000000000
  else None.

Definition sample_momentFormat (ms : Z) : string := "L" +:+ pretty ms.

(** Decoding succeeds on the bytes of the sample certificate and throws on
    anything shorter. *)
Definition sample_certificateFromDer (bs : list byte) : option forge_cert :=
  if (7 <=? length bs)%nat then Some sample_forge else None.

Definition sample_certificateToDer (cert : forge_cert) : option (list byte) :=
  Some sample_der.

(** A stand-in for the digest: 32 bytes for every input. *)
Definition sample_sha256 (bs : list byte) : list byte :=
  take 32 (bs ++ replicate 32 x00).

Definition sample_validRule (rule : string) : bool :=
  bool_decide (rule ∈ ["0 * * * *"; "0 0 * * *"; "0 0 * * 0"; "0 0 1 * *"; "*/5 * * * *"]).

Definition sample_nextInvocation (rule : string) (now : Z) : option Z :=
  Some (now + 3600000).

Definition sample_env : Env :=
  {| env_network := sample_network;
     env_clock := sample_clock;
     env_random := sample_random;
     env_toISOString := sample_toISOString;
     env_parseDate := sample_parseDate;
     env_momentFormat := sample_momentFormat;
     env_certificateFromDer := sample_certificateFromDer;
     env_certificateToDer := sample_certificateToDer;
     env_sha256 := sample_sha256;
     env_validRule := sample_validRule;
     env_nextInvocation := sample_nextInvocation |}.

Definition sample_row : scan_row :=
  {| r_name := SText "intranet";
     r_hosts := VStrs ["internal.example"; "absent.example"];
     r_ports := VNums [443];
     r_frequency := SText "daily";
     r_last_run := SNull;
     r_next_run := SText "2025-11-02T00:00:00.000Z";
     r_active := SInt 1 |}.

Definition sample_state : State :=
  {| tick := 0;
     certificates := ∅;
     scheduled_scans := {[ 7 := sample_row ]};
     jobs := [];
     activeJobs := [] |}.

(** The scan of the sample with a frequency that is no rule, and the scan
    of the sample after a run. *)
Definition sample_unparsed_row : scan_row :=
  {| r_name := SText "intranet";
     r_hosts := VStrs ["internal.example"; "absent.example"];
     r_ports := VNums [443];
     r_frequency := SText "every day";
     r_last_run := SNull;
     r_next_run := SNull;
     r_active := SInt 1 |}.

Definition sample_ran_row : scan_row :=
  {| r_name := SText "intranet";
     r_hosts := VStrs ["internal.example"; "absent.example"];
     r_ports := VNums [443];
     r_frequency := SText "daily";
     r_last_run := SText "2025-11-01T00:00:00.000Z";
     r_next_run := SText "2025-11-02T00:00:00.000Z";
     r_active := SInt 1 |}.

(** The job [scheduleJob] creates for the scan of the sample. *)
Definition sample_job : job :=
  {| j_scan :=
       list_to_map
         [ ("id", VNum 7); ("name", VStr "intranet");
           ("hosts", VStrs ["internal.example"; "absent.example"]);
           ("ports", VNums [443]); ("frequency", VStr "daily");
           ("last_run", VNull); ("next_run", VStr "2025-11-02T00:00:00.000Z");
           ("active", VBool true) ];
     j_rule := "0 0 * * *";
     j_live := true |}.

(** The state of the sample once its scan has been armed. *)
Definition sample_armed_state : State :=
  {| tick := 0;
     certificates := ∅;
     scheduled_scans :=
       {[ 7 := {| r_name := SText "intranet";
                  r_hosts := VStrs ["internal.example"; "absent.example"];
                  r_ports := VNums [443];
                  r_frequency := SText "daily";
                  r_last_run := SNull;
                  r_next_run := SText "T1762003600000";
                  r_active := SInt 1 |} ]};
     jobs := [sample_job];
     activeJobs := [(VNum 7, Some 0%nat)] |}.

(** Two rows of [certificates] as the driver returns them, their keys the
    names of the columns. *)
Definition sample_certificate_rows : list obj :=
  [ list_to_map
      [ ("id", VNum 1); ("host", VStr "internal.example"); ("port", VNum 443);
        ("subject", VStr "CN=internal.example, O=Example Corp");
        ("issuer", VStr "Example CA");
        ("valid_from", VStr "Nov 14 22:13:20 2023 GMT");
        ("valid_to", VStr "Oct  9 08:53:20 2025 GMT");
        ("fingerprint", VStr "2A:7A:C2:DD:E5:F9:CC:53:72:35:99:7A:02:5A:71:38:52:EC:8A:DF");
        ("signature_algorithm", VStr "SHA256withRSA"); ("self_signed", VNum 0);
        ("status", VStr "valid"); ("last_scanned", VStr "2025-11-01T12:26:41.000Z");
        ("days_remaining", VNum (-24)) ];
    list_to_map
      [ ("id", VNum 2); ("host", VStr "absent.example"); ("port", VNum 443);
        ("subject", VNull); ("issuer", VNull); ("valid_from", VNull);
        ("valid_to", VNull); ("fingerprint", VNull); ("signature_algorithm", VNull);
        ("self_signed", VNum 0); ("status", VStr "error");
        ("last_scanned", VStr "2025-11-02T09:00:00.000Z"); ("days_remaining", VNull) ] ].

Section Program.

Variable E : Env.

Local Abbreviation network := (env_network E).
Local Abbreviation clock := (env_clock E).
Local Abbreviation random := (env_random E).
Local Abbreviation toISOString := (env_toISOString E).
Local Abbreviation parseDate := (env_parseDate E).
Local Abbreviation momentFormat := (env_momentFormat E).
Local Abbreviation certificateFromDer := (env_certificateFromDer E).
Local Abbreviation certificateToDer := (env_certificateToDer E).
Local Abbreviation sha256 := (env_sha256 E).
Local Abbreviation validRule := (env_validRule E).
Local Abbreviation nextInvocation := (env_nextInvocation E).

(** [new Date()], as milliseconds. *)
Definition Date_now : M Z := λ st, (Returned (clock (tick st)), st).

(** [tls.connect(...)], up to the event that settles the Promise. *)
Definition tls_connect (host : string) (port : Z) : M handshake := λ st,
  (Returned (network (tick st) host port), set_tick (S (tick st)) st).

(** *** [parseCertificate] *)

(** The fingerprint computed by [parseCertificate]. *)
Definition sha256_fingerprint (cert : forge_cert) : string :=
  match certificateToDer cert with
  | None => "Could not calculate"
  | Some der =>
      match match_all_pairs (toHex (sha256 der)) with
      | None => "Could not calculate"
      | Some pairs => join ":" pairs
      end
  end.

(** The subject and issuer strings of [parseCertificate]: [formatDN] of an
    object, and ['Unknown'] in place of a missing or empty result. *)
Definition dn_string (dn : option DN) : jsval :=
  match dn with
  | Some d => VStr (formatDN (Some d))
  | None => VNull
  end ||| VStr "Unknown".

(** The signature algorithm name of [parseCertificate]. *)
Definition signature_name (cert : forge_cert) : jsval :=
  if truthy (siginfo_algorithmOid cert) then
    lookup_key oidMap (to_string (siginfo_algorithmOid cert))
      ||| VStr ("OID: " +:+ to_string (siginfo_algorithmOid cert))
  else if truthy (signatureOid cert) then
    VStr ("OID: " +:+ to_string (signatureOid cert))
  else VStr "unknown".

(** [parseCertificate(cert)], run at time [now].  [moment] formats the two
    dates without throwing. *)
Definition parseCertificate (now : Z) (cert : forge_cert) : obj :=
  let daysRemaining := VNum ((notAfter cert - now) / (1000 * 60 * 60 * 24)) in
  let subject := dn_string (fc_subject cert) in
  let issuer := dn_string (fc_issuer cert) in
  let commonName := subject_field (fc_subject cert) "commonName" "CN" in
  let selfSigned := bool_decide (issuer = subject) in
  let organization := subject_field (fc_subject cert) "organizationName" "O" in
  list_to_map
    [ ("host", fc_host cert ||| commonName);
      ("port", fc_port cert ||| VNum 443);
      ("subject", subject);
      ("issuer", issuer);
      ("commonName", commonName);
      ("organization", organization);
      ("validFrom", VStr (momentFormat (notBefore cert)));
      ("validTo", VStr (momentFormat (notAfter cert)));
      ("fingerprint", VStr (sha256_fingerprint cert));
      ("signatureAlgorithm", signature_name cert);
      ("selfSigned", VBool selfSigned);
      ("daysRemaining", daysRemaining);
      ("keyUsage", VStr (join ", " (keyUsage_labels (keyUsageExt cert))));
      ("status", VStr (classify daysRemaining));
      ("lastScanned", VStr (toISOString now)) ].

(** *** [getCertificate] *)

(** [new Date(v).getTime()] for a truthy [v]. *)
Definition date_of (v : jsval) : option Z :=
  match v with
  | VStr s => parseDate s
  | VNum n => Some n
  | VBool true => Some 1
  | VStrs _ | VNums _ => parseDate (to_string v)
  | _ => None
  end.

(** [calculateDaysRemaining(validTo)], run at time [now].  The operands are
    integers far below [2^53], for which the floor of the floating-point
    quotient is the floor of the exact one. *)
Definition calculateDaysRemaining (now : Z) (validTo : jsval) : jsval :=
  if truthy validTo then
    match date_of validTo with
    | Some expiryDate => VNum ((expiryDate - now) / (1000 * 60 * 60 * 24))
    | None => VNaN
    end
  else VNum 0.

(** The object [rawCertData] of [getCertificate]. *)
Definition rawCertData (now : Z) (host : string) (port : Z) (cert : peer_cert) : obj :=
  list_to_map
    [ ("host", VStr host);
      ("port", VNum port);
      ("status", VStr "valid");
      ("lastScanned", VStr (toISOString now));
      ("commonName", extractSubjectField cert "CN");
      ("organization", extractSubjectField cert "O");
      ("issuer", formatRawIssuer (pc_issuer cert));
      ("validFrom", valid_from cert ||| pc_validFrom cert);
      ("validTo", valid_to cert ||| pc_validTo cert);
      ("daysRemaining", calculateDaysRemaining now (valid_to cert ||| pc_validTo cert));
      ("fingerprint", pc_fingerprint cert ||| VStr "Unknown");
      ("serialNumber", pc_serialNumber cert ||| VStr "Unknown") ].

(** What the handshake callback of [getCertificate] resolves with for a
    certificate that has keys: the merged record when [cert.raw] is there
    and node-forge decodes it, the raw record otherwise. *)
Definition certificate_record (now : Z) (host : string) (port : Z) (cert : peer_cert) : obj :=
  match raw cert with
  | Some der =>
      match certificateFromDer der with
      | Some forgeCert =>
          combinedData host port (rawCertData now host port cert)
                       (parseCertificate now forgeCert)
      | None => rawCertData now host port cert
      end
  | None => rawCertData now host port cert
  end.

(** [getCertificate(host, port, timeout)]: the returned Promise, resolved
    ([Returned]) or rejected ([Thrown]).  Nothing throws while the raw
    record is built, so the rejection that the callback keeps for that case
    does not occur. *)
Definition getCertificate (host : string) (port : Z) (timeout : Z) : M obj :=
  hs ← tls_connect host port;
  match hs with
  | ConnectThrows msg => throw ("Failed to establish secure connection: " +:+ msg)
  | SocketError msg => throw ("Connection error: " +:+ msg)
  | SocketTimeout => throw ("Connection timeout after " +:+ pretty timeout +:+ "ms")
  | Stalled => throw "Connection stalled - forcibly closed"
  | Secured None => throw "No certificate found"
  | Secured (Some cert) =>
      if no_keys cert then throw "No certificate found"
      else now ← Date_now; mret (certificate_record now host port cert)
  end.

(** *** [scanHost] and [scanHosts] *)

(** One turn of the loop of [scanHost], [results] being the array so
    far.  A resolved Promise carries an object, so the test
    [if (certificate)] holds. *)
Definition scanPort (host : string) (timeout : Z) (results : list obj) (port : Z)
    : M (list obj) :=
  try_catch
    (certificate ← getCertificate host port timeout;
     mret (results ++ [certificate]))
    (λ message,
       now ← Date_now;
       mret (results ++ [error_record host (VNum port) message (toISOString now)])).

Fixpoint scanPorts (host : string) (timeout : Z) (results : list obj) (ports : list Z)
    : M (list obj) :=
  match ports with
  | [] => mret results
  | port :: rest =>
      results' ← scanPort host timeout results port;
      scanPorts host timeout results' rest
  end.

(** [scanHost(host, ports, timeout)]. *)
Definition scanHost (host : string) (ports : list Z) (timeout : Z) : M (list obj) :=
  scanPorts host timeout [] ports.

(** [ports[0]] in the error entry of [scanHosts]. *)
Definition first_port (ports : list Z) : jsval :=
  match ports with
  | [] => VUndef
  | p :: _ => VNum p
  end.

(** One turn of the loop of [scanHosts].  Its three branches, for a CIDR
    range, a dash range and a single host, make the same call. *)
Definition scanOne (ports : list Z) (timeout : Z) (results : list obj) (host : string)
    : M (list obj) :=
  try_catch
    (hostResults ← scanHost host ports timeout;
     mret (results ++ hostResults))
    (λ message,
       now ← Date_now;
       mret (results ++ [error_record host (first_port ports) message (toISOString now)])).

Fixpoint scanAll (ports : list Z) (timeout : Z) (results : list obj) (hosts : list string)
    : M (list obj) :=
  match hosts with
  | [] => mret results
  | host :: rest =>
      results' ← scanOne ports timeout results host;
      scanAll ports timeout results' rest
  end.

(** [scanHosts(hosts, ports, timeout)]. *)
Definition scanHosts (hosts : list string) (ports : list Z) (timeout : Z) : M (list obj) :=
  scanAll ports timeout [] hosts.

(** *** The store: [modules/database.js] *)

(** The parameters [saveCertificate] binds to the key columns and to the
    other columns of a row.  In every record the program saves, [host] is a
    string and [port] a number, which the columns keep as they are. *)
Definition target_of (certData : obj) : sqlval * sqlval :=
  (bind_param (field certData "host"), bind_param (field certData "port")).

Definition cert_row_of (certData : obj) : cert_row :=
  {| c_subject := bind_param (field certData "subject");
     c_issuer := bind_param (field certData "issuer");
     c_valid_from := bind_param (field certData "validFrom");
     c_valid_to := bind_param (field certData "validTo");
     c_fingerprint := bind_param (field certData "fingerprint");
     c_signature_algorithm := bind_param (field certData "signatureAlgorithm");
     c_self_signed := SInt (if truthy (field certData "selfSigned") then 1 else 0);
     c_status := bind_param (field certData "status");
     c_last_scanned := bind_param (field certData "lastScanned");
     c_days_remaining := bind_param (field certData "daysRemaining") |}.

(** [saveCertificate(certData)]: [INSERT OR REPLACE] under the key
    [(host, port)], both columns being [NOT NULL]. *)
Definition saveCertificate (certData : obj) : M unit := λ st,
  match target_of certData with
  | (SNull, _) =>
      (Thrown "SQLITE_CONSTRAINT: NOT NULL constraint failed: certificates.host", st)
  | (_, SNull) =>
      (Thrown "SQLITE_CONSTRAINT: NOT NULL constraint failed: certificates.port", st)
  | _ =>
      (Returned tt,
       set_certificates (<[target_of certData := cert_row_of certData]> (certificates st)) st)
  end.

(** The object the driver makes of a row of [scheduled_scans], after
    [getScheduledScanById] has parsed [hosts] and [ports] and turned
    [active] into a boolean: its keys are the column names. *)
Definition scan_object (id : Z) (row : scan_row) : obj :=
  list_to_map
    [ ("id", VNum id);
      ("name", column (r_name row));
      ("hosts", r_hosts row);
      ("ports", r_ports row);
      ("frequency", column (r_frequency row));
      ("last_run", column (r_last_run row));
      ("next_run", column (r_next_run row));
      ("active", VBool (truthy (column (r_active row)))) ].

(** [getScheduledScanById(id)]; [None] is the [undefined] row. *)
Definition getScheduledScanById (id : Z) : M (option obj) := λ st,
  (Returned (scan_object id <$> scheduled_scans st !! id), st).

(** [getAllScheduledScans()]. *)
Definition getAllScheduledScans : M (list obj) := λ st,
  (Returned ((λ kv, scan_object (fst kv) (snd kv)) <$> map_to_list (scheduled_scans st)), st).

(** [updateScheduledScanTimes(id, lastRun, nextRun)]: an [UPDATE] of the
    row whose key is the number [id]; whether a row changed. *)
Definition updateScheduledScanTimes (id lastRun nextRun : jsval) : M bool := λ st,
  match bind_param id with
  | SInt n =>
      match scheduled_scans st !! n with
      | Some row =>
          let row' :=
            {| r_name := r_name row; r_hosts := r_hosts row; r_ports := r_ports row;
               r_frequency := r_frequency row;
               r_last_run := bind_param lastRun;
               r_next_run := bind_param nextRun;
               r_active := r_active row |} in
          (Returned true, set_scheduled_scans (<[n := row']> (scheduled_scans st)) st)
      | None => (Returned false, st)
      end
  | _ => (Returned false, st)
  end.

(** [deleteScheduledScan(id)], called with a number, or with NaN, which is
    bound as NULL and matches no row: whether a row was deleted. *)
Definition deleteScheduledScan (id : jsval) : M bool := λ st,
  match bind_param id with
  | SInt n =>
      match scheduled_scans st !! n with
      | Some _ => (Returned true, set_scheduled_scans (delete n (scheduled_scans st)) st)
      | None => (Returned false, st)
      end
  | _ => (Returned false, st)
  end.

(** *** The scheduler: [modules/scheduler.js] *)

(** The [hosts] array of a scan object, as [scanHosts] iterates it. *)
Definition hosts_of (v : jsval) : M (list string) :=
  match v with
  | VStrs l => mret l
  | VNums [] => mret []
  | _ => throw "TypeError: hosts is not iterable"
  end.

(** The [ports] array of a scan object; [undefined] selects the default
    parameter [[443]] of [scanHosts]. *)
Definition ports_of (v : jsval) : M (list Z) :=
  match v with
  | VNums l => mret l
  | VStrs [] => mret []
  | VUndef => mret [443]
  | _ => throw "TypeError: ports.join is not a function"
  end.

(** [job.cancel()]. *)
Definition cancelled (jb : job) : job :=
  {| j_scan := j_scan jb; j_rule := j_rule jb; j_live := false |}.

Definition cancel (j : nat) : M unit :=
  modify (λ st, set_jobs (alter cancelled j (jobs st)) st).

(** [schedule.scheduleJob(rule, callback)], the callback closing over
    [scan]: a new job, or [null] for a rule that is not accepted.  The
    frequency of a stored scan is a string; no other value is a rule. *)
Definition schedule_scheduleJob (rule : jsval) (scan : obj) : M (option nat) := λ st,
  match rule with
  | VStr r =>
      if validRule r
      then (Returned (Some (length (jobs st))),
            set_jobs (jobs st ++ [{| j_scan := scan; j_rule := r; j_live := true |}]) st)
      else (Returned None, st)
  | _ => (Returned None, st)
  end.

(** [job.nextInvocation().toISOString()], on a job that may be [null]. *)
Definition nextRun_of (job : option nat) : M string := λ st,
  match job with
  | None => (Thrown "TypeError: Cannot read properties of null (reading 'nextInvocation')", st)
  | Some j =>
      match jobs st !! j with
      | Some jb =>
          match (if j_live jb then nextInvocation (j_rule jb) (clock (tick st)) else None) with
          | Some t => (Returned (toISOString t), st)
          | None =>
              (Thrown "TypeError: Cannot read properties of null (reading 'toISOString')", st)
          end
      | None =>
          (Thrown "TypeError: Cannot read properties of null (reading 'toISOString')", st)
      end
  end.

(** The [switch] of [scheduleJob]. *)
Definition rule_of (frequency : jsval) : jsval :=
  if bool_decide (frequency = VStr "hourly") then VStr "0 * * * *"
  else if bool_decide (frequency = VStr "daily") then VStr "0 0 * * *"
  else if bool_decide (frequency = VStr "weekly") then VStr "0 0 * * 0"
  else if bool_decide (frequency = VStr "monthly") then VStr "0 0 1 * *"
  else frequency.

(** [scheduleJob(scan)]. *)
Definition scheduleJob (scan : obj) : M unit :=
  st ← get_state;
  (if map_has (field scan "id") (activeJobs st) then
     match map_get (field scan "id") (activeJobs st) with
     | Some (Some j) => cancel j
     | _ => throw "TypeError: Cannot read properties of null (reading 'cancel')"
     end;;
     modify (λ st, set_activeJobs (map_delete (field scan "id") (activeJobs st)) st)
   else mret tt);;
  if truthy (field scan "active") then
    try_catch
      (job ← schedule_scheduleJob (rule_of (field scan "frequency")) scan;
       modify (λ st, set_activeJobs (map_set (field scan "id") job (activeJobs st)) st);;
       nextRun ← nextRun_of job;
       try_catch
         (updateScheduledScanTimes (field scan "id")
            (field scan "lastRun" ||| VNull) (VStr nextRun);; mret tt)
         (λ _, mret tt))
      (λ _, mret tt)
  else mret tt.

(** The callback of a job, which node-schedule calls when the timer of a
    job that has not been cancelled fires. *)
Definition fire (j : nat) : M unit :=
  st ← get_state;
  match jobs st !! j with
  | Some jb =>
      if j_live jb then
        try_catch
          (hosts ← hosts_of (field (j_scan jb) "hosts");
           ports ← ports_of (field (j_scan jb) "ports");
           results ← scanHosts hosts ports 5000;
           for_of results saveCertificate;;
           now ← Date_now;
           nextRun ← nextRun_of (Some j);
           updateScheduledScanTimes (field (j_scan jb) "id")
             (VStr (toISOString now)) (VStr nextRun);;
           mret tt)
          (λ _, mret tt)
      else mret tt
  | None => mret tt
  end.

(** [cancelAllJobs()]. *)
Definition cancelAllJobs : M unit :=
  st ← get_state;
  for_of (activeJobs st)
    (λ entry, match snd entry with
              | Some j => cancel j
              | None => throw "TypeError: Cannot read properties of null (reading 'cancel')"
              end);;
  modify (set_activeJobs []).

(** [initializeScheduler()]. *)
Definition initializeScheduler : M unit :=
  cancelAllJobs;;
  try_catch
    (scheduledScans ← getAllScheduledScans;
     for_of scheduledScans
       (λ scan, if truthy (field scan "active") then scheduleJob scan else mret tt))
    (λ _, mret tt).

(** [runScanNow(scanId)]. *)
Definition runScanNow (scanId : Z) : M (list obj) :=
  found ← getScheduledScanById scanId;
  match found with
  | None => throw ("Scheduled scan with ID " +:+ pretty scanId +:+ " not found")
  | Some scan =>
      hosts ← hosts_of (field scan "hosts");
      ports ← ports_of (field scan "ports");
      results ← scanHosts hosts ports 5000;
      for_of results saveCertificate;;
      now ← Date_now;
      updateScheduledScanTimes (field scan "id")
        (VStr (toISOString now)) (field scan "nextRun");;
      mret results
  end.

(** The loop of [getActiveJobs] over the entries [es] of the [Map], [infos]
    being the array so far. *)
Fixpoint activeJobs_info (es : list (jsval * option nat)) (infos : list obj)
    : M (list obj) :=
  match es with
  | [] => mret infos
  | (id, job) :: rest =>
      nextRun ← nextRun_of job;
      activeJobs_info rest (infos ++ [list_to_map [("id", id); ("nextRun", VStr nextRun)]])
  end.

(** [getActiveJobs()]. *)
Definition getActiveJobs : M (list obj) :=
  st ← get_state;
  activeJobs_info (activeJobs st) [].

(** *** [POST /api/scan]: [api/scan.js] *)

(** The error entry the handler adds when the scan or a save throws. *)
Definition scanError_record (hostsToScan : list string) (portsToScan : list Z)
    (message lastScanned : string) : obj :=
  list_to_map
    [ ("hostname", match hostsToScan with [] => VUndef | h :: _ => VStr h end);
      ("port", first_port portsToScan);
      ("status", VStr "error");
      ("error", VStr message);
      ("lastScanned", VStr lastScanned) ].

(** The loop that saves the results: an [error] result is skipped. *)
Definition save_results (results : list obj) : M unit :=
  for_of results
    (λ cert, if strict_ne (field cert "status") (VStr "error")
             then saveCertificate cert
             else mret tt).

(** The inner [try] of the handler and its [catch]: the value of
    [results] when the summary is compiled. *)
Definition scan_and_save (hostsToScan : list string) (portsToScan : list Z) : M (list obj) :=
  scanned ← try_catch
              (results ← scanHosts hostsToScan portsToScan 5000; mret (inl results))
              (λ message, mret (inr message));
  match scanned with
  | inl results =>
      try_catch
        (save_results results;; mret results)
        (λ message,
           now ← Date_now;
           mret (match hostsToScan with
                 | [] => results
                 | _ => results ++ [scanError_record hostsToScan portsToScan message
                                      (toISOString now)]
                 end))
  | inr message =>
      now ← Date_now;
      mret (match hostsToScan with
            | [] => []
            | _ => [scanError_record hostsToScan portsToScan message (toISOString now)]
            end)
  end.

(** [results.filter(r => r.status === s).length]. *)
Definition count_status (s : string) (results : list obj) : jsval :=
  VNum (Z.of_nat (length (filter (λ r, field r "status" = VStr s) results))).

Definition scanSummary (now : Z) (hostsToScan : list string) (portsToScan : list Z)
    (results : list obj) : obj :=
  list_to_map
    [ ("hosts", VNum (Z.of_nat (length hostsToScan)));
      ("ports", VNum (Z.of_nat (length portsToScan)));
      ("total", VNum (Z.of_nat (length results)));
      ("valid", count_status "valid" results);
      ("warning", count_status "warning" results);
      ("expired", count_status "expired" results);
      ("error", count_status "error" results);
      ("timestamp", VStr (toISOString now)) ].

(** One element of [processedResults]; [rnd] is the identifier drawn for a
    result without one. *)
Definition processResult (now rnd : Z) (cert : obj) : obj :=
  list_to_map
    [ ("id", field cert "id" ||| VNum rnd);
      ("hostname", field cert "host" ||| field cert "hostname"
                     ||| field cert "commonName" ||| VStr "unknown");
      ("port", field cert "port" ||| VNum 443);
      ("issuer", field cert "issuer" ||| VStr "Unknown");
      ("subject", field cert "subject" ||| VStr "Unknown");
      ("commonName", field cert "commonName" ||| VStr "");
      ("organization", field cert "organization" ||| VStr "");
      ("validFrom", field cert "validFrom" ||| VStr (toISOString now));
      ("validTo", field cert "validTo" ||| VStr (toISOString now));
      ("fingerprint", field cert "fingerprint" ||| VStr "");
      ("signatureAlgorithm", field cert "signatureAlgorithm" ||| VStr "Unknown");
      ("selfSigned", field cert "selfSigned" ||| VBool false);
      ("daysRemaining", match field cert "daysRemaining" with
                        | VNum n => VNum n
                        | VNaN => VNaN
                        | _ => VNum 0
                        end);
      ("keyUsage", field cert "keyUsage" ||| VStr "");
      ("status", field cert "status"
                   ||| (if truthy (field cert "error") then VStr "error" else VStr "valid"));
      ("lastScanned", field cert "lastScanned" ||| VStr (toISOString now));
      ("error", field cert "error" ||| VNull) ].

(** The handler, from the point where the hosts and the ports have been
    read from the request body. *)
Definition api_scan (hostsToScan : list string) (portsToScan : list Z) : M response :=
  try_catch
    (match hostsToScan with
     | [] => mret (JsonFailure 400 "No valid hosts provided")
     | _ =>
         results ← scan_and_save hostsToScan portsToScan;
         st ← get_state;
         now ← Date_now;
         mret (JsonResults
                 (imap (λ i cert, processResult now (random (tick st) i) cert) results)
                 (scanSummary now hostsToScan portsToScan results))
     end)
    (λ message,
       mret (JsonFailure 500 (if String.eqb message "" then "Internal server error"
                              else message))).

(** *** The body of a request to [POST /api/scan] *)

(** A method of strings called on a truthy value of the body: the
    [TypeError] of a value that is no string. *)
Definition string_method (receiver method : string) (v : jsval) : M string :=
  match v with
  | VStr s => mret s
  | _ => throw (receiver +:+ "." +:+ method +:+ " is not a function")
  end.

(** The hosts the handler reads from the body. *)
Definition hostsToScan (body : obj) : M (list string) :=
  let hosts := field body "hosts" in
  let type := field body "type" in
  let ipRange := field body "ipRange" in
  let fileContent := field body "fileContent" in
  extracted ←
    (if bool_decide (type = VStr "manual") && truthy hosts then
       text ← string_method "hosts" "split" hosts;
       mret (splitHosts is_separator text)
     else if bool_decide (type = VStr "range") && truthy ipRange then
       text ← string_method "ipRange" "split" ipRange;
       mret (match trim <$> split_on (λ c, bool_decide (c = "-"%char)) text with
             | start :: end_ :: _ =>
                 if negb (String.eqb start "") && negb (String.eqb end_ "")
                 then [start; end_] else []
             | _ => []
             end)
     else if bool_decide (type = VStr "file") && truthy fileContent then
       text ← string_method "fileContent" "split" fileContent;
       mret (splitHosts is_separator text)
     else mret []);
  match extracted with
  | [] =>
      if truthy hosts then
        text ← string_method "hosts" "trim" hosts;
        mret (if String.eqb (trim text) "" then [] else [trim text])
      else mret []
  | _ => mret extracted
  end.

(** The ports the handler reads from the body: the default, the ports of
    a text, or those of an array, whose numbers [parseInt] reads through
    their decimal writing (numbers below [10^21], which are written with
    all their digits). *)
Definition portsToScan (ports : jsval) : list Z :=
  if truthy ports then
    match ports with
    | VStr s => parsePorts s
    | VNums l => omap (λ n, port_of (parseInt (to_string (VNum n)))) l
    | VStrs l => omap (λ p, port_of (parseInt p)) l
    | _ => [443]
    end
  else [443].

(** The whole handler. *)
Definition post_api_scan (body : obj) : M response :=
  try_catch
    (hosts ← hostsToScan body;
     api_scan hosts (portsToScan (field body "ports")))
    (λ message,
       mret (JsonFailure 500 (if String.eqb message "" then "Internal server error"
                              else message))).

(** *** [POST /scanner]: [routes/scanner.js] *)

(** The handler of the form; the title of the page, a constant of each
    view, is left out of what it renders. *)
Definition scanner_post (body : obj) : M scanner_page :=
  try_catch
    (hostsInput ← string_method "hostsInput" "split" (field body "hosts" ||| VStr "");
     portsInput ← string_method "portsInput" "split" (field body "ports" ||| VStr "443");
     match splitHosts is_line_separator hostsInput, parsePorts portsInput with
     | [], _ => mret (ScannerForm "Please provide at least one valid host" body)
     | _, [] => mret (ScannerForm "Please provide at least one valid port" body)
     | hosts, ports =>
         results ← scanHosts hosts ports 5000;
         for_of results saveCertificate;;
         mret (ScannerResults results
                 (list_to_map
                    [ ("hosts", VNum (Z.of_nat (length hosts)));
                      ("ports", VNum (Z.of_nat (length ports)));
                      ("total", VNum (Z.of_nat (length results)));
                      ("valid", count_status "valid" results);
                      ("warning", count_status "warning" results);
                      ("expired", count_status "expired" results);
                      ("error", count_status "error" results) ]))
     end)
    (λ message, mret (ScannerForm ("Error performing scan: " +:+ message) body)).

(** *** [DELETE /scheduler/:id]: [routes/scheduler.js] *)

(** The handler, from the point where the identifier has been parsed:
    [scanId] is a number or NaN. *)
Definition delete_scheduled_scan (scanId : jsval) : M scheduler_page :=
  try_catch
    ((if truthy scanId
      then scheduleJob (list_to_map [("id", scanId); ("active", VBool false)])
      else mret tt);;
     deleteScheduledScan scanId;;
     mret (Redirect "/scheduler"))
    (λ message, mret (ErrorPage 500 "Error deleting scheduled scan" message)).

(** ** Vocabulary of the properties *)

Definition pair_of (attr : attribute) : string :=
  to_string (attr_shortName attr ||| attr_name attr) +:+ "=" +:+ to_string (attr_value attr).



(** The record [scanHost] pushes for one port: the certificate record when
    [getCertificate] resolves, an [error] record with the reason when it
    rejects. *)
Definition attempt (host : string) (port timeout : Z) (st : State) : obj :=
  match (getCertificate host port timeout st).1 with
  | Returned certificate => certificate
  | Thrown message =>
      error_record host (VNum port) message (toISOString (clock (S (tick st))))
  end.

(** The records of the ports of one host, then of all hosts, each pair
    being probed one connection after the pair before it. *)
Fixpoint attempts (host : string) (timeout : Z) (ports : list Z) (st : State) : list obj :=
  match ports with
  | [] => []
  | port :: rest =>
      attempt host port timeout st :: attempts host timeout rest (set_tick (S (tick st)) st)
  end.

Fixpoint all_attempts (timeout : Z) (hosts : list string) (ports : list Z) (st : State)
    : list obj :=
  match hosts with
  | [] => []
  | host :: rest =>
      attempts host timeout ports st
      ++ all_attempts timeout rest ports (set_tick (tick st + length ports) st)
  end.

(** [keeps π m]: running [m] does not change the component [π] of the
    state, whether it returns or throws. *)
Definition keeps {A X} (π : State → X) (m : M A) : Prop := ∀ st, π (m st).2 = π st.

(** A component other than the connection counter. *)
Definition tick_free {X} (π : State → X) : Prop := ∀ n st, π (set_tick n st) = π st.

(** A component other than the table of certificates. *)
Definition store_free {X} (π : State → X) : Prop := ∀ c st, π (set_certificates c st) = π st.

(** A component other than the table of scan definitions. *)
Definition scans_free {X} (π : State → X) : Prop :=
  ∀ s st, π (set_scheduled_scans s st) = π st.

Definition returns {A} (o : outcome A) : bool :=
  match o with
  | Returned _ => true
  | Thrown _ => false
  end.

(** The table after the results that are not errors have been saved in
    their order. *)
Definition stored (results : list obj) (table : gmap (sqlval * sqlval) cert_row)
    : gmap (sqlval * sqlval) cert_row :=
  foldl (λ table r, <[target_of r := cert_row_of r]> table) table
    (filter (λ r, field r "status" ≠ VStr "error") results).

Definition has_target (r : obj) : Prop :=
  ∃ host port, field r "host" = VStr host ∧ field r "port" = VNum port.

(** [hoare P m Q R]: from a state that satisfies [P], [m] either returns a
    value and a state that satisfy [Q], or throws in a state that
    satisfies [R]. *)
Definition hoare {A} (P : State → Prop) (m : M A) (Q : A → State → Prop)
    (R : State → Prop) : Prop :=
  ∀ st, P st →
    match m st with
    | (Returned a, st') => Q a st'
    | (Thrown _, st') => R st'
    end.

(** The identifier of the scan a job runs. *)
Definition job_id (jb : job) : jsval := field (j_scan jb) "id".

(** The live timers of a scan: the jobs for its identifier that have not
    been cancelled.  The entries of the [Map] under the identifier. *)
Definition live_timers (id : jsval) (st : State) : list job :=
  filter (λ jb, j_live jb = true ∧ job_id jb = id) (jobs st).

Definition entries (id : jsval) (st : State) : list (jsval * option nat) :=
  filter (λ e, e.1 = id) (activeJobs st).

(** The keys of the [Map] are distinct, and every live job is the one the
    [Map] holds under the identifier of its scan. *)
Definition scheduler_inv (st : State) : Prop :=
  NoDup (activeJobs st).*1
  ∧ ∀ j jb, jobs st !! j = Some jb → j_live jb = true →
      map_get (job_id jb) (activeJobs st) = Some (Some j).

(** The same, when no live job is left for [id]. *)
Definition inv_except (id : jsval) (st : State) : Prop :=
  NoDup (activeJobs st).*1
  ∧ ∀ j jb, jobs st !! j = Some jb → j_live jb = true →
      job_id jb ≠ id ∧ map_get (job_id jb) (activeJobs st) = Some (Some j).

(** The [Map] holds a live job of [id] under [id]. *)
Definition armed (id : jsval) (st : State) : Prop :=
  ∃ j jb, map_get id (activeJobs st) = Some (Some j)
          ∧ jobs st !! j = Some jb ∧ j_live jb = true ∧ job_id jb = id.

(** What [scheduleJob(scan)] establishes. *)
Definition scheduled (scan : obj) (st : State) : Prop :=
  scheduler_inv st
  ∧ (truthy (field scan "active") = true →
     ∀ r, rule_of (field scan "frequency") = VStr r → validRule r = true →
          armed (field scan "id") st).

(** The calls that change the state: the functions the scheduler exports,
    the firing of a timer, the scan handler of the API, and the writes of
    the other routes to the two tables. *)
Inductive step : State → State → Prop :=
  | step_scheduleJob scan st : step st (scheduleJob scan st).2
  | step_cancelAllJobs st : step st (cancelAllJobs st).2
  | step_initializeScheduler st : step st (initializeScheduler st).2
  | step_fire j st : step st (fire j st).2
  | step_runScanNow scanId st : step st (runScanNow scanId st).2
  | step_api_scan hosts ports st : step st (api_scan hosts ports st).2
  | step_store c s st : step st (set_scheduled_scans s (set_certificates c st)).

(** The states of a process that starts without a job. *)
Inductive reachable : State → Prop :=
  | reachable_start st : jobs st = [] → activeJobs st = [] → reachable st
  | reachable_step st st' : reachable st → step st st' → reachable st'.

(** Whether a string holds the character [=]. *)
Fixpoint has_equals (s : string) : bool :=
  match s with
  | "" => false
  | String c rest => bool_decide (c = "="%char) || has_equals rest
  end.

(** The state once [scheduleJob] has cancelled the job the [Map] holds
    under [id] and removed the entry. *)
Definition unscheduled (id : jsval) (st : State) : State :=
  match map_get id (activeJobs st) with
  | Some (Some j) =>
      set_activeJobs (map_delete id (activeJobs st))
        (set_jobs (alter cancelled j (jobs st)) st)
  | _ => st
  end.

(** The state [scheduleJob(scan)] then makes of a state without an entry
    for the scan. *)
Definition rearmed (scan : obj) (st : State) : State :=
  let id := field scan "id" in
  let unparsed := set_activeJobs (map_set id None (activeJobs st)) st in
  if truthy (field scan "active") then
    match rule_of (field scan "frequency") with
    | VStr r =>
        if validRule r then
          let st' :=
            set_activeJobs (map_set id (Some (length (jobs st))) (activeJobs st))
              (set_jobs (jobs st ++ [{| j_scan := scan; j_rule := r; j_live := true |}]) st) in
          match nextInvocation r (clock (tick st)) with
          | Some t =>
              (updateScheduledScanTimes id (field scan "lastRun" ||| VNull)
                 (VStr (toISOString t)) st').2
          | None => st'
          end
        else unparsed
    | _ => unparsed
    end
  else st.

(** Every job the [Map] holds was created for the identifier it is held
    under. *)
Definition entries_own (st : State) : Prop :=
  ∀ k j, map_get k (activeJobs st) = Some (Some j) →
    ∃ jb, jobs st !! j = Some jb ∧ job_id jb = k.

(** What the loop of [initializeScheduler] has established once it has
    gone through the rows [rows]: the [Map] has keys of these rows only,
    every active row among them whose rule is accepted is armed, and every
    live job runs an active row among them. *)
Definition armed_from (rows : list (Z * scan_row)) (st : State) : Prop :=
  (∀ k, k ∈ (activeJobs st).*1 → ∃ id row, (id, row) ∈ rows ∧ k = VNum id)
  ∧ (∀ id row r, (id, row) ∈ rows → truthy (column (r_active row)) = true →
       rule_of (column (r_frequency row)) = VStr r → validRule r = true →
       armed (VNum id) st)
  ∧ (∀ j jb, jobs st !! j = Some jb → j_live jb = true →
       ∃ id row, (id, row) ∈ rows ∧ job_id jb = VNum id
                 ∧ truthy (column (r_active row)) = true).

(** An entry of the history with its five counters. *)
Definition bucket_counts (entry : obj) (total valid warning expired error : Z) : Prop :=
  field entry "id" = VNum 1
  ∧ field entry "date" = VStr "Unknown"
  ∧ field entry "totalHosts" = VNum total
  ∧ field entry "validCerts" = VNum valid
  ∧ field entry "warningCerts" = VNum warning
  ∧ field entry "expiredCerts" = VNum expired
  ∧ field entry "errorCerts" = VNum error.

(** How many of the rows have the status [s], and how many have none of
    the three statuses of a certificate. *)
Definition with_status (s : string) (certs : list obj) : Z :=
  Z.of_nat (length (filter (λ cert, field cert "status" = VStr s) certs)).

Definition with_other_status (certs : list obj) : Z :=
  Z.of_nat (length (filter (λ cert, field cert "status" ≠ VStr "valid"
                                    ∧ field cert "status" ≠ VStr "warning"
                                    ∧ field cert "status" ≠ VStr "expired") certs)).

(** ** Properties *)

(** *** Distinguished names *)

Lemma formatDN_attrs attrs :
  formatDN (Some {| attributes := Some attrs |}) = join ", " (pair_of <$> attrs).
Proof. reflexivity. Qed.

Lemma js_or_truthy a b : truthy a = true → a ||| b = a.
Proof. unfold js_or. by intros ->. Qed.

Lemma js_or_falsy a b : truthy a = false → a ||| b = b.
Proof. unfold js_or. by intros ->. Qed.

Lemma pair_of_shortName attr sn :
  attr_shortName attr = VStr sn → sn ≠ "" →
  pair_of attr = sn +:+ "=" +:+ to_string (attr_value attr).
Proof.
  intros Hsn Hne. unfold pair_of. rewrite Hsn, js_or_truthy; [done|].
  simpl. destruct sn; [done|reflexivity].
Qed.

Lemma dn_string_formatDN dn :
  dn_string dn = VStr (if String.eqb (formatDN dn) "" then "Unknown" else formatDN dn).
Proof.
  destruct dn as [d|]; [|reflexivity].
  unfold dn_string, js_or. cbn [truthy].
  by destruct (String.eqb (formatDN (Some d)) "").
Qed.

(** C7, amended.  [formatDN] joins the attributes in their order as
    [key=value] pairs separated by a comma and a space, the key being the
    short name of the attribute, or its long name when it has no short
    name.  It returns ['Unknown'] for a name without an attribute array;
    for an empty attribute array it returns the empty string, which
    [parseCertificate] replaces by ['Unknown'] in the subject and issuer
    of its record. *)
Theorem formatDN_joins_pairs :
  (∀ attrs, formatDN (Some {| attributes := Some attrs |}) = join ", " (pair_of <$> attrs))
  ∧ (∀ attr sn, attr_shortName attr = VStr sn → sn ≠ "" →
       pair_of attr = sn +:+ "=" +:+ to_string (attr_value attr))
  ∧ formatDN None = "Unknown"
  ∧ formatDN (Some {| attributes := None |}) = "Unknown"
  ∧ formatDN (Some {| attributes := Some [] |}) = ""
  ∧ dn_string (Some {| attributes := Some [] |}) = VStr "Unknown".
Proof.
  split_and!; [apply formatDN_attrs | apply pair_of_shortName | reflexivity ..].
Qed.

(** *** Classification and self-signed detection in [parseCertificate] *)

Lemma parseCertificate_status now cert :
  field (parseCertificate now cert) "status"
  = VStr (classify (field (parseCertificate now cert) "daysRemaining")).
Proof. reflexivity. Qed.

Lemma parseCertificate_daysRemaining now cert :
  field (parseCertificate now cert) "daysRemaining"
  = VNum ((notAfter cert - now) / 86400000).
Proof. reflexivity. Qed.

Lemma classify_rule (d : Z) :
  (classify (VNum d) = "expired" ↔ d < 0)
  ∧ (classify (VNum d) = "warning" ↔ 0 ≤ d < 30)
  ∧ (classify (VNum d) = "valid" ↔ 30 ≤ d).
Proof.
  unfold classify, js_lt.
  destruct (Z.ltb_spec d 0), (Z.ltb_spec d 30); split_and!; split;
    intros; try done; lia.
Qed.

Lemma has_equals_app a b : has_equals (a +:+ b) = has_equals a || has_equals b.
Proof.
  induction a as [|c a IH]; [reflexivity|].
  change (String c a +:+ b) with (String c (a +:+ b)).
  cbn [has_equals]. rewrite IH. by rewrite orb_assoc.
Qed.

Lemma pair_of_has_equals attr : has_equals (pair_of attr) = true.
Proof.
  unfold pair_of. rewrite !has_equals_app. cbn. by rewrite orb_true_r.
Qed.

Lemma join_has_equals sep x l :
  has_equals x = true → has_equals (join sep (x :: l)) = true.
Proof.
  intros Hx. destruct l; cbn [join]; [done|].
  by rewrite has_equals_app, Hx.
Qed.

Lemma formatDN_attrs_has_equals attr attrs :
  has_equals (formatDN (Some {| attributes := Some (attr :: attrs) |})) = true.
Proof.
  rewrite formatDN_attrs, fmap_cons. apply join_has_equals, pair_of_has_equals.
Qed.

(** The pairs of a name that has attributes never spell ['Unknown'], and
    are not empty. *)
Lemma formatDN_attrs_not_Unknown attr attrs :
  formatDN (Some {| attributes := Some (attr :: attrs) |}) ≠ "Unknown".
Proof.
  intros Heq. pose proof (formatDN_attrs_has_equals attr attrs) as Hhas.
  rewrite Heq in Hhas. discriminate Hhas.
Qed.

Lemma formatDN_attrs_not_empty attr attrs :
  formatDN (Some {| attributes := Some (attr :: attrs) |}) ≠ "".
Proof.
  intros Heq. pose proof (formatDN_attrs_has_equals attr attrs) as Hhas.
  rewrite Heq in Hhas. discriminate Hhas.
Qed.

Lemma dn_string_attrs attrs :
  dn_string (Some {| attributes := Some attrs |})
  = match attrs with
    | [] => VStr "Unknown"
    | _ => VStr (formatDN (Some {| attributes := Some attrs |}))
    end.
Proof.
  rewrite dn_string_formatDN. destruct attrs as [|attr attrs]; [reflexivity|].
  pose proof (formatDN_attrs_not_empty attr attrs) as Hne.
  destruct (formatDN (Some {| attributes := Some (attr :: attrs) |})); [done|reflexivity].
Qed.

(** For two names with attribute arrays, the strings of the record are
    equal exactly when [formatDN] renders the names alike. *)
Lemma dn_string_eq_formatDN a1 a2 :
  dn_string (Some {| attributes := Some a1 |}) = dn_string (Some {| attributes := Some a2 |})
  ↔ formatDN (Some {| attributes := Some a1 |}) = formatDN (Some {| attributes := Some a2 |}).
Proof.
  rewrite !dn_string_attrs.
  destruct a1 as [|x1 a1], a2 as [|x2 a2].
  - done.
  - split.
    + intros [= H]. symmetry in H. by destruct (formatDN_attrs_not_Unknown x2 a2).
    + intros H. symmetry in H. by destruct (formatDN_attrs_not_empty x2 a2).
  - split.
    + intros [= H]. by destruct (formatDN_attrs_not_Unknown x1 a1).
    + intros H. by destruct (formatDN_attrs_not_empty x1 a1).
  - split; intros H; congruence.
Qed.

(** C8.  In the record of [parseCertificate], [subject] and [issuer] are
    the strings the same formatting gives for the two names of the
    certificate, and [selfSigned] is true exactly when they are equal, so
    that it is false when they differ.  For a certificate whose two names
    carry attribute arrays, as those of a decoded certificate do, this is
    exactly when [formatDN] renders the two names alike.  The merged record
    of a scan carries the same [selfSigned]. *)
Theorem selfSigned_iff_issuer_is_subject now cert :
  let record := parseCertificate now cert in
  field record "subject" = dn_string (fc_subject cert)
  ∧ field record "issuer" = dn_string (fc_issuer cert)
  ∧ (field record "selfSigned" = VBool true
     ↔ field record "issuer" = field record "subject")
  ∧ (field record "issuer" ≠ field record "subject"
     → field record "selfSigned" = VBool false)
  ∧ (∀ subject_attrs issuer_attrs,
       fc_subject cert = Some {| attributes := Some subject_attrs |} →
       fc_issuer cert = Some {| attributes := Some issuer_attrs |} →
       (field record "selfSigned" = VBool true
        ↔ formatDN (fc_issuer cert) = formatDN (fc_subject cert)))
  ∧ (∀ host port peer,
       field (combinedData host port (rawCertData now host port peer) record) "selfSigned"
       = field record "selfSigned").
Proof.
  assert (Hs : field (parseCertificate now cert) "selfSigned"
               = VBool (bool_decide (dn_string (fc_issuer cert) = dn_string (fc_subject cert))))
    by reflexivity.
  assert (Hsub : field (parseCertificate now cert) "subject" = dn_string (fc_subject cert))
    by reflexivity.
  assert (Hiss : field (parseCertificate now cert) "issuer" = dn_string (fc_issuer cert))
    by reflexivity.
  assert (Hiff : field (parseCertificate now cert) "selfSigned" = VBool true
                 ↔ dn_string (fc_issuer cert) = dn_string (fc_subject cert)).
  { rewrite Hs. split.
    - intros [= H]. by apply bool_decide_eq_true in H.
    - intros H. by rewrite bool_decide_eq_true_2. }
  cbv zeta. rewrite Hsub, Hiss. split_and!; try done.
  - intros H. rewrite Hs. by rewrite bool_decide_eq_false_2.
  - intros subject_attrs issuer_attrs Hsa Hia. rewrite Hiff, Hsa, Hia.
    apply dn_string_eq_formatDN.
Qed.

(** Two names that [formatDN] renders alike are self-signed. *)
Lemma selfSigned_of_formatDN now cert :
  formatDN (fc_issuer cert) = formatDN (fc_subject cert) →
  field (parseCertificate now cert) "selfSigned" = VBool true.
Proof.
  intros H.
  change (VBool (bool_decide (dn_string (fc_issuer cert) = dn_string (fc_subject cert)))
          = VBool true).
  rewrite bool_decide_eq_true_2; [done|]. by rewrite !dn_string_formatDN, H.
Qed.

(** *** The record of a successful scan *)

Lemma rawCertData_status now host port cert :
  field (rawCertData now host port cert) "status" = VStr "valid".
Proof. reflexivity. Qed.

Lemma combinedData_status now host port cert forgeCert :
  field (combinedData host port (rawCertData now host port cert)
           (parseCertificate now forgeCert)) "status" = VStr "valid".
Proof. reflexivity. Qed.

Lemma certificate_record_status now host port cert :
  field (certificate_record now host port cert) "status" = VStr "valid".
Proof.
  unfold certificate_record.
  destruct (raw cert) as [der|]; [|apply rawCertData_status].
  destruct (certificateFromDer der); [apply combinedData_status|apply rawCertData_status].
Qed.

Lemma certificate_record_daysRemaining now host port cert :
  field (certificate_record now host port cert) "daysRemaining"
  = calculateDaysRemaining now (valid_to cert ||| pc_validTo cert).
Proof.
  unfold certificate_record.
  destruct (raw cert) as [der|]; [|reflexivity].
  destruct (certificateFromDer der); reflexivity.
Qed.

Lemma certificate_record_target now host port cert :
  field (certificate_record now host port cert) "host" = VStr host
  ∧ field (certificate_record now host port cert) "port" = VNum port.
Proof.
  unfold certificate_record.
  destruct (raw cert) as [der|]; [|split; reflexivity].
  destruct (certificateFromDer der); split; reflexivity.
Qed.

(** The record of a handshake has no property [error], with or without
    the fields of the decoder. *)
Lemma certificate_record_no_error now host port cert :
  field (certificate_record now host port cert) "error" = VUndef.
Proof.
  unfold certificate_record.
  destruct (raw cert) as [der|]; [|reflexivity].
  destruct (certificateFromDer der); reflexivity.
Qed.

(** What [getCertificate] does to the state: one more connection. *)
Lemma getCertificate_state host port timeout st :
  (getCertificate host port timeout st).2 = set_tick (S (tick st)) st.
Proof.
  unfold getCertificate, mbind, M_bind, tls_connect, throw, Date_now, mret, M_ret.
  destruct (network (tick st) host port) as [| | | |[cert|]]; try reflexivity.
  destruct (no_keys cert); reflexivity.
Qed.

(** Every record [getCertificate] resolves with is the record of a
    certificate the peer presented, read when the connection is made. *)
Lemma getCertificate_resolved host port timeout st certificate st' :
  getCertificate host port timeout st = (Returned certificate, st') →
  ∃ cert, network (tick st) host port = Secured (Some cert)
          ∧ certificate = certificate_record (clock (S (tick st))) host port cert.
Proof.
  unfold getCertificate, mbind, M_bind, tls_connect, throw, Date_now, mret, M_ret.
  destruct (network (tick st) host port) as [| | | |[cert|]]; try discriminate.
  destruct (no_keys cert); [discriminate|].
  intros [= <- <-]. by exists cert.
Qed.

(** Whatever the validity dates of the certificate, the record of a
    successful scan has the status ['valid']. *)
Lemma getCertificate_status host port timeout st certificate st' :
  getCertificate host port timeout st = (Returned certificate, st') →
  field certificate "status" = VStr "valid".
Proof.
  intros (cert & _ & ->)%getCertificate_resolved. apply certificate_record_status.
Qed.

(** C2, amended.  In the merged record, [host] and [port] are those of the
    scan; [commonName], [organization], [issuer], [validFrom] and [validTo]
    are the value of the raw handshake data when it is truthy and the
    value of the decoder otherwise; [status], [lastScanned],
    [daysRemaining], [fingerprint] and [serialNumber] are the values of the
    raw data; [subject], [signatureAlgorithm], [selfSigned] and [keyUsage],
    which the raw data does not have, are the values of the decoder. *)
Theorem combinedData_prefers_raw now host port cert forgeCert :
  let raw := rawCertData now host port cert in
  let parsed := parseCertificate now forgeCert in
  let merged := combinedData host port raw parsed in
  field merged "host" = VStr host
  ∧ field merged "port" = VNum port
  ∧ Forall (λ k, field merged k = field raw k ||| field parsed k)
      ["commonName"; "organization"; "issuer"; "validFrom"; "validTo"]
  ∧ Forall (λ k, field merged k = field raw k)
      ["status"; "lastScanned"; "daysRemaining"; "fingerprint"; "serialNumber"]
  ∧ Forall (λ k, field merged k = field parsed k)
      ["subject"; "signatureAlgorithm"; "selfSigned"; "keyUsage"].
Proof.
  cbv zeta. split_and!; try reflexivity; repeat (constructor; [reflexivity|]); constructor.
Qed.

(** *** The fingerprint *)






(** *** The batch scan *)

Lemma set_tick_tick st : set_tick (tick st) st = st.
Proof. by destruct st. Qed.

Lemma set_tick_set_tick n m st : set_tick n (set_tick m st) = set_tick n st.
Proof. reflexivity. Qed.

Lemma tick_set_tick n st : tick (set_tick n st) = n.
Proof. reflexivity. Qed.

Lemma scanPort_eq host timeout results port st :
  scanPort host timeout results port st
  = (Returned (results ++ [attempt host port timeout st]), set_tick (S (tick st)) st).
Proof.
  unfold scanPort, attempt, try_catch, mbind, M_bind.
  pose proof (getCertificate_state host port timeout st) as Hst.
  destruct (getCertificate host port timeout st) as [[certificate|message] st1];
    simpl in Hst; subst st1; reflexivity.
Qed.

Lemma scanPorts_eq host timeout ports : ∀ results st,
  scanPorts host timeout results ports st
  = (Returned (results ++ attempts host timeout ports st),
     set_tick (tick st + length ports) st).
Proof.
  induction ports as [|port rest IH]; intros results st.
  - cbn. by rewrite app_nil_r, Nat.add_0_r, set_tick_tick.
  - cbn [scanPorts attempts length]. unfold mbind, M_bind.
    rewrite scanPort_eq, IH, set_tick_set_tick, tick_set_tick, <- app_assoc.
    f_equal. f_equal. lia.
Qed.

Lemma scanOne_eq ports timeout results host st :
  scanOne ports timeout results host st
  = (Returned (results ++ attempts host timeout ports st),
     set_tick (tick st + length ports) st).
Proof.
  unfold scanOne, scanHost, try_catch, mbind, M_bind.
  by rewrite scanPorts_eq.
Qed.

Lemma scanAll_eq ports timeout hosts : ∀ results st,
  scanAll ports timeout results hosts st
  = (Returned (results ++ all_attempts timeout hosts ports st),
     set_tick (tick st + length hosts * length ports) st).
Proof.
  induction hosts as [|host rest IH]; intros results st.
  - cbn. by rewrite app_nil_r, Nat.add_0_r, set_tick_tick.
  - cbn [scanAll all_attempts length]. unfold mbind, M_bind.
    rewrite scanOne_eq, IH, set_tick_set_tick, tick_set_tick, <- app_assoc.
    f_equal. f_equal. lia.
Qed.

Lemma scanHosts_eq hosts ports timeout st :
  scanHosts hosts ports timeout st
  = (Returned (all_attempts timeout hosts ports st),
     set_tick (tick st + length hosts * length ports) st).
Proof. unfold scanHosts. by rewrite scanAll_eq. Qed.

Lemma length_attempts host timeout ports : ∀ st,
  length (attempts host timeout ports st) = length ports.
Proof. induction ports as [|p rest IH]; intros st; cbn; [done|by rewrite IH]. Qed.

Lemma length_all_attempts timeout hosts ports : ∀ st,
  length (all_attempts timeout hosts ports st) = (length hosts * length ports)%nat.
Proof.
  induction hosts as [|h rest IH]; intros st; cbn [all_attempts length]; [done|].
  rewrite length_app, length_attempts, IH. lia.
Qed.

Lemma attempts_lookup host timeout ports : ∀ st j port,
  ports !! j = Some port →
  attempts host timeout ports st !! j
  = Some (attempt host port timeout (set_tick (tick st + j) st)).
Proof.
  induction ports as [|p rest IH]; intros st j port Hj; [done|].
  destruct j as [|j]; cbn in Hj |- *.
  - injection Hj as ->. by rewrite Nat.add_0_r, set_tick_tick.
  - rewrite (IH _ _ _ Hj), set_tick_set_tick, tick_set_tick.
    do 3 f_equal. lia.
Qed.

Lemma all_attempts_lookup timeout hosts ports : ∀ st i j host port,
  hosts !! i = Some host → ports !! j = Some port →
  all_attempts timeout hosts ports st !! (i * length ports + j)%nat
  = Some (attempt host port timeout (set_tick (tick st + (i * length ports + j)) st)).
Proof.
  induction hosts as [|h rest IH]; intros st i j host port Hi Hj; [done|].
  pose proof (lookup_lt_Some _ _ _ Hj) as Hlt.
  destruct i as [|i]; cbn in Hi; cbn [all_attempts].
  - injection Hi as ->. rewrite lookup_app_l by (rewrite length_attempts; lia).
    cbn [Nat.mul Nat.add]. by apply attempts_lookup.
  - rewrite lookup_app_r by (rewrite length_attempts; lia).
    rewrite length_attempts.
    replace (S i * length ports + j - length ports)%nat with (i * length ports + j)%nat by lia.
    rewrite (IH _ _ _ _ _ Hi Hj), set_tick_set_tick, tick_set_tick.
    do 3 f_equal. lia.
Qed.

(** The record of one pair names the pair; when the probe succeeds it is
    the certificate record, which has one of the three statuses of a
    certificate and no [error]; when the probe fails it is an [error]
    record that carries the reason. *)
Lemma attempt_spec host port timeout st :
  field (attempt host port timeout st) "host" = VStr host
  ∧ field (attempt host port timeout st) "port" = VNum port
  ∧ match (getCertificate host port timeout st).1 with
    | Returned certificate =>
        attempt host port timeout st = certificate
        ∧ field (attempt host port timeout st) "status"
          ∈ [VStr "valid"; VStr "warning"; VStr "expired"]
        ∧ field (attempt host port timeout st) "error" = VUndef
    | Thrown message =>
        field (attempt host port timeout st) "status" = VStr "error"
        ∧ field (attempt host port timeout st) "error" = VStr message
    end.
Proof.
  unfold attempt.
  destruct (getCertificate host port timeout st) as [[certificate|message] st1] eqn:Hget;
    cbn [fst].
  - destruct (getCertificate_resolved _ _ _ _ _ _ Hget) as (cert & _ & ->).
    destruct (certificate_record_target (clock (S (tick st))) host port cert).
    split_and!; try done.
    + rewrite certificate_record_status. apply elem_of_cons. by left.
    + apply certificate_record_no_error.
  - split_and!; reflexivity.
Qed.

(** A certificate that node-forge cannot decode is not a failure of the
    pair: its record is the raw handshake data. *)
Lemma attempt_undecodable host port timeout st cert der :
  network (tick st) host port = Secured (Some cert) → no_keys cert = false →
  raw cert = Some der → certificateFromDer der = None →
  attempt host port timeout st = rawCertData (clock (S (tick st))) host port cert.
Proof.
  intros Hnet Hkeys Hraw Hder.
  unfold attempt, getCertificate, mbind, M_bind, tls_connect, Date_now, mret, M_ret.
  rewrite Hnet, Hkeys. cbn. unfold certificate_record. by rewrite Hraw, Hder.
Qed.

(** C3, amended.  [scanHosts] returns, never throws, and its result holds
    one record for every pair of a host and a port, the hosts in the outer
    loop and the ports in the inner one: the record at place
    [i * |ports| + j] is that of host [i] and port [j], probed as
    connection number [i * |ports| + j] of the batch.  It names its host
    and port; when the probe fails it has status ['error'] and the reason
    of the failure, and the records of the other pairs are there all the
    same.  When the probe succeeds the record is not an [error] record: it
    has one of the three statuses of a certificate and no [error], also
    when node-forge cannot decode the certificate, the record being then
    built from the raw handshake data alone. *)
Theorem scanHosts_one_record_per_pair hosts ports timeout st :
  ∃ results,
    scanHosts hosts ports timeout st
    = (Returned results, set_tick (tick st + length hosts * length ports) st)
    ∧ length results = (length hosts * length ports)%nat
    ∧ ∀ i j host port,
        hosts !! i = Some host → ports !! j = Some port →
        let k := (i * length ports + j)%nat in
        ∃ record,
          results !! k = Some record
          ∧ field record "host" = VStr host
          ∧ field record "port" = VNum port
          ∧ match (getCertificate host port timeout (set_tick (tick st + k) st)).1 with
            | Returned certificate =>
                record = certificate
                ∧ field record "status" ∈ [VStr "valid"; VStr "warning"; VStr "expired"]
                ∧ field record "status" ≠ VStr "error"
                ∧ field record "error" = VUndef
            | Thrown message =>
                field record "status" = VStr "error"
                ∧ field record "error" = VStr message
            end
          ∧ (∀ cert der,
               network (tick st + k) host port = Secured (Some cert) →
               no_keys cert = false → raw cert = Some der →
               certificateFromDer der = None →
               record = rawCertData (clock (S (tick st + k))) host port cert
               ∧ field record "status" ≠ VStr "error"
               ∧ field record "error" = VUndef).
Proof.
  exists (all_attempts timeout hosts ports st). split_and!.
  - apply scanHosts_eq.
  - apply length_all_attempts.
  - intros i j host port Hi Hj k.
    exists (attempt host port timeout (set_tick (tick st + k) st)).
    split; [by apply all_attempts_lookup|].
    destruct (attempt_spec host port timeout (set_tick (tick st + k) st)) as (Hh & Hp & Hm).
    split_and!; try done.
    + destruct (getCertificate host port timeout (set_tick (tick st + k) st)).1
        as [certificate|message]; [|done].
      destruct Hm as (Hrec & Hstatus & Herror). split_and!; try done.
      intros Heq. rewrite Heq in Hstatus.
      repeat (apply elem_of_cons in Hstatus as [[=]|Hstatus]).
      by apply elem_of_nil in Hstatus.
    + intros cert der Hnet Hkeys Hraw Hder.
      rewrite (attempt_undecodable host port timeout _ cert der) by done.
      by split_and!.
Qed.

(** *** What a computation leaves alone *)

Lemma keeps_ret {A X} (π : State → X) (a : A) : keeps π (mret a).
Proof. by intros st. Qed.

Lemma keeps_throw {A X} (π : State → X) msg : keeps π (throw (A:=A) msg).
Proof. by intros st. Qed.

Lemma keeps_bind {A B X} (π : State → X) (m : M A) (f : A → M B) :
  keeps π m → (∀ a, keeps π (f a)) → keeps π (m ≫= f).
Proof.
  intros Hm Hf st. unfold mbind, M_bind. specialize (Hm st).
  destruct (m st) as [[a|msg] st1]; cbn in *; [|done].
  by rewrite Hf.
Qed.

Lemma keeps_try_catch {A X} (π : State → X) (m : M A) handler :
  keeps π m → (∀ msg, keeps π (handler msg)) → keeps π (try_catch m handler).
Proof.
  intros Hm Hh st. unfold try_catch. specialize (Hm st).
  destruct (m st) as [[a|msg] st1]; cbn in *; [done|].
  by rewrite Hh.
Qed.

Lemma keeps_for_of {A X} (π : State → X) (xs : list A) body :
  (∀ x, keeps π (body x)) → keeps π (for_of xs body).
Proof.
  intros Hb. induction xs as [|x rest IH]; [apply keeps_ret|].
  cbn [for_of]. apply keeps_bind; [apply Hb|done].
Qed.

Lemma keeps_Date_now {X} (π : State → X) : keeps π Date_now.
Proof. by intros st. Qed.

Lemma keeps_get_state {X} (π : State → X) : keeps π get_state.
Proof. by intros st. Qed.

Lemma keeps_scanHosts {X} (π : State → X) hosts ports timeout :
  tick_free π → keeps π (scanHosts hosts ports timeout).
Proof. intros Hπ st. rewrite scanHosts_eq. apply Hπ. Qed.

Lemma saveCertificate_eq certData st :
  saveCertificate certData st
  = match target_of certData with
    | (SNull, _) =>
        (Thrown "SQLITE_CONSTRAINT: NOT NULL constraint failed: certificates.host", st)
    | (_, SNull) =>
        (Thrown "SQLITE_CONSTRAINT: NOT NULL constraint failed: certificates.port", st)
    | _ =>
        (Returned tt,
         set_certificates (<[target_of certData := cert_row_of certData]> (certificates st)) st)
    end.
Proof. reflexivity. Qed.

Lemma keeps_saveCertificate {X} (π : State → X) certData :
  store_free π → keeps π (saveCertificate certData).
Proof.
  intros Hπ st. rewrite saveCertificate_eq.
  destruct (target_of certData) as [[] []]; cbn [snd]; try done; apply Hπ.
Qed.

Lemma keeps_updateScheduledScanTimes {X} (π : State → X) id lastRun nextRun :
  scans_free π → keeps π (updateScheduledScanTimes id lastRun nextRun).
Proof.
  intros Hπ st. unfold updateScheduledScanTimes.
  destruct (bind_param id); try done.
  destruct (scheduled_scans st !! n); [apply Hπ|done].
Qed.

Lemma keeps_hosts_of {X} (π : State → X) v : keeps π (hosts_of v).
Proof. intros st. by destruct v as [| | | | | |[]|[]]. Qed.

Lemma keeps_ports_of {X} (π : State → X) v : keeps π (ports_of v).
Proof. intros st. by destruct v as [| | | | | |[]|[]]. Qed.

(** *** Running a scheduled scan now *)

Lemma bind_returned {A B} (m : M A) (f : A → M B) st b st' :
  (m ≫= f) st = (Returned b, st') →
  ∃ a st1, m st = (Returned a, st1) ∧ f a st1 = (Returned b, st').
Proof.
  unfold mbind, M_bind. destruct (m st) as [[a|msg] st1]; [|discriminate].
  intros H. by exists a, st1.
Qed.

Lemma scan_object_fields id row :
  field (scan_object id row) "id" = VNum id
  ∧ field (scan_object id row) "hosts" = r_hosts row
  ∧ field (scan_object id row) "ports" = r_ports row
  ∧ field (scan_object id row) "next_run" = column (r_next_run row)
  ∧ field (scan_object id row) "nextRun" = VUndef.
Proof. split_and!; reflexivity. Qed.

(** C9.  For an identifier without a scan definition in the store,
    [runScanNow] throws the not-found error and leaves the whole state as it
    was: no connection has been made, no certificate saved, no run time
    written. *)
Theorem runScanNow_not_found scanId st :
  scheduled_scans st !! scanId = None →
  runScanNow scanId st
  = (Thrown ("Scheduled scan with ID " +:+ pretty scanId +:+ " not found"), st).
Proof.
  intros Hnone. unfold runScanNow, getScheduledScanById, mbind, M_bind.
  by rewrite Hnone.
Qed.

(** The row of a scan after a manual run that returns: [last_run] is the
    time of the run, and [next_run] is NULL, because the row object has a
    property [next_run] and no property [nextRun]. *)
Lemma runScanNow_run_times scanId row st :
  scheduled_scans st !! scanId = Some row →
  returns (runScanNow scanId st).1 = true →
  let st' := (runScanNow scanId st).2 in
  scheduled_scans st' !! scanId
  = Some {| r_name := r_name row; r_hosts := r_hosts row; r_ports := r_ports row;
            r_frequency := r_frequency row;
            r_last_run := SText (toISOString (clock (tick st')));
            r_next_run := SNull;
            r_active := r_active row |}.
Proof.
  intros Hrow Hret. cbv zeta.
  destruct (runScanNow scanId st) as [[results|msg] st'] eqn:Hrun; [|discriminate].
  clear Hret. cbn [snd]. unfold runScanNow in Hrun.
  apply bind_returned in Hrun as (found & st1 & Hget & Hrun).
  unfold getScheduledScanById in Hget. rewrite Hrow in Hget.
  injection Hget as <- <-. cbn [fmap option_fmap option_map] in Hrun.
  destruct (scan_object_fields scanId row) as (Hid & Hhosts & Hports & _ & HnextRun).
  rewrite Hid, Hhosts, Hports, HnextRun in Hrun.
  apply bind_returned in Hrun as (hosts & st2 & Hh & Hrun).
  pose proof (keeps_hosts_of (λ s, s) (r_hosts row) st) as K2.
  rewrite Hh in K2. cbn in K2. subst st2.
  apply bind_returned in Hrun as (ports & st3 & Hp & Hrun).
  pose proof (keeps_ports_of (λ s, s) (r_ports row) st) as K3.
  rewrite Hp in K3. cbn in K3. subst st3.
  apply bind_returned in Hrun as (results' & st4 & Hscan & Hrun).
  rewrite scanHosts_eq in Hscan. injection Hscan as <- <-.
  apply bind_returned in Hrun as ([] & st5 & Hsave & Hrun).
  pose proof (keeps_for_of scheduled_scans (all_attempts 5000 hosts ports st) saveCertificate
                (λ c, keeps_saveCertificate scheduled_scans c (λ _ _, eq_refl))
                (set_tick (tick st + length hosts * length ports) st)) as K5.
  rewrite Hsave in K5. cbn in K5.
  apply bind_returned in Hrun as (now & st6 & Hnow & Hrun).
  injection Hnow as <- <-.
  apply bind_returned in Hrun as (changed & st7 & Hupd & Hrun).
  injection Hrun as <- <-.
  unfold updateScheduledScanTimes in Hupd. cbn [bind_param] in Hupd.
  rewrite K5, Hrow in Hupd. injection Hupd as <- <-.
  cbn [scheduled_scans set_scheduled_scans tick]. by rewrite lookup_insert_eq.
Qed.

(** *** The scan handler of the API *)

Lemma strict_ne_str v s : strict_ne v (VStr s) = bool_decide (v ≠ VStr s).
Proof.
  destruct v; cbn; try reflexivity; try by rewrite bool_decide_eq_true_2.
  destruct (decide (s0 = s)) as [->|Hne].
  - rewrite bool_decide_eq_true_2 by done. by rewrite bool_decide_eq_false_2 by (intros H; by apply H).
  - rewrite bool_decide_eq_false_2 by congruence. by rewrite bool_decide_eq_true_2 by congruence.
Qed.

Lemma attempts_have_target host timeout ports : ∀ st,
  Forall has_target (attempts host timeout ports st).
Proof.
  induction ports as [|p rest IH]; intros st; cbn [attempts]; constructor; [|apply IH].
  destruct (attempt_spec host p timeout st) as (Hh & Hp & _). by exists host, p.
Qed.

Lemma all_attempts_have_target timeout hosts ports : ∀ st,
  Forall has_target (all_attempts timeout hosts ports st).
Proof.
  induction hosts as [|h rest IH]; intros st; cbn [all_attempts]; [constructor|].
  apply Forall_app. split; [apply attempts_have_target|apply IH].
Qed.

Lemma saveCertificate_target r st :
  has_target r →
  saveCertificate r st
  = (Returned tt, set_certificates (<[target_of r := cert_row_of r]> (certificates st)) st).
Proof.
  intros (host & port & Hh & Hp). rewrite saveCertificate_eq.
  unfold target_of. by rewrite Hh, Hp.
Qed.

Lemma save_results_eq results : ∀ st,
  Forall has_target results →
  save_results results st
  = (Returned tt, set_certificates (stored results (certificates st)) st).
Proof.
  unfold save_results, stored.
  induction results as [|r rest IH]; intros st Hall.
  - by destruct st.
  - apply Forall_cons in Hall as [Hr Hrest]. cbn [for_of]. unfold mbind, M_bind.
    rewrite strict_ne_str, filter_cons.
    destruct (decide (field r "status" ≠ VStr "error")) as [Hne|He].
    + rewrite bool_decide_eq_true_2 by done.
      rewrite (saveCertificate_target _ _ Hr).
      fold (mbind (M:=M) (A:=unit) (B:=unit)). rewrite (IH _ Hrest). reflexivity.
    + rewrite bool_decide_eq_false_2 by done. cbn. apply (IH _ Hrest).
Qed.

Lemma foldl_insert_lookup_ne (l : list obj) (key : sqlval * sqlval) :
  ∀ table : gmap (sqlval * sqlval) cert_row,
  (∀ r, r ∈ l → target_of r ≠ key) →
  foldl (λ table r, <[target_of r := cert_row_of r]> table) table l !! key = table !! key.
Proof.
  induction l as [|r rest IH]; intros table Hne; [done|].
  cbn [foldl]. rewrite IH.
  - apply lookup_insert_ne, Hne. by left.
  - intros r' Hr'. apply Hne. by right.
Qed.

Lemma stored_lookup_errors (results : list obj) (key : sqlval * sqlval)
    (table : gmap (sqlval * sqlval) cert_row) :
  (∀ r, r ∈ results → target_of r = key → field r "status" = VStr "error") →
  stored results table !! key = table !! key.
Proof.
  intros Herr. unfold stored. apply foldl_insert_lookup_ne.
  intros r [Hne Hr]%list_elem_of_filter Hkey. by apply Hne, Herr.
Qed.

Lemma api_scan_eq hostsToScan portsToScan st :
  hostsToScan ≠ [] →
  let results := all_attempts 5000 hostsToScan portsToScan st in
  let st' := set_certificates (stored results (certificates st))
               (set_tick (tick st + length hostsToScan * length portsToScan) st) in
  api_scan hostsToScan portsToScan st
  = (Returned (JsonResults
                 (imap (λ i cert, processResult (clock (tick st')) (random (tick st') i) cert)
                    results)
                 (scanSummary (clock (tick st')) hostsToScan portsToScan results)),
     st').
Proof.
  intros Hne. cbv zeta. destruct hostsToScan as [|host hosts]; [done|].
  unfold api_scan, scan_and_save, try_catch, mbind, M_bind.
  rewrite scanHosts_eq. cbn [mret M_ret].
  rewrite save_results_eq by apply all_attempts_have_target.
  reflexivity.
Qed.

(** C10, amended.  The handler answers with one entry for every result of
    the scan, an [error] result keeping its status and its reason there,
    and it saves the results that are not errors, in their order, and
    nothing else: a key of the table under which the scan has only [error]
    results holds what it held before. *)
Theorem api_scan_saves_only_non_errors hostsToScan portsToScan st :
  hostsToScan ≠ [] →
  ∃ results data summary,
    (scanHosts hostsToScan portsToScan 5000 st).1 = Returned results
    ∧ (api_scan hostsToScan portsToScan st).1 = Returned (JsonResults data summary)
    ∧ length data = length results
    ∧ (∀ i r, results !! i = Some r → field r "status" = VStr "error" →
         ∃ d, data !! i = Some d
              ∧ field d "status" = VStr "error"
              ∧ field d "error" = field r "error" ||| VNull)
    ∧ certificates (api_scan hostsToScan portsToScan st).2
      = foldl (λ table r, <[target_of r := cert_row_of r]> table) (certificates st)
          (filter (λ r, field r "status" ≠ VStr "error") results)
    ∧ (∀ key : sqlval * sqlval,
         (∀ r, r ∈ results → target_of r = key → field r "status" = VStr "error") →
         certificates (api_scan hostsToScan portsToScan st).2 !! key
         = certificates st !! key).
Proof.
  intros Hne. rewrite (api_scan_eq _ _ _ Hne), scanHosts_eq. cbn [fst snd].
  eexists _, _, _. split_and!; try reflexivity.
  - by rewrite length_imap.
  - intros i r Hi Herr. rewrite list_lookup_imap, Hi. cbn [fmap option_fmap option_map].
    eexists. split; [reflexivity|]. split.
    + change (field r "status"
              ||| (if truthy (field r "error") then VStr "error" else VStr "valid")
              = VStr "error").
      by rewrite Herr.
    + reflexivity.
  - intros key Herr. cbn [certificates set_certificates]. by apply stored_lookup_errors.
Qed.

(** *** The [Map] of the scheduler *)

Lemma map_get_set_eq k v m : map_get k (map_set k v m) = Some v.
Proof.
  induction m as [|[k' v'] rest IH]; cbn.
  - by rewrite bool_decide_eq_true_2.
  - destruct (decide (k' = k)) as [->|Hne].
    + rewrite bool_decide_eq_true_2 by done. cbn. by rewrite bool_decide_eq_true_2.
    + rewrite bool_decide_eq_false_2 by done. cbn. by rewrite bool_decide_eq_false_2.
Qed.

Lemma map_get_set_ne k k' v m : k' ≠ k → map_get k' (map_set k v m) = map_get k' m.
Proof.
  intros Hne. induction m as [|[k0 v0] rest IH]; cbn.
  - by rewrite bool_decide_eq_false_2.
  - destruct (decide (k0 = k)) as [->|Hne0].
    + rewrite bool_decide_eq_true_2 by done. cbn.
      by rewrite !bool_decide_eq_false_2 by done.
    + rewrite (bool_decide_eq_false_2 (k0 = k)) by done. cbn. by rewrite IH.
Qed.

Lemma map_get_delete_ne k k' m : k' ≠ k → map_get k' (map_delete k m) = map_get k' m.
Proof.
  intros Hne. unfold map_delete. induction m as [|[k0 v0] rest IH]; [done|].
  rewrite filter_cons. cbn [fst map_get].
  destruct (decide (k0 ≠ k)) as [Hk|Hk]; cbn [map_get].
  - by rewrite IH.
  - apply dec_stable in Hk as ->. by rewrite bool_decide_eq_false_2.
Qed.

Lemma map_get_Some_elem k v m : map_get k m = Some v → (k, v) ∈ m.
Proof.
  induction m as [|[k0 v0] rest IH]; cbn; [done|].
  destruct (decide (k0 = k)) as [->|Hne].
  - rewrite bool_decide_eq_true_2 by done. intros [= ->]. by left.
  - rewrite bool_decide_eq_false_2 by done. intros H. right. by apply IH.
Qed.

Lemma map_get_None_keys k m : map_get k m = None → k ∉ m.*1.
Proof.
  induction m as [|[k0 v0] rest IH]; cbn.
  - intros _ H. by apply elem_of_nil in H.
  - destruct (decide (k0 = k)) as [->|Hne].
    + by rewrite bool_decide_eq_true_2.
    + rewrite bool_decide_eq_false_2 by done. intros H.
      apply not_elem_of_cons. split; [done|by apply IH].
Qed.

Lemma map_has_true k m : map_has k m = true → is_Some (map_get k m).
Proof. unfold map_has. apply bool_decide_eq_true_1. Qed.

Lemma map_has_false k m : map_has k m = false → map_get k m = None.
Proof.
  unfold map_has. intros H%bool_decide_eq_false_1.
  destruct (map_get k m); [|done]. by destruct H.
Qed.

Lemma map_set_keys k v m x : x ∈ (map_set k v m).*1 → x = k ∨ x ∈ m.*1.
Proof.
  induction m as [|[k0 v0] rest IH]; cbn.
  - intros H%list_elem_of_singleton. by left.
  - destruct (bool_decide (k0 = k)); cbn.
    + intros [->|H]%elem_of_cons; [by left|]. right. by right.
    + intros [->|H]%elem_of_cons; [right; by left|].
      destruct (IH H) as [->|Hx]; [by left|]. right. by right.
Qed.

Lemma map_set_NoDup k v m : NoDup m.*1 → NoDup (map_set k v m).*1.
Proof.
  induction m as [|[k0 v0] rest IH]; cbn.
  - intros _. apply NoDup_singleton.
  - intros [Hnotin Hnd]%NoDup_cons.
    destruct (decide (k0 = k)) as [->|Hne].
    + rewrite bool_decide_eq_true_2 by done. cbn. by apply NoDup_cons.
    + rewrite bool_decide_eq_false_2 by done. cbn. apply NoDup_cons. split; [|by apply IH].
      intros [->|H]%map_set_keys; done.
Qed.

Lemma map_delete_NoDup k m : NoDup m.*1 → NoDup (map_delete k m).*1.
Proof.
  unfold map_delete. induction m as [|[k0 v0] rest IH]; [done|].
  rewrite fmap_cons. intros [Hnotin Hnd]%NoDup_cons. rewrite filter_cons. cbn [fst].
  destruct (decide (k0 ≠ k)); [rewrite fmap_cons|by apply IH].
  apply NoDup_cons. split; [|by apply IH].
  intros ((k1 & v1) & Hk & [_ H]%list_elem_of_filter)%list_elem_of_fmap. cbn in Hk. subst k1.
  apply Hnotin, list_elem_of_fmap. by exists (k0, v1).
Qed.

(** A [Map] has at most one entry under a key. *)
Lemma keys_NoDup_one_entry k (m : list (jsval * option nat)) :
  NoDup m.*1 → (length (filter (λ e, e.1 = k) m) ≤ 1)%nat.
Proof.
  induction m as [|[k0 v0] rest IH]; [cbn; lia|].
  rewrite fmap_cons. intros [Hnotin Hnd]%NoDup_cons. rewrite filter_cons. cbn [fst] in *.
  destruct (decide (k0 = k)) as [->|Hne]; [|by apply IH].
  cbn [length]. destruct (filter (λ e, e.1 = k) rest) as [|[k1 v1] tl] eqn:Hf; [cbn; lia|].
  exfalso. apply Hnotin.
  assert (Hin : (k1, v1) ∈ filter (λ e : jsval * option nat, e.1 = k) rest)
    by (rewrite Hf; by left).
  apply list_elem_of_filter in Hin as [Hk Hin]. cbn in Hk. subst k1.
  apply list_elem_of_fmap. by exists (k, v1).
Qed.

(** A list in which any two elements that satisfy [P] are at the same
    place has at most one element that satisfies [P]. *)
Lemma filter_at_most_one {A} (P : A → Prop) `{∀ x, Decision (P x)} (l : list A) :
  (∀ i j x y, l !! i = Some x → l !! j = Some y → P x → P y → i = j) →
  (length (filter P l) ≤ 1)%nat.
Proof.
  induction l as [|a rest IH]; intros Huniq; [cbn; lia|].
  rewrite filter_cons. destruct (decide (P a)) as [Ha|Ha].
  - destruct (filter P rest) as [|y tl] eqn:Hf; [cbn; lia|].
    assert (Hin : y ∈ filter P rest) by (rewrite Hf; by left).
    apply list_elem_of_filter in Hin as [Hy Hin].
    apply list_elem_of_lookup in Hin as [j Hj].
    by specialize (Huniq 0%nat (S j) a y eq_refl Hj Ha Hy).
  - apply IH. intros i j x y Hi Hj Hx Hy.
    by injection (Huniq (S i) (S j) x y Hi Hj Hx Hy).
Qed.

(** *** Triples *)

Lemma hoare_ret {A} (P : State → Prop) (a : A) (Q : A → State → Prop) R :
  (∀ st, P st → Q a st) → hoare P (mret a) Q R.
Proof. intros H st HP. by apply H. Qed.

Lemma hoare_throw {A} (P : State → Prop) msg (Q : A → State → Prop) (R : State → Prop) :
  (∀ st, P st → R st) → hoare P (throw msg) Q R.
Proof. intros H st HP. by apply H. Qed.

Lemma hoare_bind {A B} (P : State → Prop) (m : M A) (f : A → M B) Q' Q R :
  hoare P m Q' R → (∀ a, hoare (Q' a) (f a) Q R) → hoare P (m ≫= f) Q R.
Proof.
  intros Hm Hf st HP. unfold mbind, M_bind. specialize (Hm st HP).
  destruct (m st) as [[a|msg] st1]; [by apply Hf|done].
Qed.

Lemma hoare_try_catch {A} (P : State → Prop) (m : M A) handler Q R' R :
  hoare P m Q R' → (∀ msg, hoare R' (handler msg) Q R) → hoare P (try_catch m handler) Q R.
Proof.
  intros Hm Hh st HP. unfold try_catch. specialize (Hm st HP).
  destruct (m st) as [[a|msg] st1]; [done|by apply Hh].
Qed.

Lemma hoare_for_of {A} (I : State → Prop) (xs : list A) body R :
  (∀ x, hoare I (body x) (λ _, I) R) → hoare I (for_of xs body) (λ _, I) R.
Proof.
  intros Hb. induction xs as [|x rest IH]; [by apply hoare_ret|].
  cbn [for_of]. eapply hoare_bind; [apply Hb|]. intros u. exact IH.
Qed.

Lemma hoare_consequence {A} (P P' : State → Prop) (m : M A) (Q Q' : A → State → Prop)
    (R R' : State → Prop) :
  hoare P' m Q' R' → (∀ st, P st → P' st) → (∀ a st, Q' a st → Q a st) →
  (∀ st, R' st → R st) → hoare P m Q R.
Proof.
  intros Hm HP HQ HR st Hst. specialize (Hm st (HP st Hst)).
  destruct (m st) as [[a|msg] st1]; [by apply HQ|by apply HR].
Qed.

Lemma hoare_get_state (P : State → Prop) R :
  hoare P get_state (λ s st, s = st ∧ P st) R.
Proof. by intros st HP. Qed.

(** A property of the jobs and of the [Map] alone survives a computation
    that keeps both. *)
Lemma hoare_keeps {A} (P : State → Prop) (m : M A) :
  (∀ st st', jobs st' = jobs st → activeJobs st' = activeJobs st → P st → P st') →
  keeps jobs m → keeps activeJobs m → hoare P m (λ _, P) P.
Proof.
  intros Hext Hj Ha st HP. specialize (Hj st). specialize (Ha st).
  destruct (m st) as [[a|msg] st1]; by apply (Hext st).
Qed.

Lemma hoare_snd {A} (P : State → Prop) (m : M A) st :
  hoare P m (λ _, P) P → P st → P (m st).2.
Proof. intros Hm HP. specialize (Hm st HP). by destruct (m st) as [[a|msg] st1]. Qed.

(** *** The timers of the scheduler *)

Lemma scheduler_inv_ext st st' :
  jobs st' = jobs st → activeJobs st' = activeJobs st →
  scheduler_inv st → scheduler_inv st'.
Proof. unfold scheduler_inv. by intros -> ->. Qed.

Lemma scheduled_ext scan st st' :
  jobs st' = jobs st → activeJobs st' = activeJobs st →
  scheduled scan st → scheduled scan st'.
Proof. unfold scheduled, scheduler_inv, armed. by intros -> ->. Qed.

Lemma inv_except_inv id st : inv_except id st → scheduler_inv st.
Proof. intros [Hnd Hlive]. split; [done|]. intros j jb Hj Hl. by apply Hlive. Qed.

Lemma inv_no_entry id st :
  scheduler_inv st → map_get id (activeJobs st) = None → inv_except id st.
Proof.
  intros [Hnd Hlive] Hnone. split; [done|]. intros j jb Hj Hl.
  specialize (Hlive j jb Hj Hl). split; [|done].
  intros Heq. by rewrite Heq, Hnone in Hlive.
Qed.

Lemma cancel_inv j st :
  scheduler_inv st → scheduler_inv (set_jobs (alter cancelled j (jobs st)) st).
Proof.
  intros [Hnd Hlive]. split; [done|]. cbn. intros j' jb' Hj' Hl.
  destruct (decide (j = j')) as [->|Hne].
  - rewrite list_lookup_alter_eq in Hj'. destruct (jobs st !! j'); [|done].
    injection Hj' as <-. done.
  - rewrite list_lookup_alter_ne in Hj' by done. by apply Hlive.
Qed.

Lemma clear_inv id j st :
  scheduler_inv st → map_get id (activeJobs st) = Some (Some j) →
  inv_except id (set_activeJobs (map_delete id (activeJobs st))
                   (set_jobs (alter cancelled j (jobs st)) st)).
Proof.
  intros [Hnd Hlive] Hget. split; cbn.
  - by apply map_delete_NoDup.
  - intros j' jb' Hj' Hl. destruct (decide (j = j')) as [->|Hne].
    + rewrite list_lookup_alter_eq in Hj'. destruct (jobs st !! j'); [|done].
      injection Hj' as <-. done.
    + rewrite list_lookup_alter_ne in Hj' by done. specialize (Hlive _ _ Hj' Hl).
      assert (job_id jb' ≠ id) as Hid.
      { intros Heq. rewrite Heq, Hget in Hlive. by injection Hlive. }
      split; [done|]. by rewrite map_get_delete_ne.
Qed.

Lemma arm_null id st :
  inv_except id st → scheduler_inv (set_activeJobs (map_set id None (activeJobs st)) st).
Proof.
  intros [Hnd Hlive]. split; cbn; [by apply map_set_NoDup|].
  intros j jb Hj Hl. destruct (Hlive j jb Hj Hl) as [Hne Hget].
  by rewrite map_get_set_ne.
Qed.

Lemma arm_job scan r st :
  inv_except (field scan "id") st →
  let st' := set_activeJobs (map_set (field scan "id") (Some (length (jobs st))) (activeJobs st))
               (set_jobs (jobs st ++ [{| j_scan := scan; j_rule := r; j_live := true |}]) st) in
  scheduler_inv st' ∧ armed (field scan "id") st'.
Proof.
  intros [Hnd Hlive]. cbv zeta. split; [split|]; cbn.
  - by apply map_set_NoDup.
  - intros j jb [Hj|[-> <-]]%lookup_snoc_Some Hl.
    + destruct Hj as [_ Hj]. destruct (Hlive j jb Hj Hl) as [Hne Hget].
      by rewrite map_get_set_ne.
    + apply map_get_set_eq.
  - eexists _, _. split_and!.
    + apply map_get_set_eq.
    + cbn. apply list_lookup_middle. reflexivity.
    + reflexivity.
    + reflexivity.
Qed.

Lemma keeps_nextRun_of {X} (π : State → X) job : keeps π (nextRun_of job).
Proof.
  intros st. unfold nextRun_of. destruct job as [j|]; [|done].
  destruct (jobs st !! j) as [jb|]; [|done].
  by destruct (if j_live jb then _ else _).
Qed.

(** [scheduleJob] keeps the invariant, registers a live job when the scan
    is active and its rule accepted, and throws only on a [null] entry. *)
Lemma scheduleJob_hoare scan (guarded : Prop) :
  hoare (λ st, scheduler_inv st
               ∧ (guarded → map_get (field scan "id") (activeJobs st) ≠ Some None))
    (scheduleJob scan)
    (λ _, scheduled scan)
    (λ st, scheduler_inv st ∧ ¬ guarded).
Proof.
  unfold scheduleJob.
  eapply hoare_bind; [apply hoare_get_state|]. intros s.
  eapply hoare_bind with (Q' := λ _, inv_except (field scan "id")).
  - intros st (-> & Hinv & Hguard).
    destruct (map_has (field scan "id") (activeJobs st)) eqn:Hhas.
    + apply map_has_true in Hhas as [[j|] Hget]; rewrite Hget;
        unfold mbind, M_bind, cancel, modify, throw; cbv beta iota.
      * by apply (clear_inv _ j st).
      * split; [done|]. intros Hg. by apply (Hguard Hg).
    + apply map_has_false in Hhas. by apply inv_no_entry.
  - intros _. destruct (truthy (field scan "active")) eqn:Hact.
    + eapply hoare_try_catch with (R' := scheduled scan);
        [|intros msg; by apply hoare_ret].
      eapply hoare_bind with (Q' := λ job st,
        ∃ st0, inv_except (field scan "id") st0
               ∧ ((job = None ∧ st = st0
                   ∧ ∀ r, rule_of (field scan "frequency") = VStr r → validRule r = false)
                  ∨ (∃ r, job = Some (length (jobs st0))
                          ∧ st = set_jobs (jobs st0 ++ [{| j_scan := scan; j_rule := r;
                                                           j_live := true |}]) st0))).
      * intros st Hex. unfold schedule_scheduleJob.
        destruct (rule_of (field scan "frequency")) as [| | | | |r| |] eqn:Hrule;
          try (exists st; split; [done|]; left; split_and!; try done).
        destruct (validRule r) eqn:Hvalid.
        -- exists st. split; [done|]. right. by exists r.
        -- exists st. split; [done|]. left. split_and!; try done.
           intros r' [= <-]. done.
      * intros job. eapply hoare_bind with (Q' := λ _, scheduled scan).
        -- intros st (st0 & Hex & [(-> & -> & Hinvalid)|(r & -> & ->)]); cbn.
           ++ split; [by apply arm_null|]. intros _ r Hr Hv.
              rewrite (Hinvalid r Hr) in Hv. done.
           ++ destruct (arm_job scan r st0 Hex) as [Hinv Harmed]. by split.
        -- intros _. apply hoare_keeps.
           ++ apply scheduled_ext.
           ++ apply keeps_bind; [apply keeps_nextRun_of|]. intros nextRun.
              apply keeps_try_catch; [|intros; apply keeps_ret].
              apply keeps_bind; [|intros; apply keeps_ret].
              by apply keeps_updateScheduledScanTimes.
           ++ apply keeps_bind; [apply keeps_nextRun_of|]. intros nextRun.
              apply keeps_try_catch; [|intros; apply keeps_ret].
              apply keeps_bind; [|intros; apply keeps_ret].
              by apply keeps_updateScheduledScanTimes.
    + apply hoare_ret. intros st Hex. split; [by eapply inv_except_inv|].
      intros Htrue. congruence.
Qed.

(** The loop of [cancelAllJobs] over the entries [es]: a job that is live
    after it was live before it and is none of those of [es]. *)
Lemma cancel_entries es : ∀ st,
  scheduler_inv st →
  match for_of es (λ entry : jsval * option nat,
                     match entry.2 with
                     | Some j => cancel j
                     | None =>
                         throw "TypeError: Cannot read properties of null (reading 'cancel')"
                     end) st with
  | (Returned _, st') =>
      scheduler_inv st' ∧ activeJobs st' = activeJobs st
      ∧ ∀ j jb, jobs st' !! j = Some jb → j_live jb = true →
          jobs st !! j = Some jb ∧ ∀ k, (k, Some j) ∉ es
  | (Thrown _, st') => scheduler_inv st'
  end.
Proof.
  induction es as [|[k0 [j0|]] rest IH]; intros st Hinv.
  - cbn. split_and!; try done. intros j jb Hj Hl. split; [done|].
    intros k Hin. by apply elem_of_nil in Hin.
  - cbn [for_of snd]. unfold mbind, M_bind, cancel, modify. cbv beta iota.
    specialize (IH _ (cancel_inv j0 st Hinv)).
    destruct (for_of rest _ _) as [[u|msg] st']; [|done].
    destruct IH as (Hinv' & Hact & Hlive). split_and!; try done.
    intros j jb Hj Hl. destruct (Hlive j jb Hj Hl) as [Hj1 Hnotin]. cbn in Hj1.
    destruct (decide (j0 = j)) as [->|Hne].
    + rewrite list_lookup_alter_eq in Hj1. destruct (jobs st !! j); [|done].
      injection Hj1 as <-. done.
    + rewrite list_lookup_alter_ne in Hj1 by done. split; [done|].
      intros k [[= _ ?]|Hin]%elem_of_cons; [done|]. by apply (Hnotin k).
  - cbn. done.
Qed.

Lemma cancelAllJobs_hoare :
  hoare scheduler_inv cancelAllJobs (λ _, scheduler_inv) scheduler_inv.
Proof.
  intros st Hinv. unfold cancelAllJobs, mbind, M_bind, get_state. cbv beta iota.
  pose proof (cancel_entries (activeJobs st) st Hinv) as Hloop.
  destruct (for_of (activeJobs st) _ st) as [[u|msg] st']; [|done].
  destruct Hloop as (Hinv' & Hact & Hlive). unfold modify. split; cbn.
  - apply NoDup_nil_2.
  - intros j jb Hj Hl. exfalso. destruct (Hlive j jb Hj Hl) as [Hj0 Hnotin].
    destruct Hinv as [_ Hreg]. specialize (Hreg j jb Hj0 Hl).
    by apply map_get_Some_elem, Hnotin in Hreg.
Qed.

Lemma scheduleJob_inv scan :
  hoare scheduler_inv (scheduleJob scan) (λ _, scheduler_inv) scheduler_inv.
Proof.
  eapply hoare_consequence; [apply (scheduleJob_hoare scan False)|..].
  - intros st Hinv. by split.
  - by intros _ st [Hinv _].
  - by intros st [Hinv _].
Qed.

Lemma initializeScheduler_hoare :
  hoare scheduler_inv initializeScheduler (λ _, scheduler_inv) scheduler_inv.
Proof.
  unfold initializeScheduler.
  eapply hoare_bind; [apply cancelAllJobs_hoare|]. intros ?.
  eapply hoare_try_catch; [|intros msg; by apply hoare_ret].
  eapply hoare_bind with (Q' := λ _, scheduler_inv).
  - by intros st Hinv.
  - intros scans. apply hoare_for_of. intros scan.
    destruct (truthy (field scan "active")); [apply scheduleJob_inv|by apply hoare_ret].
Qed.

Lemma keeps_fire {X} (π : State → X) j :
  tick_free π → store_free π → scans_free π → keeps π (fire j).
Proof.
  intros Ht Hc Hs. apply keeps_bind; [apply keeps_get_state|]. intros s.
  destruct (jobs s !! j) as [jb|]; [|apply keeps_ret].
  destruct (j_live jb); [|apply keeps_ret].
  apply keeps_try_catch; [|intros; apply keeps_ret].
  apply keeps_bind; [apply keeps_hosts_of|]. intros hosts.
  apply keeps_bind; [apply keeps_ports_of|]. intros ports.
  apply keeps_bind; [by apply keeps_scanHosts|]. intros results.
  apply keeps_bind; [apply keeps_for_of; intros c; by apply keeps_saveCertificate|]. intros ?.
  apply keeps_bind; [apply keeps_Date_now|]. intros now.
  apply keeps_bind; [apply keeps_nextRun_of|]. intros nextRun.
  apply keeps_bind; [by apply keeps_updateScheduledScanTimes|]. intros ?. apply keeps_ret.
Qed.

Lemma keeps_runScanNow {X} (π : State → X) scanId :
  tick_free π → store_free π → scans_free π → keeps π (runScanNow scanId).
Proof.
  intros Ht Hc Hs. apply keeps_bind; [by intros st|]. intros [scan|]; [|apply keeps_throw].
  apply keeps_bind; [apply keeps_hosts_of|]. intros hosts.
  apply keeps_bind; [apply keeps_ports_of|]. intros ports.
  apply keeps_bind; [by apply keeps_scanHosts|]. intros results.
  apply keeps_bind; [apply keeps_for_of; intros c; by apply keeps_saveCertificate|]. intros ?.
  apply keeps_bind; [apply keeps_Date_now|]. intros now.
  apply keeps_bind; [by apply keeps_updateScheduledScanTimes|]. intros ?. apply keeps_ret.
Qed.

Lemma keeps_api_scan {X} (π : State → X) hosts ports :
  tick_free π → store_free π → keeps π (api_scan hosts ports).
Proof.
  intros Ht Hc. apply keeps_try_catch; [|intros; apply keeps_ret].
  destruct hosts as [|host hosts]; [apply keeps_ret|].
  apply keeps_bind.
  - apply keeps_bind.
    + apply keeps_try_catch; [|intros; apply keeps_ret].
      apply keeps_bind; [by apply keeps_scanHosts|]. intros; apply keeps_ret.
    + intros [results|message].
      * apply keeps_try_catch.
        -- apply keeps_bind; [|intros; apply keeps_ret].
           apply keeps_for_of. intros c.
           destruct (strict_ne _ _); [by apply keeps_saveCertificate|apply keeps_ret].
        -- intros msg. apply keeps_bind; [apply keeps_Date_now|]. intros; apply keeps_ret.
      * apply keeps_bind; [apply keeps_Date_now|]. intros; apply keeps_ret.
  - intros results. apply keeps_bind; [apply keeps_get_state|]. intros s.
    apply keeps_bind; [apply keeps_Date_now|]. intros; apply keeps_ret.
Qed.

Lemma step_inv st st' : step st st' → scheduler_inv st → scheduler_inv st'.
Proof.
  intros Hstep Hinv. destruct Hstep.
  - by apply hoare_snd; [apply scheduleJob_inv|].
  - by apply hoare_snd; [apply cancelAllJobs_hoare|].
  - by apply hoare_snd; [apply initializeScheduler_hoare|].
  - apply (scheduler_inv_ext st); [| |done].
    + by apply (keeps_fire jobs).
    + by apply (keeps_fire activeJobs).
  - apply (scheduler_inv_ext st); [| |done].
    + by apply (keeps_runScanNow jobs).
    + by apply (keeps_runScanNow activeJobs).
  - apply (scheduler_inv_ext st); [| |done].
    + by apply (keeps_api_scan jobs).
    + by apply (keeps_api_scan activeJobs).
  - by apply (scheduler_inv_ext st).
Qed.

Lemma reachable_inv st : reachable st → scheduler_inv st.
Proof.
  induction 1 as [st Hjobs Hact|st st' _ IH Hstep].
  - split.
    + rewrite Hact. apply NoDup_nil_2.
    + rewrite Hjobs. intros j jb Hj. by rewrite lookup_nil in Hj.
  - by apply (step_inv st).
Qed.

Lemma inv_at_most_one id st :
  scheduler_inv st →
  (length (entries id st) ≤ 1)%nat ∧ (length (live_timers id st) ≤ 1)%nat.
Proof.
  intros [Hnd Hlive]. split; [by apply keys_NoDup_one_entry|].
  apply filter_at_most_one. intros i j x y Hi Hj [Hx Hxid] [Hy Hyid].
  pose proof (Hlive i x Hi Hx) as H1. pose proof (Hlive j y Hj Hy) as H2.
  rewrite Hxid in H1. rewrite Hyid in H2. congruence.
Qed.

Lemma armed_exactly_one id st :
  scheduler_inv st → armed id st →
  length (entries id st) = 1%nat ∧ length (live_timers id st) = 1%nat.
Proof.
  intros Hinv (j & jb & Hget & Hj & Hl & Hid).
  destruct (inv_at_most_one id st Hinv) as [He Ht].
  assert ((id, Some j) ∈ entries id st) as Hin1.
  { apply list_elem_of_filter. split; [done|]. by apply map_get_Some_elem. }
  assert (jb ∈ live_timers id st) as Hin2.
  { apply list_elem_of_filter. split; [done|]. apply list_elem_of_lookup. by exists j. }
  destruct (entries id st); [by apply elem_of_nil in Hin1|].
  destruct (live_timers id st); [by apply elem_of_nil in Hin2|].
  cbn in *. lia.
Qed.

(** X28.  In every state the process reaches, the [Map] holds at most one
    entry and the scheduler at most one live timer for an identifier.  And
    arming twice in a row a scan that is active, whose rule node-schedule
    accepts and whose entry in the [Map], if any, is a job and not [null],
    returns both times and leaves exactly one entry and exactly one live
    timer for its identifier. *)
Theorem one_timer_per_scan st :
  reachable st →
  (∀ id, (length (entries id st) ≤ 1)%nat ∧ (length (live_timers id st) ≤ 1)%nat)
  ∧ (∀ scan r,
       truthy (field scan "active") = true →
       rule_of (field scan "frequency") = VStr r → validRule r = true →
       map_get (field scan "id") (activeJobs st) ≠ Some None →
       let st1 := (scheduleJob scan st).2 in
       let st2 := (scheduleJob scan st1).2 in
       returns (scheduleJob scan st).1 = true
       ∧ returns (scheduleJob scan st1).1 = true
       ∧ length (entries (field scan "id") st2) = 1%nat
       ∧ length (live_timers (field scan "id") st2) = 1%nat).
Proof.
  intros Hinv%reachable_inv. split; [intros id; by apply inv_at_most_one|].
  intros scan r Hact Hrule Hvalid Hnonnull. cbv zeta.
  pose proof (scheduleJob_hoare scan True st (conj Hinv (λ _, Hnonnull))) as H1.
  destruct (scheduleJob scan st) as [[u1|msg1] st1]; [|by destruct H1 as [_ []]].
  destruct H1 as [Hinv1 Harmed1]. specialize (Harmed1 Hact r Hrule Hvalid).
  assert (map_get (field scan "id") (activeJobs st1) ≠ Some None) as Hnonnull1.
  { destruct Harmed1 as (j & jb & -> & _). done. }
  cbn [fst snd].
  pose proof (scheduleJob_hoare scan True st1 (conj Hinv1 (λ _, Hnonnull1))) as H2.
  destruct (scheduleJob scan st1) as [[u2|msg2] st2]; [|by destruct H2 as [_ []]].
  destruct H2 as [Hinv2 Harmed2]. specialize (Harmed2 Hact r Hrule Hvalid).
  cbn [fst snd]. destruct (armed_exactly_one _ _ Hinv2 Harmed2). by split_and!.
Qed.

(** *** The validity dates in the records *)

Lemma days_floor (diff : Z) :
  diff / 86400000 * 86400000 ≤ diff < (diff / 86400000 + 1) * 86400000.
Proof.
  pose proof (Z.div_mod diff 86400000). pose proof (Z.mod_pos_bound diff 86400000). lia.
Qed.

(** X1.  In the record of [parseCertificate], [daysRemaining] is the number
    of whole days from the time of decoding to [notAfter], rounded down, and
    the status follows the two dates: ['expired'] exactly when [notAfter]
    is in the past, ['warning'] exactly when it is not in the past and less
    than 30 days ahead, ['valid'] exactly when it is 30 days ahead or
    more. *)
Theorem parseCertificate_status_by_dates now cert :
  let record := parseCertificate now cert in
  (∃ d, field record "daysRemaining" = VNum d
        ∧ d * 86400000 ≤ notAfter cert - now < (d + 1) * 86400000)
  ∧ (field record "status" = VStr "expired" ↔ notAfter cert < now)
  ∧ (field record "status" = VStr "warning"
     ↔ now ≤ notAfter cert < now + 30 * 86400000)
  ∧ (field record "status" = VStr "valid" ↔ now + 30 * 86400000 ≤ notAfter cert).
Proof.
  cbv zeta. rewrite parseCertificate_status, parseCertificate_daysRemaining.
  pose proof (days_floor (notAfter cert - now)) as Hd.
  destruct (classify_rule ((notAfter cert - now) / 86400000)) as (He & Hw & Hv).
  split; [by eexists|].
  split_and!; split.
  - intros [= H%He]. lia.
  - intros H. f_equal. apply He. lia.
  - intros [= H%Hw]. lia.
  - intros H. f_equal. apply Hw. lia.
  - intros [= H%Hv]. lia.
  - intros H. f_equal. apply Hv. lia.
Qed.

(** X2.  Whatever the decoder finds, [daysRemaining] in the record of a
    scan is computed from the expiry date of the handshake data: [0] when
    the certificate carries none, the number of whole days to it, rounded
    down, when it is a date, and [NaN], which the store keeps as NULL, when
    it is not: [new Date] does not throw, so the [catch] that would give
    [0] is never entered. *)
Theorem scan_record_daysRemaining now host port cert :
  let validTo := valid_to cert ||| pc_validTo cert in
  let record := certificate_record now host port cert in
  (truthy validTo = false → field record "daysRemaining" = VNum 0)
  ∧ (truthy validTo = true → date_of validTo = None →
     field record "daysRemaining" = VNaN ∧ c_days_remaining (cert_row_of record) = SNull)
  ∧ (∀ expiry, truthy validTo = true → date_of validTo = Some expiry →
       ∃ d, field record "daysRemaining" = VNum d
            ∧ d * 86400000 ≤ expiry - now < (d + 1) * 86400000).
Proof.
  cbv zeta. unfold cert_row_of. rewrite certificate_record_daysRemaining.
  unfold calculateDaysRemaining. split_and!.
  - by intros ->.
  - by intros -> ->.
  - intros expiry -> ->. eexists. split; [reflexivity|]. apply days_floor.
Qed.

(** *** The other fields of [parseCertificate] *)

Lemma lookup_key_notin fields k : k ∉ fields.*1 → lookup_key fields k = VUndef.
Proof.
  induction fields as [|[k' v] rest IH]; [done|].
  rewrite fmap_cons. intros [Hne Hrest]%not_elem_of_cons. cbn in Hne |- *.
  rewrite bool_decide_eq_false_2 by congruence. by apply IH.
Qed.

(** X3.  The signature algorithm of the record is never empty: it is the
    name the table gives for the identifier of [siginfo]; for an
    identifier the table does not have it is the identifier itself after
    ['OID: ']; without an identifier in [siginfo] it is [signatureOid]
    written the same way, and ['unknown'] when that is missing too. *)
Theorem signature_name_cases cert :
  truthy (signature_name cert) = true
  ∧ (∀ oid name, (oid, VStr name) ∈ oidMap → siginfo_algorithmOid cert = VStr oid →
       signature_name cert = VStr name)
  ∧ (∀ oid, oid ≠ "" → oid ∉ oidMap.*1 → siginfo_algorithmOid cert = VStr oid →
       signature_name cert = VStr ("OID: " +:+ oid))
  ∧ (truthy (siginfo_algorithmOid cert) = false → truthy (signatureOid cert) = true →
       signature_name cert = VStr ("OID: " +:+ to_string (signatureOid cert)))
  ∧ (truthy (siginfo_algorithmOid cert) = false → truthy (signatureOid cert) = false →
       signature_name cert = VStr "unknown").
Proof.
  unfold signature_name. split_and!.
  - destruct (truthy (siginfo_algorithmOid cert)).
    + unfold js_or.
      destruct (truthy (lookup_key oidMap _)) eqn:Hhit; [done|reflexivity].
    + destruct (truthy (signatureOid cert)); reflexivity.
  - intros oid name Hin ->.
    repeat (apply elem_of_cons in Hin as [[= -> ->]|Hin]; [reflexivity|]).
    by apply elem_of_nil in Hin.
  - intros oid Hne Hnotin ->. cbn [truthy to_string].
    destruct (String.eqb_spec oid ""); [done|]. cbn [negb].
    by rewrite lookup_key_notin.
  - by intros -> ->.
  - by intros -> ->.
Qed.

(** X4.  The key usages of the record are the labels of the flags that are
    set, each once, in the order of the seven flags; without the
    extension there is none. *)
Theorem keyUsage_labels_in_order ext :
  keyUsage_labels ext
    `sublist_of` ["Digital Signature"; "Non Repudiation"; "Key Encipherment";
                  "Data Encipherment"; "Key Agreement"; "Certificate Signing";
                  "CRL Signing"]
  ∧ (ext = None → keyUsage_labels ext = [])
  ∧ (∀ e, ext = Some e →
       ("Digital Signature" ∈ keyUsage_labels ext ↔ digitalSignature e = true)
       ∧ ("Non Repudiation" ∈ keyUsage_labels ext ↔ nonRepudiation e = true)
       ∧ ("Key Encipherment" ∈ keyUsage_labels ext ↔ keyEncipherment e = true)
       ∧ ("Data Encipherment" ∈ keyUsage_labels ext ↔ dataEncipherment e = true)
       ∧ ("Key Agreement" ∈ keyUsage_labels ext ↔ keyAgreement e = true)
       ∧ ("Certificate Signing" ∈ keyUsage_labels ext ↔ keyCertSign e = true)
       ∧ ("CRL Signing" ∈ keyUsage_labels ext ↔ cRLSign e = true)).
Proof.
  split_and!.
  - destruct ext as [[[] [] [] [] [] [] []]|]; cbn;
      repeat first [apply sublist_nil | apply sublist_skip | apply sublist_cons].
  - by intros ->.
  - intros e ->. destruct e as [[] [] [] [] [] [] []]; cbn;
      split_and!; split;
      first [ done
            | intros H; repeat (apply elem_of_cons in H as [[=]|H]); by apply elem_of_nil in H
            | intros _; by repeat (apply elem_of_cons; first [by left|right]) ].
Qed.

(** *** What the merge never takes from the decoder *)

Lemma formatRawIssuer_truthy issuer : truthy (formatRawIssuer issuer) = true.
Proof.
  destruct issuer as [|s|fields|fields]; cbn; try reflexivity.
  - destruct (String.eqb_spec s ""); cbn; [reflexivity|].
    destruct (String.eqb_spec s ""); done.
  - destruct (truthy (lookup_key fields "O")) eqn:HO; [done|].
    destruct (truthy (lookup_key fields "CN")) eqn:HCN; [done|].
    unfold js_or. by destruct (truthy (VStr (join ", " (fieldPairs fields)))) eqn:Hj.
Qed.

(** X5.  The issuer of a merged record is never the issuer the decoder
    formatted: [formatRawIssuer] always gives a non-empty value, the
    organisation of the issuer alone when it has one, so the fall-back of
    the merge to the decoder is never taken.  Nor are the fingerprint and
    the serial number ever empty. *)
Theorem merged_issuer_is_raw now host port cert forgeCert :
  let merged := combinedData host port (rawCertData now host port cert)
                  (parseCertificate now forgeCert) in
  truthy (formatRawIssuer (pc_issuer cert)) = true
  ∧ field merged "issuer" = formatRawIssuer (pc_issuer cert)
  ∧ (∀ fields, pc_issuer cert = DnObject fields → truthy (lookup_key fields "O") = true →
       field merged "issuer" = lookup_key fields "O")
  ∧ truthy (field merged "fingerprint") = true
  ∧ truthy (field merged "serialNumber") = true.
Proof.
  cbv zeta.
  assert (field (combinedData host port (rawCertData now host port cert)
                   (parseCertificate now forgeCert)) "issuer"
          = formatRawIssuer (pc_issuer cert) ||| dn_string (fc_issuer forgeCert)) as ->
    by reflexivity.
  rewrite (js_or_truthy _ _ (formatRawIssuer_truthy _)).
  split_and!.
  - apply formatRawIssuer_truthy.
  - reflexivity.
  - intros fields -> HO. cbn. by rewrite HO.
  - change (truthy (pc_fingerprint cert ||| VStr "Unknown") = true).
    unfold js_or. by destruct (truthy (pc_fingerprint cert)) eqn:H.
  - change (truthy (pc_serialNumber cert ||| VStr "Unknown") = true).
    unfold js_or. by destruct (truthy (pc_serialNumber cert)) eqn:H.
Qed.

(** *** Batches in sequence *)

Lemma all_attempts_app timeout hosts1 hosts2 ports : ∀ st,
  all_attempts timeout (hosts1 ++ hosts2) ports st
  = all_attempts timeout hosts1 ports st
    ++ all_attempts timeout hosts2 ports
         (set_tick (tick st + length hosts1 * length ports) st).
Proof.
  induction hosts1 as [|h rest IH]; intros st.
  - cbn. by rewrite Nat.add_0_r, set_tick_tick.
  - cbn [app all_attempts length]. rewrite IH, set_tick_set_tick, tick_set_tick, <- app_assoc.
    by replace (tick st + S (length rest) * length ports)%nat
      with (tick st + length ports + length rest * length ports)%nat by lia.
Qed.

(** X6.  Scanning a list of hosts is scanning its parts one after the
    other: the records of the second part follow those of the first, and
    the second part is probed from the connection the first part stopped
    at.  [scanHost] is the batch of a single host. *)
Theorem scanHosts_in_sequence hosts1 hosts2 ports timeout st :
  let first := scanHosts hosts1 ports timeout st in
  let second := scanHosts hosts2 ports timeout first.2 in
  (∃ results1 results2,
     first.1 = Returned results1 ∧ second.1 = Returned results2
     ∧ scanHosts (hosts1 ++ hosts2) ports timeout st = (Returned (results1 ++ results2), second.2))
  ∧ ∀ host, scanHost host ports timeout st = scanHosts [host] ports timeout st.
Proof.
  cbv zeta. split.
  - rewrite !scanHosts_eq. cbn [fst snd]. eexists _, _. split_and!; try reflexivity.
    rewrite all_attempts_app, set_tick_set_tick, tick_set_tick, length_app.
    do 2 f_equal. lia.
  - intros host. rewrite scanHosts_eq. unfold scanHost. rewrite scanPorts_eq.
    cbn [all_attempts length app]. rewrite app_nil_r. do 2 f_equal. lia.
Qed.

(** *** The two tables *)

(** X7.  [saveCertificate] is an upsert under the pair of the host and the
    port.  Of the columns other than [id], which the table of the model
    holds: the row read back under the pair is the row of the record,
    every other row is as it was, the pairs stored are those stored before
    and the pair of the record, and a later record for the same pair
    replaces the row.  Nothing but the table of certificates is
    written. *)
Theorem saveCertificate_upsert certData host port st :
  field certData "host" = VStr host → field certData "port" = VNum port →
  let key := (SText host, SInt port) in
  let st' := (saveCertificate certData st).2 in
  returns (saveCertificate certData st).1 = true
  ∧ certificates st' !! key = Some (cert_row_of certData)
  ∧ (∀ key' : sqlval * sqlval, key' ≠ key → certificates st' !! key' = certificates st !! key')
  ∧ (∀ key' : sqlval * sqlval,
       is_Some (certificates st' !! key') ↔ key' = key ∨ is_Some (certificates st !! key'))
  ∧ (∀ later, target_of later = key →
       certificates (saveCertificate later st').2 !! key = Some (cert_row_of later))
  ∧ set_certificates (certificates st) st' = st.
Proof.
  intros Hh Hp. cbv zeta.
  assert (has_target certData) as Ht by (by exists host, port).
  assert (target_of certData = (SText host, SInt port)) as Hkey
    by (unfold target_of; by rewrite Hh, Hp).
  rewrite (saveCertificate_target _ _ Ht), Hkey. cbn [fst snd returns].
  split_and!.
  - reflexivity.
  - apply lookup_insert_eq.
  - intros key' Hne. cbn. by apply lookup_insert_ne.
  - intros key'. cbn. destruct (decide (key' = (SText host, SInt port))) as [->|Hne].
    + rewrite lookup_insert_eq. split; [by left|by eexists].
    + rewrite lookup_insert_ne by done. split; [by right|by intros [?|?]].
  - intros later Hlater. rewrite saveCertificate_eq, Hlater. cbn.
    apply lookup_insert_eq.
  - by destruct st.
Qed.

(** X8.  [updateScheduledScanTimes] writes the two run times of one scan
    and nothing else: it tells whether the scan is stored, it neither
    creates nor removes a row, the rows of the other scans and the other
    columns of the row are as they were, and [getScheduledScanById] reads
    the two times back. *)
Theorem updateScheduledScanTimes_round_trip id lastRun nextRun st :
  let run := updateScheduledScanTimes (VNum id) lastRun nextRun st in
  run.1 = Returned (bool_decide (is_Some (scheduled_scans st !! id)))
  ∧ (scheduled_scans st !! id = None → run.2 = st)
  ∧ (∀ id', id' ≠ id → scheduled_scans run.2 !! id' = scheduled_scans st !! id')
  ∧ (∀ row, scheduled_scans st !! id = Some row →
       ∃ scan, (getScheduledScanById id run.2).1 = Returned (Some scan)
               ∧ field scan "last_run" = column (bind_param lastRun)
               ∧ field scan "next_run" = column (bind_param nextRun)
               ∧ Forall (λ k, field scan k = field (scan_object id row) k)
                   ["id"; "name"; "hosts"; "ports"; "frequency"; "active"])
  ∧ set_scheduled_scans (scheduled_scans st) run.2 = st.
Proof.
  cbv zeta. unfold updateScheduledScanTimes, getScheduledScanById. cbn [bind_param].
  destruct (scheduled_scans st !! id) as [row|] eqn:Hrow; cbn [fst snd].
  - split_and!.
    + reflexivity.
    + done.
    + intros id' Hne. cbn. by apply lookup_insert_ne.
    + intros row' [= <-]. cbn [scheduled_scans set_scheduled_scans].
      rewrite lookup_insert_eq. cbn [fmap option_fmap option_map].
      eexists. split; [reflexivity|]. split_and!; try reflexivity.
      repeat (constructor; [reflexivity|]). constructor.
    + by destruct st.
  - split_and!; try done. by destruct st.
Qed.

(** X9.  [deleteScheduledScan] removes the row of one scan and tells
    whether there was one; the other rows stay, NaN deletes nothing.
    Afterwards the scan is not found and [runScanNow] refuses it before
    any connection is made.  The store does not touch the timers: a job of
    the deleted scan stays as it was. *)
Theorem deleteScheduledScan_removes id st :
  let run := deleteScheduledScan (VNum id) st in
  run.1 = Returned (bool_decide (is_Some (scheduled_scans st !! id)))
  ∧ scheduled_scans run.2 !! id = None
  ∧ (∀ id', id' ≠ id → scheduled_scans run.2 !! id' = scheduled_scans st !! id')
  ∧ (getScheduledScanById id run.2).1 = Returned None
  ∧ runScanNow id run.2
    = (Thrown ("Scheduled scan with ID " +:+ pretty id +:+ " not found"), run.2)
  ∧ deleteScheduledScan VNaN st = (Returned false, st)
  ∧ set_scheduled_scans (scheduled_scans st) run.2 = st.
Proof.
  cbv zeta.
  assert (scheduled_scans (deleteScheduledScan (VNum id) st).2 !! id = None) as Hgone.
  { unfold deleteScheduledScan. cbn [bind_param].
    destruct (scheduled_scans st !! id) as [row|] eqn:Hrow; cbn; [|done].
    apply lookup_delete_eq. }
  split_and!.
  - unfold deleteScheduledScan. cbn [bind_param].
    by destruct (scheduled_scans st !! id) as [row|] eqn:Hrow.
  - exact Hgone.
  - intros id' Hne. unfold deleteScheduledScan. cbn [bind_param].
    destruct (scheduled_scans st !! id) as [row|] eqn:Hrow; cbn; [|done].
    by apply lookup_delete_ne.
  - unfold getScheduledScanById. cbn [fst]. by rewrite Hgone.
  - unfold runScanNow, getScheduledScanById, mbind, M_bind. by rewrite Hgone.
  - reflexivity.
  - unfold deleteScheduledScan. cbn [bind_param].
    destruct (scheduled_scans st !! id) as [row|] eqn:Hrow; cbn; by destruct st.
Qed.

(** *** What [scheduleJob] does to the state *)

Lemma scheduleJob_eq scan st :
  scheduleJob scan st
  = match map_get (field scan "id") (activeJobs st) with
    | Some None =>
        (Thrown "TypeError: Cannot read properties of null (reading 'cancel')", st)
    | _ => (Returned tt, rearmed scan (unscheduled (field scan "id") st))
    end.
Proof.
  unfold scheduleJob.
  match goal with
  | |- mbind ?k get_state st = _ => change (mbind k get_state st) with (k st st)
  end.
  cbv beta.
  match goal with
  | |- mbind ?f ?first st = _ =>
      assert (∀ u st1, f u st1 = (Returned tt, rearmed scan st1)) as Harm
  end.
  { intros _ st1. unfold rearmed.
    destruct (truthy (field scan "active")); [|reflexivity].
    unfold try_catch, mbind, M_bind, schedule_scheduleJob, modify, nextRun_of.
    destruct (rule_of (field scan "frequency")) as [| | | | |r| |]; try reflexivity.
    destruct (validRule r); [|reflexivity].
    cbn [jobs set_jobs set_activeJobs tick].
    rewrite list_lookup_middle by reflexivity. cbn [j_live j_rule].
    destruct (nextInvocation r (clock (tick st1))) as [t|]; [|reflexivity].
    unfold updateScheduledScanTimes.
    destruct (bind_param (field scan "id")); try reflexivity.
    cbn [scheduled_scans set_activeJobs set_jobs].
    destruct (scheduled_scans st1 !! n); reflexivity. }
  unfold mbind at 1. unfold M_bind at 1. unfold map_has, unscheduled.
  destruct (map_get (field scan "id") (activeJobs st)) as [[j|]|] eqn:Hget.
  - cbn [bool_decide decide_rel]. unfold cancel, modify.
    unfold mbind at 1. unfold M_bind at 1. cbv beta iota. apply (Harm tt).
  - reflexivity.
  - apply (Harm tt).
Qed.

Lemma filter_none {A} (P : A → Prop) `{∀ x, Decision (P x)} (l : list A) :
  (∀ x, x ∈ l → ¬ P x) → filter P l = [].
Proof.
  induction l as [|a rest IH]; intros Hno; [done|].
  rewrite filter_cons. destruct (decide (P a)) as [Ha|Ha].
  - destruct (Hno a); [by left|done].
  - apply IH. intros x Hx. apply Hno. by right.
Qed.

Lemma map_get_delete_eq k m : map_get k (map_delete k m) = None.
Proof.
  unfold map_delete. induction m as [|[k0 v0] rest IH]; [done|].
  rewrite filter_cons. cbn [fst].
  destruct (decide (k0 ≠ k)) as [Hk|Hk]; [|done].
  cbn [map_get]. by rewrite bool_decide_eq_false_2.
Qed.

Lemma map_get_None_entries id st : map_get id (activeJobs st) = None → entries id st = [].
Proof.
  intros Hnone%map_get_None_keys. apply filter_none. intros [k v] Hin Hk. cbn in Hk. subst k.
  apply Hnone, list_elem_of_fmap. by exists (id, v).
Qed.

Lemma inv_except_no_timer id st : inv_except id st → live_timers id st = [].
Proof.
  intros [_ Hlive]. apply filter_none. intros jb [j Hj]%list_elem_of_lookup [Hl Hid].
  by destruct (Hlive j jb Hj Hl).
Qed.

Lemma unscheduled_inv id st :
  scheduler_inv st → map_get id (activeJobs st) ≠ Some None →
  inv_except id (unscheduled id st) ∧ map_get id (activeJobs (unscheduled id st)) = None.
Proof.
  intros Hinv Hnn. unfold unscheduled.
  destruct (map_get id (activeJobs st)) as [[j|]|] eqn:Hget; [|done|].
  - split; [by apply clear_inv|apply map_get_delete_eq].
  - split; [by apply inv_no_entry|done].
Qed.

Lemma unscheduled_frame id st :
  tick (unscheduled id st) = tick st
  ∧ certificates (unscheduled id st) = certificates st
  ∧ scheduled_scans (unscheduled id st) = scheduled_scans st.
Proof. unfold unscheduled. by destruct (map_get id (activeJobs st)) as [[j|]|]. Qed.

Lemma rearmed_inactive scan st : truthy (field scan "active") = false → rearmed scan st = st.
Proof. unfold rearmed. by intros ->. Qed.

Lemma rearmed_rejected scan st :
  truthy (field scan "active") = true →
  (∀ r, rule_of (field scan "frequency") = VStr r → validRule r = false) →
  rearmed scan st = set_activeJobs (map_set (field scan "id") None (activeJobs st)) st.
Proof.
  intros Hact Hrej. unfold rearmed. rewrite Hact.
  destruct (rule_of (field scan "frequency")) as [| | | | |r| |]; try reflexivity.
  by rewrite (Hrej r eq_refl).
Qed.

(** What arming with an accepted rule leaves: one more job, held by the
    [Map], and the run times of the row of the scan. *)
Lemma rearmed_accepted scan r st :
  truthy (field scan "active") = true →
  rule_of (field scan "frequency") = VStr r → validRule r = true →
  jobs (rearmed scan st) = jobs st ++ [{| j_scan := scan; j_rule := r; j_live := true |}]
  ∧ activeJobs (rearmed scan st)
    = map_set (field scan "id") (Some (length (jobs st))) (activeJobs st)
  ∧ tick (rearmed scan st) = tick st
  ∧ certificates (rearmed scan st) = certificates st.
Proof.
  intros Hact Hrule Hvalid. unfold rearmed. rewrite Hact, Hrule, Hvalid.
  destruct (nextInvocation r (clock (tick st))) as [t|]; [|done].
  set (st1 := set_activeJobs _ _).
  pose proof (keeps_updateScheduledScanTimes jobs (field scan "id")
                (field scan "lastRun" ||| VNull) (VStr (toISOString t)) (λ _ _, eq_refl) st1).
  pose proof (keeps_updateScheduledScanTimes activeJobs (field scan "id")
                (field scan "lastRun" ||| VNull) (VStr (toISOString t)) (λ _ _, eq_refl) st1).
  pose proof (keeps_updateScheduledScanTimes tick (field scan "id")
                (field scan "lastRun" ||| VNull) (VStr (toISOString t)) (λ _ _, eq_refl) st1).
  pose proof (keeps_updateScheduledScanTimes certificates (field scan "id")
                (field scan "lastRun" ||| VNull) (VStr (toISOString t)) (λ _ _, eq_refl) st1).
  by split_and!.
Qed.

(** X10.  Scheduling a scan that is not active leaves no timer for it:
    its job, if it had one, is cancelled and its entry removed from the
    [Map], which is how the route that deletes a scan stops it.  The
    tables and the timers' invariant are untouched. *)
Theorem scheduleJob_inactive_unschedules scan st :
  reachable st → truthy (field scan "active") = false →
  map_get (field scan "id") (activeJobs st) ≠ Some None →
  let id := field scan "id" in
  let st' := (scheduleJob scan st).2 in
  returns (scheduleJob scan st).1 = true
  ∧ live_timers id st' = []
  ∧ entries id st' = []
  ∧ tick st' = tick st
  ∧ certificates st' = certificates st
  ∧ scheduled_scans st' = scheduled_scans st.
Proof.
  intros Hinv%reachable_inv Hact Hnn. cbv zeta. rewrite scheduleJob_eq.
  destruct (unscheduled_inv _ _ Hinv Hnn) as [Hex Hnone].
  destruct (unscheduled_frame (field scan "id") st) as (Ht & Hc & Hs).
  assert ((match map_get (field scan "id") (activeJobs st) with
           | Some None =>
               (Thrown "TypeError: Cannot read properties of null (reading 'cancel')", st)
           | _ => (Returned tt, rearmed scan (unscheduled (field scan "id") st))
           end) = (Returned tt, unscheduled (field scan "id") st)) as ->.
  { rewrite rearmed_inactive by done.
    by destruct (map_get (field scan "id") (activeJobs st)) as [[j|]|]. }
  cbn [fst snd returns]. split_and!; try done.
  - by apply inv_except_no_timer.
  - by apply map_get_None_entries.
Qed.

(** The loop of [cancelAllJobs] stops at the first entry that is [null]. *)
Lemma cancel_loop_returns es : ∀ st,
  (∀ k, (k, None) ∉ es) →
  returns (for_of es (λ entry : jsval * option nat,
                        match entry.2 with
                        | Some j => cancel j
                        | None =>
                            throw "TypeError: Cannot read properties of null (reading 'cancel')"
                        end) st).1 = true.
Proof.
  induction es as [|[k0 [j0|]] rest IH]; intros st Hnn; [done| |].
  - cbn [for_of snd]. unfold mbind, M_bind, cancel, modify. cbv beta iota.
    apply IH. intros k Hin. apply (Hnn k). by right.
  - destruct (Hnn k0). by left.
Qed.

Lemma cancel_loop_throws es : ∀ st k,
  (k, None) ∈ es →
  returns (for_of es (λ entry : jsval * option nat,
                        match entry.2 with
                        | Some j => cancel j
                        | None =>
                            throw "TypeError: Cannot read properties of null (reading 'cancel')"
                        end) st).1 = false.
Proof.
  induction es as [|[k0 [j0|]] rest IH]; intros st k Hin.
  - by apply elem_of_nil in Hin.
  - cbn [for_of snd]. unfold mbind, M_bind, cancel, modify. cbv beta iota.
    apply elem_of_cons in Hin as [[=]|Hin]. by apply (IH _ k).
  - reflexivity.
Qed.

Lemma keeps_cancel {X} (π : State → X) j :
  (∀ js st, π (set_jobs js st) = π st) → keeps π (cancel j).
Proof. intros Hπ st. apply Hπ. Qed.

Lemma keeps_cancel_loop {X} (π : State → X) es :
  (∀ js st, π (set_jobs js st) = π st) →
  keeps π (for_of es (λ entry : jsval * option nat,
                        match entry.2 with
                        | Some j => cancel j
                        | None =>
                            throw "TypeError: Cannot read properties of null (reading 'cancel')"
                        end)).
Proof.
  intros Hπ. apply keeps_for_of. intros [k [j|]]; [by apply keeps_cancel|apply keeps_throw].
Qed.

(** X11.  A scan whose rule node-schedule does not accept is not armed,
    and the failure is silent: [scheduleJob] returns, writes nothing to the
    store and leaves [null] under the identifier in the [Map].  From then
    on every [scheduleJob] for that identifier throws and changes nothing,
    so the scan cannot be armed again nor stopped through it, and
    [cancelAllJobs] and [initializeScheduler] throw as well, the [Map]
    keeping its entries. *)
Theorem scheduleJob_rejected_rule_blocks scan st :
  reachable st → truthy (field scan "active") = true →
  (∀ r, rule_of (field scan "frequency") = VStr r → validRule r = false) →
  map_get (field scan "id") (activeJobs st) ≠ Some None →
  let id := field scan "id" in
  let st' := (scheduleJob scan st).2 in
  returns (scheduleJob scan st).1 = true
  ∧ map_get id (activeJobs st') = Some None
  ∧ live_timers id st' = []
  ∧ scheduled_scans st' = scheduled_scans st
  ∧ (∀ scan', field scan' "id" = id →
       returns (scheduleJob scan' st').1 = false ∧ (scheduleJob scan' st').2 = st')
  ∧ returns (cancelAllJobs st').1 = false
  ∧ activeJobs (cancelAllJobs st').2 = activeJobs st'
  ∧ returns (initializeScheduler st').1 = false.
Proof.
  intros Hinv%reachable_inv Hact Hrej Hnn. cbv zeta. rewrite scheduleJob_eq.
  destruct (unscheduled_inv _ _ Hinv Hnn) as [Hex Hnone].
  destruct (unscheduled_frame (field scan "id") st) as (Ht & Hc & Hs).
  assert ((match map_get (field scan "id") (activeJobs st) with
           | Some None =>
               (Thrown "TypeError: Cannot read properties of null (reading 'cancel')", st)
           | _ => (Returned tt, rearmed scan (unscheduled (field scan "id") st))
           end)
          = (Returned tt,
             set_activeJobs (map_set (field scan "id") None
                               (activeJobs (unscheduled (field scan "id") st)))
               (unscheduled (field scan "id") st))) as ->.
  { rewrite rearmed_rejected by done.
    by destruct (map_get (field scan "id") (activeJobs st)) as [[j|]|]. }
  cbn [fst snd returns].
  set (st' := set_activeJobs _ _).
  assert (map_get (field scan "id") (activeJobs st') = Some None) as Hnull
    by apply map_get_set_eq.
  assert (returns (cancelAllJobs st').1 = false
          ∧ activeJobs (cancelAllJobs st').2 = activeJobs st') as [Hthrows Hkept].
  { unfold cancelAllJobs, mbind, M_bind, get_state. cbv beta iota.
    pose proof (cancel_loop_throws (activeJobs st') st' _ (map_get_Some_elem _ _ _ Hnull)) as H1.
    pose proof (keeps_cancel_loop activeJobs (activeJobs st') (λ _ _, eq_refl) st') as H2.
    destruct (for_of (activeJobs st') _ st') as [[u|msg] st2]; [done|]. by split. }
  split_and!; try done.
  - by apply inv_except_no_timer in Hex.
  - intros scan' Hid. rewrite scheduleJob_eq, Hid, Hnull. by split.
  - unfold initializeScheduler, mbind, M_bind.
    by destruct (cancelAllJobs st') as [[u|msg] st2].
Qed.

(** X12.  Arming a stored scan writes its run times: [next_run] becomes
    the next invocation of its rule, and [last_run] becomes the [lastRun]
    of the scan object or NULL when the object has none.  The object of a
    row has [last_run] and no [lastRun], so arming a scan from its row, as
    the start of the process does, erases the time of its last run. *)
Theorem scheduleJob_writes_run_times scan id row r t st :
  field scan "id" = VNum id → truthy (field scan "active") = true →
  rule_of (field scan "frequency") = VStr r → validRule r = true →
  nextInvocation r (clock (tick st)) = Some t →
  map_get (VNum id) (activeJobs st) ≠ Some None →
  scheduled_scans st !! id = Some row →
  let st' := (scheduleJob scan st).2 in
  scheduled_scans st'
  = <[id := {| r_name := r_name row; r_hosts := r_hosts row; r_ports := r_ports row;
               r_frequency := r_frequency row;
               r_last_run := bind_param (field scan "lastRun" ||| VNull);
               r_next_run := SText (toISOString t);
               r_active := r_active row |}]> (scheduled_scans st)
  ∧ (field scan "lastRun" = VUndef → r_last_run <$> scheduled_scans st' !! id = Some SNull)
  ∧ (∀ id0 row0, field (scan_object id0 row0) "lastRun" = VUndef).
Proof.
  intros Hid Hact Hrule Hvalid Hnext Hnn Hrow. cbv zeta.
  assert (scheduled_scans (scheduleJob scan st).2
          = <[id := {| r_name := r_name row; r_hosts := r_hosts row; r_ports := r_ports row;
                       r_frequency := r_frequency row;
                       r_last_run := bind_param (field scan "lastRun" ||| VNull);
                       r_next_run := SText (toISOString t);
                       r_active := r_active row |}]> (scheduled_scans st)) as Heq.
  { rewrite scheduleJob_eq, Hid.
    destruct (unscheduled_frame (VNum id) st) as (Ht & Hc & Hs).
    assert ((match map_get (VNum id) (activeJobs st) with
             | Some None =>
                 (Thrown "TypeError: Cannot read properties of null (reading 'cancel')", st)
             | _ => (Returned tt, rearmed scan (unscheduled (VNum id) st))
             end) = (Returned tt, rearmed scan (unscheduled (VNum id) st))) as ->
      by (by destruct (map_get (VNum id) (activeJobs st)) as [[j|]|]).
    cbn [snd]. unfold rearmed. rewrite Hact, Hrule, Hvalid, Ht, Hnext, Hid.
    unfold updateScheduledScanTimes. cbn [bind_param scheduled_scans set_activeJobs set_jobs].
    by rewrite Hs, Hrow. }
  split_and!.
  - exact Heq.
  - intros Hundef. by rewrite Heq, lookup_insert_eq, Hundef.
  - reflexivity.
Qed.

(** *** The scans a call of [scheduleJob] does not concern *)

Lemma own_cancel j st :
  entries_own st → entries_own (set_jobs (alter cancelled j (jobs st)) st).
Proof.
  intros Hown k j' Hget. destruct (Hown k j' Hget) as (jb & Hj & Hid). cbn.
  destruct (decide (j = j')) as [->|Hne].
  - exists (cancelled jb). by rewrite list_lookup_alter_eq, Hj.
  - exists jb. by rewrite list_lookup_alter_ne.
Qed.

Lemma own_unscheduled id st : entries_own st → entries_own (unscheduled id st).
Proof.
  intros Hown. unfold unscheduled.
  destruct (map_get id (activeJobs st)) as [[j|]|] eqn:Hget; [|done..].
  intros k j' Hk. cbn in Hk.
  destruct (decide (k = id)) as [->|Hne]; [by rewrite map_get_delete_eq in Hk|].
  rewrite map_get_delete_ne in Hk by done.
  by apply (own_cancel j st Hown).
Qed.

Lemma own_null id st :
  entries_own st → entries_own (set_activeJobs (map_set id None (activeJobs st)) st).
Proof.
  intros Hown k j Hk. cbn in Hk |- *.
  destruct (decide (k = id)) as [->|Hne]; [by rewrite map_get_set_eq in Hk|].
  rewrite map_get_set_ne in Hk by done. by apply Hown.
Qed.

Lemma own_ext st st' :
  jobs st' = jobs st → activeJobs st' = activeJobs st → entries_own st → entries_own st'.
Proof. unfold entries_own. by intros -> ->. Qed.

Lemma own_rearmed scan st : entries_own st → entries_own (rearmed scan st).
Proof.
  intros Hown.
  destruct (truthy (field scan "active")) eqn:Hact; [|by rewrite rearmed_inactive].
  destruct (rule_of (field scan "frequency")) as [| | | | |r| |] eqn:Hrule;
    try (rewrite rearmed_rejected by (done || (rewrite Hrule; by intros ? [=])); by apply own_null).
  destruct (validRule r) eqn:Hvalid.
  - destruct (rearmed_accepted scan r st Hact Hrule Hvalid) as (Hj & Ha & _).
    intros k j Hk. rewrite Ha in Hk. rewrite Hj.
    destruct (decide (k = field scan "id")) as [->|Hne].
    + rewrite map_get_set_eq in Hk. injection Hk as <-.
      eexists. split; [by apply list_lookup_middle|reflexivity].
    + rewrite map_get_set_ne in Hk by done.
      destruct (Hown k j Hk) as (jb & Hjb & Hid). exists jb. split; [|done].
      by apply lookup_app_l_Some.
  - rewrite rearmed_rejected; [by apply own_null|done|]. rewrite Hrule. by intros r' [= <-].
Qed.

Lemma scheduleJob_own scan :
  hoare entries_own (scheduleJob scan) (λ _, entries_own) entries_own.
Proof.
  intros st Hown. rewrite scheduleJob_eq.
  destruct (map_get (field scan "id") (activeJobs st)) as [[j|]|]; [|done|];
    by apply own_rearmed, own_unscheduled.
Qed.

Lemma cancelAllJobs_own :
  hoare entries_own cancelAllJobs (λ _, entries_own) entries_own.
Proof.
  unfold cancelAllJobs.
  eapply hoare_bind; [apply hoare_get_state|]. intros s.
  eapply hoare_bind with (Q' := λ _, entries_own).
  - eapply hoare_consequence with (P' := entries_own) (Q' := λ _, entries_own)
                                  (R' := entries_own); [|by intros ? [_ ?]|done..].
    apply hoare_for_of. intros [k [j|]].
    + intros st Hown. by apply own_cancel.
    + by apply hoare_throw.
  - intros ? st _. by intros k j Hk.
Qed.

Lemma initializeScheduler_own :
  hoare entries_own initializeScheduler (λ _, entries_own) entries_own.
Proof.
  unfold initializeScheduler.
  eapply hoare_bind; [apply cancelAllJobs_own|]. intros ?.
  eapply hoare_try_catch; [|intros msg; by apply hoare_ret].
  eapply hoare_bind with (Q' := λ _, entries_own).
  - by intros st Hown.
  - intros scans. apply hoare_for_of. intros scan.
    destruct (truthy (field scan "active")); [apply scheduleJob_own|by apply hoare_ret].
Qed.

Lemma reachable_own st : reachable st → entries_own st.
Proof.
  induction 1 as [st Hjobs Hact|st st' _ IH Hstep].
  - intros k j Hk. by rewrite Hact in Hk.
  - destruct Hstep.
    + by apply hoare_snd; [apply scheduleJob_own|].
    + by apply hoare_snd; [apply cancelAllJobs_own|].
    + by apply hoare_snd; [apply initializeScheduler_own|].
    + apply (own_ext st); [| |done].
      * by apply (keeps_fire jobs).
      * by apply (keeps_fire activeJobs).
    + apply (own_ext st); [| |done].
      * by apply (keeps_runScanNow jobs).
      * by apply (keeps_runScanNow activeJobs).
    + apply (own_ext st); [| |done].
      * by apply (keeps_api_scan jobs).
      * by apply (keeps_api_scan activeJobs).
    + by apply (own_ext st).
Qed.

Lemma filter_alter_none {A} (P : A → Prop) `{∀ x, Decision (P x)} (f : A → A) (l : list A) :
  ∀ j, (∀ x, l !! j = Some x → ¬ P x ∧ ¬ P (f x)) → filter P (alter f j l) = filter P l.
Proof.
  induction l as [|a rest IH]; intros j Hx; [done|].
  destruct j as [|j]; cbn [alter list_alter].
  - destruct (Hx a eq_refl) as [Ha Hfa]. rewrite !filter_cons.
    destruct (decide (P (f a))); [done|]. by destruct (decide (P a)).
  - rewrite !filter_cons, IH; [done|]. intros x Hj. by apply Hx.
Qed.

Lemma entries_delete_other k k' (m : list (jsval * option nat)) :
  k' ≠ k → filter (λ e, e.1 = k') (map_delete k m) = filter (λ e, e.1 = k') m.
Proof.
  intros Hne. unfold map_delete. induction m as [|[k0 v0] rest IH]; [done|].
  rewrite (filter_cons (λ e, e.1 ≠ k)). cbn [fst].
  destruct (decide (k0 ≠ k)) as [Hk|Hk].
  - rewrite !filter_cons. cbn [fst]. by rewrite IH.
  - apply dec_stable in Hk as ->. rewrite IH, filter_cons. cbn [fst].
    by destruct (decide (k = k')).
Qed.

Lemma entries_set_other k k' v (m : list (jsval * option nat)) :
  k' ≠ k → filter (λ e, e.1 = k') (map_set k v m) = filter (λ e, e.1 = k') m.
Proof.
  intros Hne. induction m as [|[k0 v0] rest IH]; cbn [map_set].
  - rewrite filter_cons. cbn [fst]. by destruct (decide (k = k')).
  - destruct (decide (k0 = k)) as [->|Hk].
    + rewrite bool_decide_eq_true_2 by done. rewrite !filter_cons. cbn [fst].
      by destruct (decide (k = k')).
    + rewrite bool_decide_eq_false_2 by done. rewrite !filter_cons. cbn [fst].
      by rewrite IH.
Qed.

Lemma unscheduled_other id id' st :
  entries_own st → id' ≠ id →
  live_timers id' (unscheduled id st) = live_timers id' st
  ∧ entries id' (unscheduled id st) = entries id' st.
Proof.
  intros Hown Hne. unfold unscheduled.
  destruct (map_get id (activeJobs st)) as [[j|]|] eqn:Hget; [|done..].
  destruct (Hown id j Hget) as (jb & Hj & Hid). split.
  - unfold live_timers. cbn [jobs set_jobs set_activeJobs].
    apply filter_alter_none. intros x Hx. rewrite Hj in Hx. injection Hx as <-.
    split; intros [_ H]; apply Hne; by rewrite <- H.
  - unfold entries. cbn [activeJobs set_activeJobs]. by apply entries_delete_other.
Qed.

Lemma rearmed_other scan id' st :
  id' ≠ field scan "id" →
  live_timers id' (rearmed scan st) = live_timers id' st
  ∧ entries id' (rearmed scan st) = entries id' st.
Proof.
  intros Hne.
  assert (∀ v, live_timers id' (set_activeJobs (map_set (field scan "id") v (activeJobs st)) st)
               = live_timers id' st
               ∧ entries id' (set_activeJobs (map_set (field scan "id") v (activeJobs st)) st)
                 = entries id' st) as Hnull.
  { intros v. split; [reflexivity|]. unfold entries. cbn [activeJobs set_activeJobs].
    by apply entries_set_other. }
  destruct (truthy (field scan "active")) eqn:Hact; [|by rewrite rearmed_inactive].
  destruct (rule_of (field scan "frequency")) as [| | | | |r| |] eqn:Hrule;
    try (rewrite rearmed_rejected by (done || (rewrite Hrule; by intros ? [=])); by apply Hnull).
  destruct (validRule r) eqn:Hvalid.
  - destruct (rearmed_accepted scan r st Hact Hrule Hvalid) as (Hj & Ha & _).
    unfold live_timers, entries. rewrite Hj, Ha. split.
    + rewrite filter_app, filter_cons, filter_nil.
      destruct (decide _) as [[_ Hid]|_]; [|by rewrite app_nil_r].
      destruct Hne. by rewrite <- Hid.
    + by apply entries_set_other.
  - rewrite rearmed_rejected; [by apply Hnull|done|]. rewrite Hrule. by intros r' [= <-].
Qed.

Lemma rearmed_rows scan n st :
  bind_param (field scan "id") ≠ SInt n →
  scheduled_scans (rearmed scan st) !! n = scheduled_scans st !! n.
Proof.
  intros Hne. unfold rearmed.
  destruct (truthy (field scan "active")); [|done].
  destruct (rule_of (field scan "frequency")) as [| | | | |r| |]; try done.
  destruct (validRule r); [|done].
  destruct (nextInvocation r (clock (tick st))) as [t|]; [|done].
  unfold updateScheduledScanTimes.
  destruct (bind_param (field scan "id")) as [|m|]; try done.
  cbn [scheduled_scans set_activeJobs set_jobs].
  destruct (scheduled_scans st !! m); [|done].
  cbn. apply lookup_insert_ne. congruence.
Qed.

Lemma rearmed_frame scan st :
  tick (rearmed scan st) = tick st ∧ certificates (rearmed scan st) = certificates st.
Proof.
  unfold rearmed.
  destruct (truthy (field scan "active")); [|done].
  destruct (rule_of (field scan "frequency")) as [| | | | |r| |]; try done.
  destruct (validRule r); [|done].
  destruct (nextInvocation r (clock (tick st))) as [t|]; [|done].
  unfold updateScheduledScanTimes.
  destruct (bind_param (field scan "id")) as [|m|]; try done.
  cbn [scheduled_scans set_activeJobs set_jobs].
  by destruct (scheduled_scans st !! m).
Qed.

(** X13.  [scheduleJob] concerns one identifier.  Whatever the scan and
    whether the call returns or throws, the live timers and the [Map]
    entries of every other identifier are what they were, the rows of the
    other scans are untouched, and so are the certificates. *)
Theorem scheduleJob_leaves_other_scans scan st :
  reachable st →
  let st' := (scheduleJob scan st).2 in
  (∀ id', id' ≠ field scan "id" →
     live_timers id' st' = live_timers id' st ∧ entries id' st' = entries id' st)
  ∧ (∀ n, bind_param (field scan "id") ≠ SInt n →
       scheduled_scans st' !! n = scheduled_scans st !! n)
  ∧ certificates st' = certificates st
  ∧ tick st' = tick st.
Proof.
  intros Hown%reachable_own. cbv zeta. rewrite scheduleJob_eq.
  destruct (unscheduled_frame (field scan "id") st) as (Ht & Hc & Hs).
  destruct (rearmed_frame scan (unscheduled (field scan "id") st)) as (Ht' & Hc').
  assert (∀ id', id' ≠ field scan "id" →
            live_timers id' (rearmed scan (unscheduled (field scan "id") st))
            = live_timers id' st
            ∧ entries id' (rearmed scan (unscheduled (field scan "id") st))
              = entries id' st) as Hother.
  { intros id' Hne.
    destruct (rearmed_other scan id' (unscheduled (field scan "id") st) Hne) as [-> ->].
    by apply unscheduled_other. }
  assert (∀ n, bind_param (field scan "id") ≠ SInt n →
            scheduled_scans (rearmed scan (unscheduled (field scan "id") st)) !! n
            = scheduled_scans st !! n) as Hrows.
  { intros n Hne. by rewrite rearmed_rows, Hs. }
  destruct (map_get (field scan "id") (activeJobs st)) as [[j|]|]; cbn [snd];
    split_and!; try done; congruence.
Qed.

(** *** Stopping and starting every timer *)

Lemma cancelAllJobs_clears st :
  scheduler_inv st → (∀ k, (k, None) ∉ activeJobs st) →
  returns (cancelAllJobs st).1 = true
  ∧ activeJobs (cancelAllJobs st).2 = []
  ∧ (∀ j jb, jobs (cancelAllJobs st).2 !! j = Some jb → j_live jb = false)
  ∧ tick (cancelAllJobs st).2 = tick st
  ∧ certificates (cancelAllJobs st).2 = certificates st
  ∧ scheduled_scans (cancelAllJobs st).2 = scheduled_scans st.
Proof.
  intros Hinv Hnn.
  unfold cancelAllJobs, mbind, M_bind, get_state. cbv beta iota.
  pose proof (cancel_entries (activeJobs st) st Hinv) as Hloop.
  pose proof (cancel_loop_returns (activeJobs st) st Hnn) as Hret.
  pose proof (keeps_cancel_loop tick (activeJobs st) (λ _ _, eq_refl) st) as Kt.
  pose proof (keeps_cancel_loop certificates (activeJobs st) (λ _ _, eq_refl) st) as Kc.
  pose proof (keeps_cancel_loop scheduled_scans (activeJobs st) (λ _ _, eq_refl) st) as Ks.
  destruct (for_of (activeJobs st) _ st) as [[u|msg] st1]; [|done].
  destruct Hloop as (Hinv1 & Hact & Hlive). unfold modify. cbn [fst snd returns] in *.
  split_and!; try done.
  intros j jb Hj. destruct (j_live jb) eqn:Hl; [|done]. exfalso.
  destruct (Hlive j jb Hj Hl) as [Hj0 Hnotin].
  destruct Hinv as [_ Hreg]. specialize (Hreg j jb Hj0 Hl).
  by apply map_get_Some_elem, Hnotin in Hreg.
Qed.

(** X14.  When no entry of the [Map] is [null], [cancelAllJobs] returns,
    empties the [Map] and leaves no live timer at all; it writes nothing
    to the store. *)
Theorem cancelAllJobs_stops_every_timer st :
  reachable st → (∀ k, (k, None) ∉ activeJobs st) →
  let st' := (cancelAllJobs st).2 in
  returns (cancelAllJobs st).1 = true
  ∧ activeJobs st' = []
  ∧ Forall (λ jb, j_live jb = false) (jobs st')
  ∧ (∀ id, live_timers id st' = [] ∧ entries id st' = [])
  ∧ tick st' = tick st
  ∧ certificates st' = certificates st
  ∧ scheduled_scans st' = scheduled_scans st.
Proof.
  intros Hinv%reachable_inv Hnn. cbv zeta.
  destruct (cancelAllJobs_clears st Hinv Hnn) as (Hret & Hact & Hdead & Ht & Hc & Hs).
  split_and!; try done.
  - apply Forall_lookup. intros j jb Hj. by apply (Hdead j).
  - intros id. split.
    + apply filter_none. intros jb [j Hj]%list_elem_of_lookup [Hl _].
      by rewrite (Hdead j jb Hj) in Hl.
    + unfold entries. by rewrite Hact.
Qed.

Lemma scan_object_timer_fields id row :
  field (scan_object id row) "id" = VNum id
  ∧ field (scan_object id row) "active" = VBool (truthy (column (r_active row)))
  ∧ field (scan_object id row) "frequency" = column (r_frequency row).
Proof. split_and!; reflexivity. Qed.

Lemma armed_from_ext rows st st' :
  jobs st' = jobs st → activeJobs st' = activeJobs st →
  armed_from rows st → armed_from rows st'.
Proof. unfold armed_from, armed. by intros -> ->. Qed.

Lemma turn_skipped done id row st :
  armed_from done st → truthy (column (r_active row)) = false →
  armed_from (done ++ [(id, row)]) st.
Proof.
  intros (Hkeys & Harmed & Hlive) Hoff. split_and!.
  - intros k Hk. destruct (Hkeys k Hk) as (id' & row' & Hin & ->). exists id', row'.
    split; [|done]. apply elem_of_app. by left.
  - intros id' row' r' [Hin|Hin%list_elem_of_singleton]%elem_of_app Ha' Hr' Hv'.
    + by apply (Harmed id' row' r').
    + injection Hin as -> ->. congruence.
  - intros j jb Hjb Hl. destruct (Hlive j jb Hjb Hl) as (id' & row' & Hin & Hjid & Ha').
    exists id', row'. split_and!; try done. apply elem_of_app. by left.
Qed.

Lemma turn_rejected done id row st :
  armed_from done st → id ∉ done.*1 →
  (∀ r, rule_of (column (r_frequency row)) = VStr r → validRule r = false) →
  armed_from (done ++ [(id, row)])
    (set_activeJobs (map_set (VNum id) None (activeJobs st)) st).
Proof.
  intros (Hkeys & Harmed & Hlive) Hfresh Hrej. split_and!.
  - intros k Hk. cbn in Hk. apply map_set_keys in Hk as [->|Hk].
    + exists id, row. split; [|done]. apply elem_of_app. right. by left.
    + destruct (Hkeys k Hk) as (id' & row' & Hin & ->). exists id', row'.
      split; [|done]. apply elem_of_app. by left.
  - intros id' row' r' [Hin|Hin%list_elem_of_singleton]%elem_of_app Ha' Hr' Hv'.
    + destruct (Harmed id' row' r' Hin Ha' Hr' Hv') as (j & jb & Hget & Hjb & Hl & Hjid).
      exists j, jb. cbn. split_and!; try done.
      rewrite map_get_set_ne; [done|]. intros [= ->].
      apply Hfresh, list_elem_of_fmap. by exists (id, row').
    + injection Hin as -> ->. rewrite (Hrej r' Hr') in Hv'. done.
  - intros j jb Hjb Hl. cbn in Hjb.
    destruct (Hlive j jb Hjb Hl) as (id' & row' & Hin & Hjid & Ha').
    exists id', row'. split_and!; try done. apply elem_of_app. by left.
Qed.

Lemma turn_accepted done id row r st st' :
  armed_from done st → id ∉ done.*1 → truthy (column (r_active row)) = true →
  jobs st' = jobs st ++ [{| j_scan := scan_object id row; j_rule := r; j_live := true |}] →
  activeJobs st' = map_set (VNum id) (Some (length (jobs st))) (activeJobs st) →
  armed_from (done ++ [(id, row)]) st'.
Proof.
  intros (Hkeys & Harmed & Hlive) Hfresh Hon Hj Ha. split_and!.
  - intros k Hk. rewrite Ha in Hk. apply map_set_keys in Hk as [->|Hk].
    + exists id, row. split; [|done]. apply elem_of_app. right. by left.
    + destruct (Hkeys k Hk) as (id' & row' & Hin & ->). exists id', row'.
      split; [|done]. apply elem_of_app. by left.
  - intros id' row' r' [Hin|Hin%list_elem_of_singleton]%elem_of_app Ha' Hr' Hv'.
    + destruct (Harmed id' row' r' Hin Ha' Hr' Hv') as (j & jb & Hget & Hjb & Hl & Hjid).
      exists j, jb. rewrite Ha, Hj. split_and!; try done.
      * rewrite map_get_set_ne; [done|]. intros [= ->].
        apply Hfresh, list_elem_of_fmap. by exists (id, row').
      * by apply lookup_app_l_Some.
    + injection Hin as -> ->. eexists _, _. rewrite Ha, Hj. split_and!.
      * apply map_get_set_eq.
      * by apply list_lookup_middle.
      * reflexivity.
      * reflexivity.
  - intros j jb Hjb Hl. rewrite Hj in Hjb.
    apply lookup_snoc_Some in Hjb as [[_ Hjb]|[_ <-]].
    + destruct (Hlive j jb Hjb Hl) as (id' & row' & Hin & Hjid & Ha').
      exists id', row'. split_and!; try done. apply elem_of_app. by left.
    + exists id, row. split_and!; try done. apply elem_of_app. right. by left.
Qed.

(** One turn of the loop of [initializeScheduler], on a row the loop has
    not met. *)
Lemma initialize_turn done id row st :
  id ∉ done.*1 → armed_from done st →
  let run := (if truthy (field (scan_object id row) "active")
              then scheduleJob (scan_object id row) else mret tt) st in
  returns run.1 = true ∧ armed_from (done ++ [(id, row)]) run.2.
Proof.
  intros Hfresh Hfrom. cbv zeta.
  destruct (scan_object_timer_fields id row) as (Hid & Hact & Hfreq).
  assert (map_get (VNum id) (activeJobs st) = None) as Hnone.
  { destruct Hfrom as (Hkeys & _).
    destruct (map_get (VNum id) (activeJobs st)) as [v|] eqn:Hget; [|done]. exfalso.
    apply map_get_Some_elem in Hget.
    destruct (Hkeys (VNum id)) as (id' & row' & Hin & [= <-]).
    - apply list_elem_of_fmap. by exists (VNum id, v).
    - apply Hfresh, list_elem_of_fmap. by exists (id, row'). }
  rewrite Hact. cbn [truthy].
  destruct (truthy (column (r_active row))) eqn:Hactive;
    [|split; [done|by apply turn_skipped]].
  rewrite scheduleJob_eq, Hid, Hnone. cbn [fst snd returns]. split; [done|].
  unfold unscheduled. rewrite Hnone.
  assert (truthy (field (scan_object id row) "active") = true) as Hact'
    by (by rewrite Hact).
  assert (∀ r, rule_of (column (r_frequency row)) = VStr r → validRule r = false →
          armed_from (done ++ [(id, row)]) (rearmed (scan_object id row) st)) as Hrejected.
  { intros r Hrule Hvalid. rewrite rearmed_rejected, Hid; [|done|].
    - apply turn_rejected; try done. intros r'. rewrite Hrule. by intros [= <-].
    - intros r'. rewrite Hfreq, Hrule. by intros [= <-]. }
  destruct (rule_of (column (r_frequency row))) as [| | | | |r| |] eqn:Hrule.
  6: { destruct (validRule r) eqn:Hvalid; [|by apply (Hrejected r)].
       destruct (rearmed_accepted (scan_object id row) r st Hact') as (Hj & Ha & _);
         [by rewrite Hfreq|done|].
       rewrite Hid in Ha. by apply (turn_accepted done id row r st). }
  all: rewrite rearmed_rejected, Hid; [|done|rewrite Hfreq, Hrule; by intros ? [=]].
  all: apply turn_rejected; try done; rewrite Hrule; by intros ? [=].
Qed.

Lemma initialize_loop rows : ∀ done st,
  NoDup (done ++ rows).*1 → armed_from done st →
  let run := for_of ((λ kv : Z * scan_row, scan_object kv.1 kv.2) <$> rows)
               (λ scan, if truthy (field scan "active") then scheduleJob scan else mret tt)
               st in
  returns run.1 = true ∧ armed_from (done ++ rows) run.2.
Proof.
  induction rows as [|[id row] rest IH]; intros done st Hnd Hfrom; cbv zeta.
  - cbn. by rewrite app_nil_r.
  - rewrite fmap_cons. cbn [for_of fst snd]. unfold mbind, M_bind.
    assert (id ∉ done.*1) as Hfresh.
    { rewrite fmap_app, fmap_cons in Hnd. apply NoDup_app in Hnd as (_ & Hdisj & _).
      intros Hin. apply (Hdisj id Hin). by left. }
    destruct (initialize_turn done id row st Hfresh Hfrom) as [Hret Hfrom'].
    destruct ((if truthy (field (scan_object id row) "active")
               then scheduleJob (scan_object id row) else mret tt) st) as [[u|msg] st1];
      [|done].
    cbn [snd] in Hfrom'.
    specialize (IH (done ++ [(id, row)]) st1).
    rewrite <- app_assoc in IH. cbn [app] in IH. by apply IH.
Qed.

(** X15.  From a state whose [Map] holds no [null], [initializeScheduler]
    returns and arms the stored scans: every scan that is stored as active
    with a rule node-schedule accepts has exactly one live timer, held
    under its identifier in the [Map], and every live job runs a scan that
    is stored as active; a scan whose rule is not accepted does not keep
    the others from being armed. *)
Theorem initializeScheduler_arms_active_scans st :
  reachable st → (∀ k, (k, None) ∉ activeJobs st) →
  let st' := (initializeScheduler st).2 in
  returns (initializeScheduler st).1 = true
  ∧ (∀ id row r, scheduled_scans st !! id = Some row →
       truthy (column (r_active row)) = true →
       rule_of (column (r_frequency row)) = VStr r → validRule r = true →
       armed (VNum id) st'
       ∧ length (entries (VNum id) st') = 1%nat
       ∧ length (live_timers (VNum id) st') = 1%nat)
  ∧ (∀ j jb, jobs st' !! j = Some jb → j_live jb = true →
       ∃ id row, job_id jb = VNum id ∧ scheduled_scans st !! id = Some row
                 ∧ truthy (column (r_active row)) = true).
Proof.
  intros Hreach Hnn. cbv zeta.
  assert (scheduler_inv (initializeScheduler st).2) as Hinv1.
  { apply reachable_inv. eapply reachable_step; [exact Hreach|].
    apply step_initializeScheduler. }
  apply reachable_inv in Hreach.
  destruct (cancelAllJobs_clears st Hreach Hnn) as (Hret0 & Hact0 & Hdead0 & _ & _ & Hs0).
  revert Hinv1. unfold initializeScheduler, mbind, M_bind.
  destruct (cancelAllJobs st) as [[u|msg] st0]; [|done]. cbn [snd] in *.
  unfold try_catch, getAllScheduledScans. cbv beta iota.
  assert (armed_from [] st0) as Hfrom.
  { split_and!.
    - intros k Hk. rewrite Hact0 in Hk. by apply elem_of_nil in Hk.
    - intros id row r Hin. by apply elem_of_nil in Hin.
    - intros j jb Hj Hl. by rewrite (Hdead0 j jb Hj) in Hl. }
  pose proof (initialize_loop (map_to_list (scheduled_scans st0)) [] st0
                (NoDup_fst_map_to_list _) Hfrom) as [Hret Hfrom'].
  cbn [app] in Hfrom'.
  destruct (for_of _ _ st0) as [[u'|msg] st1]; [|done]. cbn [fst snd returns] in *.
  intros Hinv1. destruct Hfrom' as (Hkeys & Harmed & Hlive).
  split_and!; [done| |].
  - intros id row r Hrow Ha Hr Hv.
    assert (armed (VNum id) st1) as Harm.
    { apply (Harmed id row r); try done. apply elem_of_map_to_list. by rewrite Hs0. }
    split; [done|]. by apply armed_exactly_one.
  - intros j jb Hj Hl. destruct (Hlive j jb Hj Hl) as (id & row & Hin & Hjid & Ha).
    exists id, row. split_and!; try done.
    apply elem_of_map_to_list in Hin. by rewrite <- Hs0.
Qed.

(** *** The runs of a scan *)

Lemma save_all_eq results : ∀ st,
  Forall has_target results →
  for_of results saveCertificate st
  = (Returned tt,
     set_certificates
       (foldl (λ table r, <[target_of r := cert_row_of r]> table) (certificates st) results)
       st).
Proof.
  induction results as [|r rest IH]; intros st Hall.
  - by destruct st.
  - apply Forall_cons in Hall as [Hr Hrest]. cbn [for_of foldl]. unfold mbind, M_bind.
    rewrite (saveCertificate_target _ _ Hr), (IH _ Hrest). reflexivity.
Qed.

(** The row under the pair of a result that no later result shares is the
    row of that result. *)
Lemma foldl_insert_lookup_last (l : list obj) :
  ∀ (table : gmap (sqlval * sqlval) cert_row) i r,
  l !! i = Some r →
  (∀ i' r', (i < i')%nat → l !! i' = Some r' → target_of r' ≠ target_of r) →
  foldl (λ table r, <[target_of r := cert_row_of r]> table) table l !! target_of r
  = Some (cert_row_of r).
Proof.
  induction l as [|a rest IH]; intros table i r Hi Hlast; [done|].
  destruct i as [|i]; cbn in Hi; cbn [foldl].
  - injection Hi as ->. rewrite foldl_insert_lookup_ne.
    + apply lookup_insert_eq.
    + intros r' [j Hj]%list_elem_of_lookup. apply (Hlast (S j)); [lia|done].
  - apply (IH _ i); [done|]. intros i' r' Hlt Hi'. apply (Hlast (S i')); [lia|done].
Qed.

Lemma attempt_error host port timeout st :
  field (attempt host port timeout st) "status" = VStr "error" →
  ∃ message t, attempt host port timeout st = error_record host (VNum port) message t.
Proof.
  unfold attempt.
  destruct (getCertificate host port timeout st) as [[certificate|message] st1] eqn:Hget;
    cbn [fst].
  - rewrite (getCertificate_status _ _ _ _ _ _ Hget). discriminate.
  - intros _. by eexists _, _.
Qed.

Lemma attempts_error host timeout ports : ∀ st r,
  r ∈ attempts host timeout ports st → field r "status" = VStr "error" →
  ∃ port message t, r = error_record host (VNum port) message t.
Proof.
  induction ports as [|p rest IH]; intros st r Hin Herr; cbn [attempts] in Hin.
  - by apply elem_of_nil in Hin.
  - apply elem_of_cons in Hin as [->|Hin].
    + destruct (attempt_error _ _ _ _ Herr) as (message & t & ->). by eexists _, _, _.
    + by apply (IH _ _ Hin).
Qed.

Lemma all_attempts_error timeout hosts ports : ∀ st r,
  r ∈ all_attempts timeout hosts ports st → field r "status" = VStr "error" →
  ∃ host port message t, r = error_record host (VNum port) message t.
Proof.
  induction hosts as [|h rest IH]; intros st r Hin Herr; cbn [all_attempts] in Hin.
  - by apply elem_of_nil in Hin.
  - apply elem_of_app in Hin as [Hin|Hin].
    + destruct (attempts_error _ _ _ _ _ Hin Herr) as (port & message & t & ->).
      by eexists _, _, _, _.
    + by apply (IH _ _ Hin).
Qed.

Lemma runScanNow_eq scanId row hosts ports st :
  scheduled_scans st !! scanId = Some row →
  r_hosts row = VStrs hosts → r_ports row = VNums ports →
  let results := all_attempts 5000 hosts ports st in
  let st1 := set_certificates
               (foldl (λ table r, <[target_of r := cert_row_of r]> table)
                  (certificates st) results)
               (set_tick (tick st + length hosts * length ports) st) in
  runScanNow scanId st
  = (Returned results,
     set_scheduled_scans
       (<[scanId := {| r_name := r_name row; r_hosts := r_hosts row; r_ports := r_ports row;
                       r_frequency := r_frequency row;
                       r_last_run := SText (toISOString (clock (tick st1)));
                       r_next_run := SNull;
                       r_active := r_active row |}]> (scheduled_scans st)) st1).
Proof.
  intros Hrow Hhosts Hports. cbv zeta.
  unfold runScanNow. unfold mbind at 1. unfold M_bind at 1.
  unfold getScheduledScanById. rewrite Hrow. cbn [fmap option_fmap option_map].
  destruct (scan_object_fields scanId row) as (Hid & Hh & Hp & _ & Hn).
  rewrite Hid, Hh, Hp, Hn, Hhosts, Hports. cbn [hosts_of ports_of].
  unfold mbind, M_bind. cbn [mret M_ret].
  rewrite scanHosts_eq, save_all_eq by apply all_attempts_have_target.
  unfold Date_now, updateScheduledScanTimes. cbn [bind_param scheduled_scans set_certificates
    set_tick]. by rewrite Hrow, Hhosts, Hports.
Qed.

(** X16.  A manual run of a stored scan whose hosts and ports are arrays
    returns the records of the batch and saves every one of them, the
    [error] records too.  The row of a pair is that of its last record,
    so that a probe that fails replaces the certificate stored for its
    pair by a row that holds the status ['error'] and the time of the scan
    and nothing of the certificate. *)
Theorem runScanNow_saves_every_result scanId row hosts ports st :
  scheduled_scans st !! scanId = Some row →
  r_hosts row = VStrs hosts → r_ports row = VNums ports →
  let st' := (runScanNow scanId st).2 in
  ∃ results,
    (scanHosts hosts ports 5000 st).1 = Returned results
    ∧ (runScanNow scanId st).1 = Returned results
    ∧ tick st' = (tick st + length hosts * length ports)%nat
    ∧ certificates st'
      = foldl (λ table r, <[target_of r := cert_row_of r]> table) (certificates st) results
    ∧ (∀ i r, results !! i = Some r →
         (∀ i' r', (i < i')%nat → results !! i' = Some r' → target_of r' ≠ target_of r) →
         certificates st' !! target_of r = Some (cert_row_of r))
    ∧ (∀ r, r ∈ results → field r "status" = VStr "error" →
         ∃ t, cert_row_of r
              = {| c_subject := SNull; c_issuer := SNull; c_valid_from := SNull;
                   c_valid_to := SNull; c_fingerprint := SNull;
                   c_signature_algorithm := SNull; c_self_signed := SInt 0;
                   c_status := SText "error"; c_last_scanned := SText t;
                   c_days_remaining := SNull |}).
Proof.
  intros Hrow Hhosts Hports. cbv zeta.
  rewrite (runScanNow_eq _ _ _ _ _ Hrow Hhosts Hports), scanHosts_eq. cbn [fst snd].
  eexists. split_and!; try reflexivity.
  - intros i r Hi Hlast. cbn [certificates set_scheduled_scans set_certificates].
    by apply (foldl_insert_lookup_last _ _ i).
  - intros r Hin Herr.
    destruct (all_attempts_error _ _ _ _ _ Hin Herr) as (host & port & message & t & ->).
    by exists t.
Qed.

Lemma try_catch_returns {A} (m : M A) handler st :
  (∀ msg st1, returns (handler msg st1).1 = true) →
  returns (try_catch m handler st).1 = true.
Proof.
  intros Hh. unfold try_catch. destruct (m st) as [[a|msg] st1]; [done|apply Hh].
Qed.

(** X17.  The callback of a job never throws, whatever its scan holds and
    whatever fails in it, and it leaves the jobs and the [Map] as they
    are. *)
Theorem fire_never_throws j st :
  returns (fire j st).1 = true
  ∧ jobs (fire j st).2 = jobs st
  ∧ activeJobs (fire j st).2 = activeJobs st.
Proof.
  split_and!.
  - unfold fire, mbind at 1. unfold M_bind at 1. unfold get_state.
    destruct (jobs st !! j) as [jb|]; [|done].
    destruct (j_live jb); [|done]. by apply try_catch_returns.
  - by apply (keeps_fire jobs).
  - by apply (keeps_fire activeJobs).
Qed.

Lemma fire_eq j jb hosts ports st :
  jobs st !! j = Some jb → j_live jb = true →
  field (j_scan jb) "hosts" = VStrs hosts → field (j_scan jb) "ports" = VNums ports →
  let results := all_attempts 5000 hosts ports st in
  let st1 := set_certificates
               (foldl (λ table r, <[target_of r := cert_row_of r]> table)
                  (certificates st) results)
               (set_tick (tick st + length hosts * length ports) st) in
  fire j st
  = (Returned tt,
     match nextInvocation (j_rule jb) (clock (tick st1)) with
     | Some t =>
         (updateScheduledScanTimes (field (j_scan jb) "id")
            (VStr (toISOString (clock (tick st1)))) (VStr (toISOString t)) st1).2
     | None => st1
     end).
Proof.
  intros Hj Hl Hhosts Hports. cbv zeta.
  unfold fire. unfold mbind at 1. unfold M_bind at 1. unfold get_state.
  rewrite Hj, Hl, Hhosts, Hports. cbn [hosts_of ports_of].
  unfold try_catch, mbind, M_bind. cbn [mret M_ret].
  rewrite scanHosts_eq, save_all_eq by apply all_attempts_have_target.
  unfold Date_now, nextRun_of. cbn [jobs set_certificates set_tick tick].
  rewrite Hj, Hl.
  destruct (nextInvocation (j_rule jb) _) as [t|]; [|reflexivity].
  by destruct (updateScheduledScanTimes _ _ _ _) as [[b|msg] st2].
Qed.

(** X18.  When the timer of a live job fires, its scan, whose hosts and
    ports are arrays, is run as a batch and every record is saved, the
    [error] records too; then the row of the scan, if it is still stored,
    gets the time of the run as [last_run] and the next invocation of the
    rule as [next_run]. *)
Theorem fire_saves_and_stamps j jb hosts ports id st :
  jobs st !! j = Some jb → j_live jb = true →
  field (j_scan jb) "hosts" = VStrs hosts → field (j_scan jb) "ports" = VNums ports →
  field (j_scan jb) "id" = VNum id →
  let st' := (fire j st).2 in
  ∃ results,
    (scanHosts hosts ports 5000 st).1 = Returned results
    ∧ tick st' = (tick st + length hosts * length ports)%nat
    ∧ certificates st'
      = foldl (λ table r, <[target_of r := cert_row_of r]> table) (certificates st) results
    ∧ (∀ row t, scheduled_scans st !! id = Some row →
         nextInvocation (j_rule jb) (clock (tick st')) = Some t →
         scheduled_scans st'
         = <[id := {| r_name := r_name row; r_hosts := r_hosts row; r_ports := r_ports row;
                      r_frequency := r_frequency row;
                      r_last_run := SText (toISOString (clock (tick st')));
                      r_next_run := SText (toISOString t);
                      r_active := r_active row |}]> (scheduled_scans st))
    ∧ (scheduled_scans st !! id = None → scheduled_scans st' = scheduled_scans st).
Proof.
  intros Hj Hl Hhosts Hports Hid. cbv zeta.
  rewrite (fire_eq _ _ _ _ _ Hj Hl Hhosts Hports), scanHosts_eq, Hid. cbn [fst snd].
  set (st1 := set_certificates _ _).
  set (st2 := match nextInvocation (j_rule jb) (clock (tick st1)) with
              | Some t => _
              | None => st1
              end).
  assert (tick st2 = tick st1 ∧ certificates st2 = certificates st1) as [Ht2 Hc2].
  { unfold st2. destruct (nextInvocation (j_rule jb) (clock (tick st1))) as [t|]; [|done].
    split.
    - by apply (keeps_updateScheduledScanTimes tick).
    - by apply (keeps_updateScheduledScanTimes certificates). }
  assert (scheduled_scans st1 = scheduled_scans st) as Hs by reflexivity.
  eexists. split; [reflexivity|]. rewrite Ht2, Hc2. split_and!; try reflexivity.
  - intros row t Hrow Hnext. unfold st2. rewrite Hnext.
    unfold updateScheduledScanTimes. cbn [bind_param]. by rewrite Hs, Hrow.
  - intros Hnone. unfold st2.
    destruct (nextInvocation (j_rule jb) (clock (tick st1))) as [t|]; [|done].
    unfold updateScheduledScanTimes. cbn [bind_param]. by rewrite Hs, Hnone.
Qed.

(** *** The jobs that are listed *)

Lemma activeJobs_info_spec es : ∀ infos st,
  (activeJobs_info es infos st).2 = st
  ∧ match (activeJobs_info es infos st).1 with
    | Returned out =>
        ∃ new, out = infos ++ new
               ∧ Forall2 (λ (e : jsval * option nat) o,
                            field o "id" = e.1
                            ∧ ∃ j jb t, e.2 = Some j ∧ jobs st !! j = Some jb
                                        ∧ j_live jb = true
                                        ∧ nextInvocation (j_rule jb) (clock (tick st)) = Some t
                                        ∧ field o "nextRun" = VStr (toISOString t))
                   es new
    | Thrown _ => True
    end.
Proof.
  induction es as [|[k v] rest IH]; intros infos st.
  - cbn. split; [done|]. exists []. by rewrite app_nil_r.
  - cbn [activeJobs_info]. unfold mbind, M_bind, nextRun_of.
    destruct v as [j|]; [|done].
    destruct (jobs st !! j) as [jb|] eqn:Hj; [|done].
    destruct (j_live jb) eqn:Hl; [|done].
    destruct (nextInvocation (j_rule jb) (clock (tick st))) as [t|] eqn:Hnext; [|done].
    destruct (IH (infos ++ [list_to_map [("id", k); ("nextRun", VStr (toISOString t))]]) st)
      as [Hst Hout].
    split; [done|].
    destruct (activeJobs_info rest _ st) as [[out|msg] st1]; [|done]. cbn [fst] in *.
    destruct Hout as (new & -> & Hall).
    eexists (_ :: new). rewrite <- app_assoc. split; [reflexivity|].
    constructor; [|done]. split; [reflexivity|]. by exists j, jb, t.
Qed.

(** X19.  [getActiveJobs] changes nothing.  When it returns, it lists the
    entries of the [Map] in their order, each with its identifier and the
    next invocation of its job, every one of them a live job; it throws
    when an entry is [null]. *)
Theorem getActiveJobs_lists_the_Map st :
  (getActiveJobs st).2 = st
  ∧ (∀ infos, (getActiveJobs st).1 = Returned infos →
       Forall2 (λ (e : jsval * option nat) o,
                  field o "id" = e.1
                  ∧ ∃ j jb t, e.2 = Some j ∧ jobs st !! j = Some jb ∧ j_live jb = true
                              ∧ nextInvocation (j_rule jb) (clock (tick st)) = Some t
                              ∧ field o "nextRun" = VStr (toISOString t))
         (activeJobs st) infos)
  ∧ (∀ k, (k, None) ∈ activeJobs st → returns (getActiveJobs st).1 = false).
Proof.
  unfold getActiveJobs, mbind, M_bind, get_state. cbv beta iota.
  destruct (activeJobs_info_spec (activeJobs st) [] st) as [Hst Hout].
  split_and!; [done| |].
  - intros infos Hret. rewrite Hret in Hout. by destruct Hout as (new & -> & Hall).
  - intros k Hin. destruct (activeJobs_info (activeJobs st) [] st) as [[out|msg] st1]; [|done].
    cbn [fst] in Hout. destruct Hout as (new & _ & Hall). exfalso.
    apply list_elem_of_lookup in Hin as [i Hi].
    destruct (Forall2_lookup_l _ _ _ _ _ Hall Hi) as (o & _ & _ & j & jb & t & Hnone & _).
    done.
Qed.

(** *** The text of a request *)

Lemma free_of_cons p c s :
  free_of p (String c s) = true ↔ p c = false ∧ free_of p s = true.
Proof.
  cbn [free_of]. rewrite andb_true_iff, negb_true_iff. done.
Qed.

Lemma split_on_free sep s : free_of sep s = true → split_on sep s = [s].
Proof.
  induction s as [|c s IH]; [done|]. intros [Hc Hs]%free_of_cons.
  cbn [split_on]. by rewrite Hc, IH.
Qed.

Lemma split_on_app sep a c rest :
  free_of sep a = true → sep c = true →
  split_on sep (a +:+ String c rest) = a :: split_on sep rest.
Proof.
  intros Ha Hc. induction a as [|x a IH].
  - change ("" +:+ String c rest) with (String c rest). cbn [split_on]. by rewrite Hc.
  - apply free_of_cons in Ha as [Hx Ha].
    change (String x a +:+ String c rest) with (String x (a +:+ String c rest)).
    cbn [split_on]. by rewrite Hx, IH.
Qed.

Lemma trim_end_free s : free_of is_space s = true → trim_end s = s.
Proof.
  induction s as [|c s IH]; [done|]. intros [Hc Hs]%free_of_cons.
  cbn [trim_end]. rewrite IH, Hc by done. by destruct s.
Qed.

Lemma trim_free s : free_of is_space s = true → trim s = s.
Proof.
  intros Hs. unfold trim. destruct s as [|c s]; [done|].
  pose proof Hs as [Hc _]%free_of_cons.
  cbn [trim_start]. rewrite Hc. by apply trim_end_free.
Qed.

Lemma free_of_weaken (p q : ascii → bool) s :
  (∀ c, q c = true → p c = true) → free_of p s = true → free_of q s = true.
Proof.
  intros Hpq. induction s as [|c s IH]; [done|]. intros [Hc Hs]%free_of_cons.
  apply free_of_cons. split; [|by apply IH].
  destruct (q c) eqn:Hq; [|done]. by rewrite (Hpq c Hq) in Hc.
Qed.

Lemma digit_cases d :
  (d < 10)%N →
  (d = 0 ∨ d = 1 ∨ d = 2 ∨ d = 3 ∨ d = 4 ∨ d = 5 ∨ d = 6 ∨ d = 7 ∨ d = 8 ∨ d = 9)%N.
Proof. lia. Qed.

Lemma digit_of_pretty_N_char d :
  (d < 10)%N →
  digit_of (pretty_N_char d) = Some (Z.of_N d) ∧ is_separator (pretty_N_char d) = false.
Proof.
  intros Hd%digit_cases.
  repeat (destruct Hd as [->|Hd]; [by split|]). by subst.
Qed.

Lemma pretty_N_go_app x : ∀ s rest, pretty_N_go x s +:+ rest = pretty_N_go x (s +:+ rest).
Proof.
  induction (N.lt_wf_0 x) as [x _ IH]; intros s rest.
  assert (x = 0 ∨ 0 < x)%N as [->|Hx] by lia; [by rewrite !pretty_N_go_0|].
  rewrite (pretty_N_go_step x s), (pretty_N_go_step x (s +:+ rest)) by done.
  by rewrite IH by (apply N.div_lt; lia).
Qed.

Lemma parse_digits_pretty_N_go x : ∀ s,
  (0 < x)%N → parse_digits None (pretty_N_go x s) = parse_digits (Some (Z.of_N x)) s.
Proof.
  induction (N.lt_wf_0 x) as [x _ IH]; intros s Hx.
  rewrite pretty_N_go_step by done.
  assert (x `mod` 10 < 10)%N as Hlt by (apply N.mod_lt; lia).
  destruct (digit_of_pretty_N_char _ Hlt) as [Hdigit _].
  pose proof (N.div_mod x 10 ltac:(lia)) as Hdm.
  assert (x `div` 10 = 0 ∨ 0 < x `div` 10)%N as [H0|Hpos] by lia.
  - rewrite H0, pretty_N_go_0. cbn [parse_digits]. rewrite Hdigit. cbn [default].
    replace (10 * 0 + Z.of_N (x `mod` 10)) with (Z.of_N x) by lia. done.
  - rewrite IH; [|apply N.div_lt; lia|done]. cbn [parse_digits]. rewrite Hdigit.
    cbn [default from_option id].
    by replace (10 * Z.of_N (x `div` 10) + Z.of_N (x `mod` 10)) with (Z.of_N x) by lia.
Qed.

Lemma free_of_pretty_N_go x : ∀ s,
  free_of is_separator s = true → free_of is_separator (pretty_N_go x s) = true.
Proof.
  induction (N.lt_wf_0 x) as [x _ IH]; intros s Hs.
  assert (x = 0 ∨ 0 < x)%N as [->|Hx] by lia; [by rewrite pretty_N_go_0|].
  rewrite pretty_N_go_step by done. apply IH; [apply N.div_lt; lia|].
  apply free_of_cons. split; [|done].
  assert (x `mod` 10 < 10)%N as Hlt by (apply N.mod_lt; lia).
  by destruct (digit_of_pretty_N_char _ Hlt).
Qed.

Lemma pretty_positive_parse n :
  0 < n →
  free_of is_separator (pretty n) = true
  ∧ ∀ rest, parse_digits None (pretty n +:+ rest) = parse_digits (Some n) rest.
Proof.
  intros Hn. destruct n as [|p|p]; try lia.
  change (pretty (Z.pos p)) with (pretty_N_go (N.pos p) ""). split.
  - by apply free_of_pretty_N_go.
  - intros rest. rewrite pretty_N_go_app. by rewrite parse_digits_pretty_N_go.
Qed.

Lemma separator_space c : is_space c = true → is_separator c = true.
Proof. unfold is_separator. intros ->. by rewrite orb_true_r. Qed.

Lemma parseInt_of_digits s n : parse_digits None s = Some n → parseInt s = VNum n.
Proof.
  destruct s as [|c r]; [done|]. cbn [parse_digits].
  destruct (digit_of c) as [d|] eqn:Hd; [|done]. intros Hparse.
  assert (parse_digits None (String c r) = Some n) as Hall
    by (cbn [parse_digits]; by rewrite Hd).
  revert Hd. clear Hparse.
  destruct c as [[] [] [] [] [] [] [] []]; try discriminate; intros _;
    unfold parseInt;
    match goal with
    | |- context [trim_start (String ?c r)] =>
        change (trim_start (String c r)) with (String c r)
    end;
    cbv beta iota zeta; by rewrite Hall.
Qed.

Lemma append_empty s : s +:+ "" = s.
Proof.
  induction s as [|c s IH]; [done|].
  change (String c s +:+ "") with (String c (s +:+ "")). by rewrite IH.
Qed.

Lemma parseInt_pretty n : 0 < n → parseInt (trim (pretty n)) = VNum n.
Proof.
  intros Hn. destruct (pretty_positive_parse n Hn) as [Hfree Hparse].
  rewrite trim_free
    by (apply (free_of_weaken is_separator); [apply separator_space|done]).
  apply parseInt_of_digits. specialize (Hparse "").
  by rewrite append_empty in Hparse.
Qed.

Lemma port_of_range v p : port_of v = Some p → 0 < p < 65536.
Proof.
  destruct v; try discriminate. cbn [port_of].
  destruct (Z.ltb_spec 0 n), (Z.ltb_spec n 65536); try discriminate.
  intros [= <-]. lia.
Qed.

Lemma parsePorts_join_cons sep p ps :
  0 < p < 65536 → sep = "," ∨ sep = ", " →
  parsePorts (join sep (pretty <$> p :: ps))
  = p :: match ps with [] => [] | _ => parsePorts (join sep (pretty <$> ps)) end.
Proof.
  intros Hp Hsep. destruct (pretty_positive_parse p) as [Hfree _]; [lia|].
  assert (port_of (parseInt (trim (pretty p))) = Some p) as Hport.
  { rewrite parseInt_pretty by lia. cbn [port_of].
    by rewrite (proj2 (Z.ltb_lt 0 p)), (proj2 (Z.ltb_lt p 65536)) by lia. }
  unfold parsePorts. destruct ps as [|q rest].
  - cbn [fmap list_fmap join]. rewrite split_on_free by done. cbn [omap list_omap].
    by rewrite Hport.
  - rewrite !fmap_cons. cbn [join].
    destruct Hsep as [-> | ->].
    + change (pretty p +:+ "," +:+ ?j) with (pretty p +:+ String "," j).
      rewrite split_on_app by done. cbn [omap list_omap]. by rewrite Hport.
    + change (pretty p +:+ ", " +:+ ?j) with (pretty p +:+ String "," (String " " j)).
      rewrite split_on_app by done. cbn [omap list_omap]. rewrite Hport.
      change (split_on is_separator (String " " ?j)) with ("" :: split_on is_separator j).
      reflexivity.
Qed.

Lemma parsePorts_join sep ps :
  sep = "," ∨ sep = ", " → Forall (λ p, 0 < p < 65536) ps →
  parsePorts (join sep (pretty <$> ps)) = ps.
Proof.
  intros Hsep. induction 1 as [|p ps Hp Hps IH]; [reflexivity|].
  rewrite parsePorts_join_cons by done. destruct ps; [done|]. by rewrite IH.
Qed.

Lemma split_on_pieces sep s : Forall (λ piece, free_of sep piece = true) (split_on sep s).
Proof.
  induction s as [|c s IH]; [by repeat constructor|]. cbn [split_on].
  destruct (sep c) eqn:Hc; [by constructor|].
  destruct (split_on sep s) as [|piece pieces].
  - repeat constructor. by apply free_of_cons.
  - apply Forall_cons in IH as [Hpiece Hpieces]. constructor; [|done].
    by apply free_of_cons.
Qed.

Lemma free_of_trim_start p s : free_of p s = true → free_of p (trim_start s) = true.
Proof.
  induction s as [|c s IH]; [done|]. intros Hs. cbn [trim_start].
  destruct (is_space c); [|done]. apply IH. by apply free_of_cons in Hs as [_ ?].
Qed.

Lemma free_of_trim_end p s : free_of p s = true → free_of p (trim_end s) = true.
Proof.
  induction s as [|c s IH]; [done|]. intros [Hc Hs]%free_of_cons. cbn [trim_end].
  specialize (IH Hs). destruct (trim_end s) as [|c' kept].
  - destruct (is_space c); [done|]. by apply free_of_cons.
  - by apply free_of_cons.
Qed.

Lemma free_of_trim p s : free_of p s = true → free_of p (trim s) = true.
Proof. intros Hs. by apply free_of_trim_end, free_of_trim_start. Qed.

Lemma splitHosts_elem sep hosts h :
  h ∈ splitHosts sep hosts → h ≠ "" ∧ free_of sep h = true.
Proof.
  unfold splitHosts. intros [Hne Hin]%list_elem_of_filter. split; [done|].
  apply list_elem_of_fmap in Hin as (piece & -> & Hin).
  apply free_of_trim. by apply (proj1 (Forall_forall _ _) (split_on_pieces sep hosts)).
Qed.

Lemma splitHosts_join hs :
  Forall (λ h, h ≠ "" ∧ free_of is_line_separator h = true ∧ trim h = h) hs →
  splitHosts is_line_separator (join newline hs) = hs.
Proof.
  induction 1 as [|h hs (Hne & Hfree & Htrim) Hhs IH]; [reflexivity|].
  unfold splitHosts in *. destruct hs as [|q rest].
  - cbn [join]. rewrite split_on_free by done. cbn [fmap list_fmap].
    rewrite Htrim, filter_cons. by destruct (decide (h ≠ "")).
  - cbn [join] in *.
    change (h +:+ newline +:+ ?j) with (h +:+ String "010" j).
    rewrite split_on_app by done. rewrite fmap_cons, Htrim, filter_cons.
    destruct (decide (h ≠ "")); [|done]. by rewrite IH.
Qed.

(** X20.  The ports read from the text of a request are numbers from 1 to
    65535, in the order of the text; what is no such number is left out,
    and the empty text gives no port.  A list of such ports written with
    commas, with or without a space, as the form that edits a scan writes
    it, is read back as it was. *)
Theorem parsePorts_reads_ports :
  (∀ ports, Forall (λ p, 0 < p < 65536) (parsePorts ports))
  ∧ (∀ ps, Forall (λ p, 0 < p < 65536) ps →
       parsePorts (join ", " (pretty <$> ps)) = ps
       ∧ parsePorts (join "," (pretty <$> ps)) = ps)
  ∧ parsePorts "" = [].
Proof.
  split_and!.
  - intros ports. apply Forall_forall. intros p Hp. unfold parsePorts in Hp.
    apply list_elem_of_omap in Hp as (piece & _ & Hport). by apply port_of_range in Hport.
  - intros ps Hps. split; apply parsePorts_join; auto.
  - reflexivity.
Qed.

(** X21.  No host read from the text of a request is empty or holds a
    character the text is split on; the hosts of the API, split on white
    space too, hold no white space at all.  Hosts written one per line,
    as the form that edits a scan writes them, are read back as they
    were. *)
Theorem splitHosts_reads_hosts :
  (∀ sep hosts h, h ∈ splitHosts sep hosts → h ≠ "" ∧ free_of sep h = true)
  ∧ (∀ hosts h, h ∈ splitHosts is_separator hosts → free_of is_space h = true)
  ∧ (∀ hs, Forall (λ h, h ≠ "" ∧ free_of is_line_separator h = true ∧ trim h = h) hs →
       splitHosts is_line_separator (join newline hs) = hs).
Proof.
  split_and!.
  - apply splitHosts_elem.
  - intros hosts h [_ Hfree]%splitHosts_elem.
    apply (free_of_weaken is_separator); [apply separator_space|done].
  - apply splitHosts_join.
Qed.

(** *** The handlers *)

Lemma api_scan_returns hosts ports st : returns (api_scan hosts ports st).1 = true.
Proof. by apply try_catch_returns. Qed.

Lemma all_attempts_no_port timeout hosts : ∀ st, all_attempts timeout hosts [] st = [].
Proof. induction hosts as [|h rest IH]; intros st; [done|]. cbn. apply IH. Qed.

Lemma post_api_scan_eq body hosts st :
  hostsToScan body st = (Returned hosts, st) →
  post_api_scan body st = api_scan hosts (portsToScan (field body "ports")) st.
Proof.
  intros Hhosts. unfold post_api_scan, try_catch, mbind, M_bind. rewrite Hhosts.
  pose proof (api_scan_returns hosts (portsToScan (field body "ports")) st) as Hret.
  by destruct (api_scan hosts (portsToScan (field body "ports")) st) as [[a|msg] st1].
Qed.

(** X22.  A request to the API without hosts, and without a range or a
    file to take them from, is answered with the status 400; no
    connection is made and nothing is written. *)
Theorem post_api_scan_without_hosts body st :
  truthy (field body "hosts") = false →
  bool_decide (field body "type" = VStr "range") && truthy (field body "ipRange") = false →
  bool_decide (field body "type" = VStr "file") && truthy (field body "fileContent") = false →
  post_api_scan body st = (Returned (JsonFailure 400 "No valid hosts provided"), st).
Proof.
  intros Hhosts Hrange Hfile.
  rewrite (post_api_scan_eq body [] st); [reflexivity|].
  unfold hostsToScan, mbind, M_bind. by rewrite Hhosts, Hrange, Hfile, andb_false_r.
Qed.

(** X23.  A request to the API that names hosts and gives a text of ports
    in which no port is valid is not refused: it is answered as a success
    with no record, the summary counting the hosts and no port; no
    connection is made and nothing is written. *)
Theorem post_api_scan_without_a_valid_port body text portsText st :
  field body "type" = VStr "manual" → field body "hosts" = VStr text →
  splitHosts is_separator text ≠ [] →
  field body "ports" = VStr portsText → portsText ≠ "" → parsePorts portsText = [] →
  ∃ summary,
    post_api_scan body st = (Returned (JsonResults [] summary), st)
    ∧ field summary "hosts" = VNum (Z.of_nat (length (splitHosts is_separator text)))
    ∧ field summary "ports" = VNum 0
    ∧ field summary "total" = VNum 0.
Proof.
  intros Htype Hhosts Hsome Hports Hne Hnone.
  assert (text ≠ "") as Htext by (by intros ->).
  assert (hostsToScan body st = (Returned (splitHosts is_separator text), st)) as Hread.
  { unfold hostsToScan, mbind, M_bind. rewrite Htype, Hhosts. cbn [truthy].
    rewrite bool_decide_eq_true_2 by done.
    destruct (String.eqb_spec text ""); [done|]. cbn.
    by destruct (splitHosts is_separator text). }
  rewrite (post_api_scan_eq _ _ _ Hread), Hports. unfold portsToScan. cbn [truthy].
  destruct (String.eqb_spec portsText ""); [done|]. cbn [negb]. rewrite Hnone.
  rewrite (api_scan_eq _ _ _ Hsome). cbn [length]. rewrite all_attempts_no_port.
  rewrite Nat.mul_0_r, Nat.add_0_r, set_tick_tick.
  assert (set_certificates (stored [] (certificates st)) st = st) as -> by (by destruct st).
  eexists. split; [reflexivity|]. by split_and!.
Qed.

(** X24.  A range of addresses is not expanded: of a request of the type
    ['range'] the handler scans the two end points of the range, trimmed,
    and nothing between them. *)
Theorem post_api_scan_range_end_points body first last st :
  field body "type" = VStr "range" →
  field body "ipRange" = VStr (first +:+ "-" +:+ last) →
  free_of (λ c, bool_decide (c = "-"%char)) first = true →
  free_of (λ c, bool_decide (c = "-"%char)) last = true →
  trim first ≠ "" → trim last ≠ "" →
  hostsToScan body st = (Returned [trim first; trim last], st)
  ∧ post_api_scan body st
    = api_scan [trim first; trim last] (portsToScan (field body "ports")) st
  ∧ ∃ results,
      (scanHosts [trim first; trim last] (portsToScan (field body "ports")) 5000 st).1
      = Returned results
      ∧ length results = (2 * length (portsToScan (field body "ports")))%nat.
Proof.
  intros Htype Hrange Hfirst Hlast Hne1 Hne2.
  assert (hostsToScan body st = (Returned [trim first; trim last], st)) as Hread.
  { unfold hostsToScan, mbind, M_bind. rewrite Htype, Hrange.
    rewrite (bool_decide_eq_false_2 (VStr "range" = VStr "manual")) by done.
    rewrite bool_decide_eq_true_2 by done. cbn [andb truthy].
    assert ((first +:+ "-" +:+ last) ≠ "") as Hne by (by destruct first).
    destruct (String.eqb_spec (first +:+ "-" +:+ last) ""); [done|]. cbn.
    change (first +:+ "-" +:+ last) with (first +:+ String "-" last).
    rewrite split_on_app; [|done|by rewrite bool_decide_eq_true_2].
    rewrite split_on_free by done. cbn [fmap list_fmap].
    destruct (String.eqb_spec (trim first) ""); [done|].
    destruct (String.eqb_spec (trim last) ""); [done|]. reflexivity. }
  split_and!; [done|by apply post_api_scan_eq|].
  rewrite scanHosts_eq. eexists. split; [reflexivity|].
  rewrite length_all_attempts. cbn [length]. lia.
Qed.

(** X25.  The form of the scanner saves every record of the batch, the
    [error] records too, where the API leaves these out; and it refuses a
    text of ports in which no port is valid, where the API answers with
    an empty success. *)
Theorem scanner_post_saves_every_result body hostsText portsText st :
  field body "hosts" = VStr hostsText → field body "ports" = VStr portsText →
  splitHosts is_line_separator hostsText ≠ [] → portsText ≠ "" →
  let hosts := splitHosts is_line_separator hostsText in
  let ports := parsePorts portsText in
  (ports = [] →
     scanner_post body st
     = (Returned (ScannerForm "Please provide at least one valid port" body), st))
  ∧ (ports ≠ [] →
     ∃ results summary,
       (scanHosts hosts ports 5000 st).1 = Returned results
       ∧ (scanner_post body st).1 = Returned (ScannerResults results summary)
       ∧ field summary "total" = VNum (Z.of_nat (length hosts * length ports))
       ∧ certificates (scanner_post body st).2
         = foldl (λ table r, <[target_of r := cert_row_of r]> table) (certificates st)
             results
       ∧ (∀ i r, results !! i = Some r →
            (∀ i' r', (i < i')%nat → results !! i' = Some r' →
                      target_of r' ≠ target_of r) →
            certificates (scanner_post body st).2 !! target_of r = Some (cert_row_of r))).
Proof.
  intros Hhosts Hports Hsome Hne. cbv zeta.
  assert (hostsText ≠ "") as Htext by (by intros ->).
  assert (scanner_post body st
             = try_catch
                 (match splitHosts is_line_separator hostsText, parsePorts portsText with
                  | [], _ => mret (ScannerForm "Please provide at least one valid host" body)
                  | _, [] => mret (ScannerForm "Please provide at least one valid port" body)
                  | hosts, ports =>
                      results ← scanHosts hosts ports 5000;
                      for_of results saveCertificate;;
                      mret (ScannerResults results
                              (list_to_map
                                 [ ("hosts", VNum (Z.of_nat (length hosts)));
                                   ("ports", VNum (Z.of_nat (length ports)));
                                   ("total", VNum (Z.of_nat (length results)));
                                   ("valid", count_status "valid" results);
                                   ("warning", count_status "warning" results);
                                   ("expired", count_status "expired" results);
                                   ("error", count_status "error" results) ]))
                  end)
                 (λ message, mret (ScannerForm ("Error performing scan: " +:+ message) body))
                 st) as ->.
  { unfold scanner_post. rewrite Hhosts, Hports.
    unfold js_or. cbn [truthy].
    destruct (String.eqb_spec hostsText ""); [done|].
    destruct (String.eqb_spec portsText ""); [done|]. reflexivity. }
  destruct (splitHosts is_line_separator hostsText) as [|h hs] eqn:Hh; [done|].
  destruct (parsePorts portsText) as [|p ps] eqn:Hp.
  - split; [done|]. by intros [].
  - split; [done|]. intros _.
    unfold try_catch, mbind, M_bind. rewrite scanHosts_eq.
    rewrite save_all_eq by apply all_attempts_have_target.
    cbn [fst snd mret M_ret]. eexists _, _. split_and!; try reflexivity.
    + change (VNum (Z.of_nat (length (all_attempts 5000 (h :: hs) (p :: ps) st)))
              = VNum (Z.of_nat (length (h :: hs) * length (p :: ps)))).
      by rewrite length_all_attempts.
    + intros i r Hi Hlast. cbn [certificates set_certificates].
      by apply (foldl_insert_lookup_last _ _ i).
Qed.

(** X26.  Deleting a scheduled scan through its route stops it and
    removes it: no live timer and no entry of the [Map] is left for it,
    its row is gone and the other rows stay.  When the entry of the scan
    in the [Map] is [null], the route answers with the status 500 and
    changes nothing: the row of the scan is still stored. *)
Theorem delete_scheduled_scan_stops_and_removes id st :
  reachable st → id ≠ 0 →
  let run := delete_scheduled_scan (VNum id) st in
  (map_get (VNum id) (activeJobs st) ≠ Some None →
     run.1 = Returned (Redirect "/scheduler")
     ∧ scheduled_scans run.2 !! id = None
     ∧ live_timers (VNum id) run.2 = []
     ∧ entries (VNum id) run.2 = []
     ∧ (∀ id', id' ≠ id → scheduled_scans run.2 !! id' = scheduled_scans st !! id')
     ∧ certificates run.2 = certificates st)
  ∧ (map_get (VNum id) (activeJobs st) = Some None →
     ∃ stack, run = (Returned (ErrorPage 500 "Error deleting scheduled scan" stack), st)).
Proof.
  intros Hinv%reachable_inv Hid. cbv zeta.
  assert (delete_scheduled_scan (VNum id) st
          = match map_get (VNum id) (activeJobs st) with
            | Some None =>
                (Returned
                   (ErrorPage 500 "Error deleting scheduled scan"
                      "TypeError: Cannot read properties of null (reading 'cancel')"), st)
            | _ => (Returned (Redirect "/scheduler"),
                    (deleteScheduledScan (VNum id) (unscheduled (VNum id) st)).2)
            end) as ->.
  { unfold delete_scheduled_scan, try_catch, mbind, M_bind.
    cbn [truthy]. rewrite (proj2 (Z.eqb_neq id 0) Hid). cbn [negb].
    rewrite scheduleJob_eq.
    change (field (list_to_map [("id", VNum id); ("active", VBool false)]) "id")
      with (VNum id).
    rewrite rearmed_inactive by done.
    destruct (map_get (VNum id) (activeJobs st)) as [[j|]|]; [|done|].
    all: assert (returns (deleteScheduledScan (VNum id) (unscheduled (VNum id) st)).1 = true)
      as Hret
      by (unfold deleteScheduledScan; cbn [bind_param];
          by destruct (scheduled_scans (unscheduled (VNum id) st) !! id)).
    all: by destruct (deleteScheduledScan (VNum id) _) as [[b|msg] st2]. }
  split.
  - intros Hnn.
    destruct (unscheduled_inv _ _ Hinv Hnn) as [Hex Hnone].
    destruct (unscheduled_frame (VNum id) st) as (Ht & Hc & Hs).
    assert ((match map_get (VNum id) (activeJobs st) with
             | Some None =>
                 (Returned
                    (ErrorPage 500 "Error deleting scheduled scan"
                       "TypeError: Cannot read properties of null (reading 'cancel')"), st)
             | _ => (Returned (Redirect "/scheduler"),
                     (deleteScheduledScan (VNum id) (unscheduled (VNum id) st)).2)
             end)
            = (Returned (Redirect "/scheduler"),
               (deleteScheduledScan (VNum id) (unscheduled (VNum id) st)).2)) as ->
      by (by destruct (map_get (VNum id) (activeJobs st)) as [[j|]|]).
    cbn [fst snd]. unfold deleteScheduledScan. cbn [bind_param]. rewrite Hs.
    destruct (scheduled_scans st !! id) as [row|] eqn:Hrow; cbn [fst snd].
    + split_and!; try done.
      * cbn. apply lookup_delete_eq.
      * exact (inv_except_no_timer _ _ Hex).
      * exact (map_get_None_entries _ _ Hnone).
      * intros id' Hne. cbn. by apply lookup_delete_ne.
    + split_and!; try done.
      * by rewrite Hs.
      * exact (inv_except_no_timer _ _ Hex).
      * exact (map_get_None_entries _ _ Hnone).
      * intros id' Hne. by rewrite Hs.
  - intros ->. by eexists.
Qed.

(** *** The history of the scans *)

Lemma field_increment k k' entry :
  field (increment k entry) k'
  = if decide (k = k')
    then match field entry k with VNum n => VNum (n + 1) | _ => VNaN end
    else field entry k'.
Proof.
  unfold increment, field at 1 4. destruct (decide (k = k')) as [->|Hne].
  - by rewrite lookup_insert_eq.
  - by rewrite lookup_insert_ne.
Qed.

Lemma history_turn_counts cert entry total valid warning expired error :
  field cert "lastScanned" = VUndef →
  bucket_counts entry total valid warning expired error →
  ∃ entry',
    history_turn ({["Unknown" := 0%nat]}, [entry]) cert
    = Some ({["Unknown" := 0%nat]}, [entry'])
    ∧ bucket_counts entry' (total + 1)
        (valid + with_status "valid" [cert])
        (warning + with_status "warning" [cert])
        (expired + with_status "expired" [cert])
        (error + with_other_status [cert]).
Proof.
  intros Hdate (Hid & Hd & Ht & Hv & Hw & Hx & He).
  unfold history_turn, scanDate_of. rewrite Hdate. cbn [mbind option_bind fst snd].
  rewrite lookup_singleton_eq. cbn [mbind option_bind alter list_alter].
  eexists. split; [reflexivity|].
  unfold bucket_counts, with_status, with_other_status, status_counter.
  rewrite !filter_cons, !filter_nil.
  assert (∀ k, k = "validCerts" ∨ k = "warningCerts" ∨ k = "expiredCerts"
               ∨ k = "errorCerts" →
            field (increment k (increment "totalHosts" entry)) "id" = VNum 1
            ∧ field (increment k (increment "totalHosts" entry)) "date" = VStr "Unknown"
            ∧ field (increment k (increment "totalHosts" entry)) "totalHosts"
              = VNum (total + 1)) as Hfixed.
  { intros k Hk. rewrite !field_increment.
    destruct Hk as [-> | [-> | [-> | ->]]];
      repeat (case_decide; try done); by rewrite ?Hid, ?Hd, ?Ht. }
  assert (∀ k k' n, k = "validCerts" ∨ k = "warningCerts" ∨ k = "expiredCerts"
                    ∨ k = "errorCerts" →
            k' = "validCerts" ∨ k' = "warningCerts" ∨ k' = "expiredCerts"
            ∨ k' = "errorCerts" →
            field entry k' = VNum n →
            field (increment k (increment "totalHosts" entry)) k'
            = VNum (if decide (k = k') then n + 1 else n)) as Hcounter.
  { intros k k' n Hk Hk' Hn. rewrite !field_increment.
    destruct Hk as [-> | [-> | [-> | ->]]], Hk' as [-> | [-> | [-> | ->]]];
      repeat (case_decide; try done); by rewrite ?Hn. }
  destruct (decide (field cert "status" = VStr "valid")) as [Hs|Hs1].
  { rewrite Hs, bool_decide_eq_true_2 by done.
    destruct (Hfixed "validCerts") as (-> & -> & ->); [auto|].
    rewrite (Hcounter "validCerts" "validCerts" valid),
      (Hcounter "validCerts" "warningCerts" warning),
      (Hcounter "validCerts" "expiredCerts" expired),
      (Hcounter "validCerts" "errorCerts" error) by auto.
    repeat (case_decide; try done); try tauto;
      split_and!; try done; f_equal; cbn; lia. }
  rewrite (bool_decide_eq_false_2 _ Hs1).
  destruct (decide (field cert "status" = VStr "warning")) as [Hs|Hs2].
  { rewrite Hs, bool_decide_eq_true_2 by done.
    destruct (Hfixed "warningCerts") as (-> & -> & ->); [auto|].
    rewrite (Hcounter "warningCerts" "validCerts" valid),
      (Hcounter "warningCerts" "warningCerts" warning),
      (Hcounter "warningCerts" "expiredCerts" expired),
      (Hcounter "warningCerts" "errorCerts" error) by auto.
    repeat (case_decide; try done); try tauto;
      split_and!; try done; f_equal; cbn; lia. }
  rewrite (bool_decide_eq_false_2 _ Hs2).
  destruct (decide (field cert "status" = VStr "expired")) as [Hs|Hs3].
  { rewrite Hs, bool_decide_eq_true_2 by done.
    destruct (Hfixed "expiredCerts") as (-> & -> & ->); [auto|].
    rewrite (Hcounter "expiredCerts" "validCerts" valid),
      (Hcounter "expiredCerts" "warningCerts" warning),
      (Hcounter "expiredCerts" "expiredCerts" expired),
      (Hcounter "expiredCerts" "errorCerts" error) by auto.
    repeat (case_decide; try done); try tauto;
      split_and!; try done; f_equal; cbn; lia. }
  rewrite (bool_decide_eq_false_2 _ Hs3).
  destruct (Hfixed "errorCerts") as (-> & -> & ->); [auto|].
  rewrite (Hcounter "errorCerts" "validCerts" valid),
    (Hcounter "errorCerts" "warningCerts" warning),
    (Hcounter "errorCerts" "expiredCerts" expired),
    (Hcounter "errorCerts" "errorCerts" error) by auto.
  repeat (case_decide; try done); try tauto;
    split_and!; try done; f_equal; cbn; lia.
Qed.

Lemma with_status_cons s cert certs :
  with_status s (cert :: certs) = with_status s [cert] + with_status s certs.
Proof.
  unfold with_status. rewrite !filter_cons, filter_nil.
  destruct (decide _); cbn [length]; lia.
Qed.

Lemma with_other_status_cons cert certs :
  with_other_status (cert :: certs) = with_other_status [cert] + with_other_status certs.
Proof.
  unfold with_other_status. rewrite !filter_cons, filter_nil.
  destruct (decide _); cbn [length]; lia.
Qed.

Lemma history_loop_counts certs : ∀ entry total valid warning expired error,
  Forall (λ cert, field cert "lastScanned" = VUndef) certs →
  bucket_counts entry total valid warning expired error →
  ∃ entry',
    history_loop ({["Unknown" := 0%nat]}, [entry]) certs
    = Some ({["Unknown" := 0%nat]}, [entry'])
    ∧ bucket_counts entry' (total + Z.of_nat (length certs))
        (valid + with_status "valid" certs)
        (warning + with_status "warning" certs)
        (expired + with_status "expired" certs)
        (error + with_other_status certs).
Proof.
  induction certs as [|cert rest IH]; intros entry total valid warning expired error Hall Hc.
  - exists entry. split; [reflexivity|].
    unfold with_status, with_other_status. cbn. by rewrite !Z.add_0_r.
  - apply Forall_cons in Hall as [Hdate Hrest].
    destruct (history_turn_counts cert entry _ _ _ _ _ Hdate Hc) as (entry1 & Hturn & Hc1).
    destruct (IH entry1 _ _ _ _ _ Hrest Hc1) as (entry' & Hloop & Hc').
    exists entry'. split.
    + cbn [history_loop]. rewrite Hturn. exact Hloop.
    + rewrite (with_status_cons "valid"), (with_status_cons "warning"),
        (with_status_cons "expired"), with_other_status_cons.
      replace (total + Z.of_nat (length (cert :: rest)))
        with (total + 1 + Z.of_nat (length rest)) by (cbn [length]; lia).
      by rewrite !Z.add_assoc.
Qed.

(** X27.  The rows of the table of certificates have a column
    [last_scanned] and no property [lastScanned], which is the one the
    history reads: the history of a table that is not empty is a single
    entry, dated ['Unknown'], that counts every row, by status, and the
    rows of another status than the three of a certificate as errors. *)
Theorem scanHistory_is_one_bucket cert certs :
  Forall (λ cert, field cert "lastScanned" = VUndef) (cert :: certs) →
  scanHistory [] = Some []
  ∧ ∃ entry,
      scanHistory (cert :: certs) = Some [entry]
      ∧ field entry "id" = VNum 1
      ∧ field entry "date" = VStr "Unknown"
      ∧ field entry "totalHosts" = VNum (Z.of_nat (length (cert :: certs)))
      ∧ field entry "validCerts" = VNum (with_status "valid" (cert :: certs))
      ∧ field entry "warningCerts" = VNum (with_status "warning" (cert :: certs))
      ∧ field entry "expiredCerts" = VNum (with_status "expired" (cert :: certs))
      ∧ field entry "errorCerts" = VNum (with_other_status (cert :: certs)).
Proof.
  intros Hall. split; [reflexivity|].
  assert (bucket_counts (history_entry 1 "Unknown") 0 0 0 0 0) as Hstart
    by (by split_and!).
  destruct (history_loop_counts (cert :: certs) _ _ _ _ _ _ Hall Hstart)
    as (entry & Hloop & Hcounts).
  exists entry. split; [|exact Hcounts].
  unfold scanHistory.
  assert (history_loop (∅, []) (cert :: certs)
          = history_loop ({["Unknown" := 0%nat]}, [history_entry 1 "Unknown"])
              (cert :: certs)) as ->.
  { apply Forall_cons in Hall as [Hdate _]. cbn [history_loop].
    unfold history_turn, scanDate_of. rewrite Hdate. cbn [mbind option_bind fst snd].
    rewrite lookup_empty, lookup_singleton_eq. cbn [length Z.of_nat Z.add app].
    by rewrite insert_empty. }
  by rewrite Hloop.
Qed.

End Program.

(** ** The sample environment at work *)


(** C1.  The endpoint of the sample presents a certificate that expired 24
    days before the scan.  Its record has [daysRemaining = -24], which the
    rule classifies as ['expired'], and the status ['valid']: the status
    that [parseCertificate] computed is overwritten by the constant of the
    raw handshake data. *)
Theorem expired_certificate_is_reported_valid :
  match (scanHosts sample_env ["internal.example"] [443] 5000 sample_state).1 with
  | Returned [record] =>
      field record "daysRemaining" = VNum (-24)
      ∧ classify (field record "daysRemaining") = "expired"
      ∧ field record "status" = VStr "valid"
  | _ => False
  end.
Proof. vm_compute. by split_and!. Qed.

(** C2, refuted as stated.  The decoder gives the issuer of the sample
    certificate, and the merged record holds the issuer of the raw
    handshake data instead: a field of the decoder that is present is not
    always the field of the merged record. *)
Lemma merged_record_overrides_decoder :
  let raw := rawCertData sample_env (sample_clock 1) "internal.example" 443 sample_peer in
  let parsed := parseCertificate sample_env (sample_clock 1) sample_forge in
  let merged := combinedData "internal.example" 443 raw parsed in
  field parsed "issuer" = VStr "C=US, O=Example CA, CN=Example Root"
  ∧ field merged "issuer" = VStr "Example CA"
  ∧ ¬ (∀ k, field parsed k ≠ VUndef → field merged k = field parsed k).
Proof.
  cbv zeta. split_and!; [vm_compute; reflexivity..|].
  intros H. specialize (H "issuer"). vm_compute in H.
  assert (VStr "Example CA" = VStr "C=US, O=Example CA, CN=Example Root") as Heq
    by (apply H; discriminate).
  discriminate Heq.
Qed.

(** C3, refuted as stated.  The second endpoint of the sample presents a
    certificate that node-forge cannot decode; its record in the batch is
    not an [error] record. *)
Lemma undecodable_certificate_is_not_an_error :
  env_network sample_env 0 "corrupt.example" 443 = Secured (Some sample_corrupt_peer)
  ∧ env_certificateFromDer sample_env [x30; x82; x01] = None
  ∧ match (scanHosts sample_env ["corrupt.example"] [443] 5000 sample_state).1 with
    | Returned [record] =>
        field record "status" = VStr "valid"
        ∧ field record "status" ≠ VStr "error"
        ∧ field record "error" = VUndef
    | _ => False
    end.
Proof.
  split_and!; [reflexivity..|]. vm_compute. split_and!; [reflexivity|discriminate|reflexivity].
Qed.




(** The scan of the sample, armed twice from the start of the process. *)
Lemma one_timer_per_scan_sample :
  let scan := scan_object 7 sample_row in
  reachable sample_env sample_state
  ∧ truthy (field scan "active") = true
  ∧ rule_of (field scan "frequency") = VStr "0 0 * * *"
  ∧ env_validRule sample_env "0 0 * * *" = true
  ∧ map_get (field scan "id") (activeJobs sample_state) ≠ Some None
  ∧ let st1 := (scheduleJob sample_env scan sample_state).2 in
    let st2 := (scheduleJob sample_env scan st1).2 in
    returns (scheduleJob sample_env scan sample_state).1 = true
    ∧ returns (scheduleJob sample_env scan st1).1 = true
    ∧ length (entries (field scan "id") st2) = 1%nat
    ∧ length (live_timers (field scan "id") st2) = 1%nat.
Proof.
  cbv zeta.
  assert (reachable sample_env sample_state) as Hreach by (by apply reachable_start).
  split_and!; [exact Hreach|reflexivity|reflexivity|reflexivity|discriminate|..];
    apply (proj2 (one_timer_per_scan sample_env sample_state Hreach)
             (scan_object 7 sample_row) "0 0 * * *");
    first [reflexivity|discriminate].
Defined.

(** C5.  The scan of the sample is first scheduled with a frequency that
    is no rule: [scheduleJob] returns and leaves [null] under its
    identifier in the [Map].  Arming the scan, now active and with the
    rule of ['daily'], then throws on [null.cancel()], before the [try];
    arming it a second time throws again, and no live timer is left for
    the identifier, where the claim has exactly one. *)
Theorem arming_twice_after_a_rejected_rule_leaves_no_timer :
  let unparsed := scan_object 7 sample_unparsed_row in
  let scan := scan_object 7 sample_row in
  let st0 := (scheduleJob sample_env unparsed sample_state).2 in
  let st1 := (scheduleJob sample_env scan st0).2 in
  let st2 := (scheduleJob sample_env scan st1).2 in
  reachable sample_env st0
  ∧ rule_of (field unparsed "frequency") = VStr "every day"
  ∧ env_validRule sample_env "every day" = false
  ∧ returns (scheduleJob sample_env unparsed sample_state).1 = true
  ∧ map_get (VNum 7) (activeJobs st0) = Some None
  ∧ field scan "id" = VNum 7
  ∧ truthy (field scan "active") = true
  ∧ rule_of (field scan "frequency") = VStr "0 0 * * *"
  ∧ env_validRule sample_env "0 0 * * *" = true
  ∧ (scheduleJob sample_env scan st0).1
    = Thrown "TypeError: Cannot read properties of null (reading 'cancel')"
  ∧ (scheduleJob sample_env scan st1).1
    = Thrown "TypeError: Cannot read properties of null (reading 'cancel')"
  ∧ live_timers (VNum 7) st2 = []
  ∧ length (live_timers (VNum 7) st2) ≠ 1%nat.
Proof.
  cbv zeta. split.
  - apply (reachable_step sample_env sample_state); [by apply reachable_start|].
    apply step_scheduleJob.
  - vm_compute. split_and!; try reflexivity. discriminate.
Qed.

(** C6.  The scan of the sample is stored with a next run; after
    [runScanNow] its row has the time of the run as [last_run] and NULL as
    [next_run]. *)
Theorem manual_run_clears_next_run :
  let run := runScanNow sample_env 7 sample_state in
  returns run.1 = true
  ∧ r_next_run <$> scheduled_scans sample_state !! 7
    = Some (SText "2025-11-02T00:00:00.000Z")
  ∧ r_next_run <$> scheduled_scans run.2 !! 7 = Some SNull
  ∧ r_last_run <$> scheduled_scans run.2 !! 7 = Some (SText "T1762000002000").
Proof. vm_compute. by split_and!. Qed.

(** C7, refuted as stated.  For a name whose attribute array is empty,
    [formatDN] returns the empty string. *)
Lemma formatDN_of_no_attributes_is_empty :
  formatDN (Some {| attributes := Some [] |}) = ""
  ∧ formatDN (Some {| attributes := Some [] |}) ≠ "Unknown".
Proof. split; [reflexivity|discriminate]. Qed.

(** The store of the sample has no scan 8. *)
Lemma runScanNow_not_found_sample :
  scheduled_scans sample_state !! 8 = None
  ∧ runScanNow sample_env 8 sample_state
    = (Thrown "Scheduled scan with ID 8 not found", sample_state).
Proof.
  split; [reflexivity|]. apply (runScanNow_not_found sample_env 8 sample_state). reflexivity.
Defined.

(** C10, refuted as stated.  The sample endpoint is scanned twice in one
    request and refuses the second connection.  The second result is an
    [error] for the pair of the first, and the record stored under that
    pair has changed: the first result was saved there. *)
Lemma error_result_beside_a_saved_one :
  let hosts := ["internal.example"; "internal.example"] in
  match (scanHosts sample_env hosts [443] 5000 sample_state).1 with
  | Returned [first; second] =>
      field second "status" = VStr "error"
      ∧ target_of second = (SText "internal.example", SInt 443)
      ∧ certificates sample_state !! target_of second = None
      ∧ certificates (api_scan sample_env hosts [443] sample_state).2 !! target_of second
        = Some (cert_row_of first)
      ∧ certificates (api_scan sample_env hosts [443] sample_state).2 !! target_of second
        ≠ certificates sample_state !! target_of second
  | _ => False
  end.
Proof. vm_compute. by split_and!. Qed.

(** The handler on the sample endpoint, scanned twice in one request. *)
Lemma api_scan_saves_only_non_errors_sample :
  let hosts := ["internal.example"; "internal.example"] in
  hosts ≠ []
  ∧ ∃ results data summary,
      (scanHosts sample_env hosts [443] 5000 sample_state).1 = Returned results
      ∧ (api_scan sample_env hosts [443] sample_state).1 = Returned (JsonResults data summary)
      ∧ length data = length results
      ∧ (∀ i r, results !! i = Some r → field r "status" = VStr "error" →
           ∃ d, data !! i = Some d
                ∧ field d "status" = VStr "error"
                ∧ field d "error" = field r "error" ||| VNull)
      ∧ certificates (api_scan sample_env hosts [443] sample_state).2
        = foldl (λ table r, <[target_of r := cert_row_of r]> table) (certificates sample_state)
            (filter (λ r, field r "status" ≠ VStr "error") results)
      ∧ (∀ key : sqlval * sqlval,
           (∀ r, r ∈ results → target_of r = key → field r "status" = VStr "error") →
           certificates (api_scan sample_env hosts [443] sample_state).2 !! key
           = certificates sample_state !! key).
Proof.
  cbv zeta. split; [discriminate|].
  apply (api_scan_saves_only_non_errors sample_env). discriminate.
Defined.

(** ** The properties beside the claims, on the sample *)

(** The armed state of the sample is the state after [scheduleJob] on the
    scan of the sample, from the start of the process. *)
Lemma sample_armed_reachable : reachable sample_env sample_armed_state.
Proof.
  assert (sample_armed_state
          = (scheduleJob sample_env (scan_object 7 sample_row) sample_state).2) as ->
    by (vm_compute; reflexivity).
  apply (reachable_step sample_env sample_state); [by apply reachable_start|].
  apply step_scheduleJob.
Qed.

(** [saveCertificate] on the record of a refused connection. *)
Lemma saveCertificate_upsert_sample :
  let certData :=
    error_record "absent.example" (VNum 443) "connect ECONNREFUSED" "T1762000001000" in
  let st' := (saveCertificate certData sample_state).2 in
  field certData "host" = VStr "absent.example"
  ∧ field certData "port" = VNum 443
  ∧ certificates st' !! (SText "absent.example", SInt 443) = Some (cert_row_of certData)
  ∧ certificates st' !! (SText "internal.example", SInt 443)
    = certificates sample_state !! (SText "internal.example", SInt 443)
  ∧ set_certificates (certificates sample_state) st' = sample_state.
Proof.
  cbv zeta.
  destruct (saveCertificate_upsert
              (error_record "absent.example" (VNum 443) "connect ECONNREFUSED"
                 "T1762000001000")
              "absent.example" 443 sample_state)
    as (_ & Hrow & Hother & _ & _ & Hframe); [reflexivity|reflexivity|].
  split_and!; [reflexivity|reflexivity|exact Hrow| |exact Hframe].
  apply Hother. discriminate.
Defined.

(** The scan of the sample, armed and then scheduled as inactive. *)
Lemma scheduleJob_inactive_unschedules_sample :
  let scan : obj := list_to_map [("id", VNum 7); ("active", VBool false)] in
  let st' := (scheduleJob sample_env scan sample_armed_state).2 in
  reachable sample_env sample_armed_state
  ∧ truthy (field scan "active") = false
  ∧ map_get (field scan "id") (activeJobs sample_armed_state) ≠ Some None
  ∧ length (live_timers (VNum 7) sample_armed_state) = 1%nat
  ∧ returns (scheduleJob sample_env scan sample_armed_state).1 = true
  ∧ live_timers (VNum 7) st' = []
  ∧ entries (VNum 7) st' = []
  ∧ scheduled_scans st' = scheduled_scans sample_armed_state.
Proof.
  cbv zeta.
  destruct (scheduleJob_inactive_unschedules sample_env
              (list_to_map [("id", VNum 7); ("active", VBool false)]) sample_armed_state)
    as (Hret & Hlive & Hentries & _ & _ & Hscans);
    [exact sample_armed_reachable|reflexivity|discriminate|].
  split_and!; [exact sample_armed_reachable|reflexivity|discriminate|reflexivity|done..].
Defined.

(** The scan of the sample with a frequency that is no rule. *)
Lemma scheduleJob_rejected_rule_blocks_sample :
  let scan := scan_object 7 sample_unparsed_row in
  let st' := (scheduleJob sample_env scan sample_state).2 in
  reachable sample_env sample_state
  ∧ truthy (field scan "active") = true
  ∧ (∀ r, rule_of (field scan "frequency") = VStr r → env_validRule sample_env r = false)
  ∧ map_get (field scan "id") (activeJobs sample_state) ≠ Some None
  ∧ returns (scheduleJob sample_env scan sample_state).1 = true
  ∧ map_get (VNum 7) (activeJobs st') = Some None
  ∧ scheduled_scans st' = scheduled_scans sample_state
  ∧ returns (scheduleJob sample_env (scan_object 7 sample_row) st').1 = false
  ∧ returns (cancelAllJobs st').1 = false
  ∧ returns (initializeScheduler sample_env st').1 = false.
Proof.
  cbv zeta.
  assert (reachable sample_env sample_state) as Hreach by (by apply reachable_start).
  assert (∀ r, rule_of (field (scan_object 7 sample_unparsed_row) "frequency") = VStr r →
               env_validRule sample_env r = false) as Hrule
    by (by intros r [= <-]).
  destruct (scheduleJob_rejected_rule_blocks sample_env
              (scan_object 7 sample_unparsed_row) sample_state)
    as (Hret & Hnull & _ & Hscans & Hagain & Hcancel & _ & Hinit);
    [exact Hreach|reflexivity|exact Hrule|discriminate|].
  split_and!; [exact Hreach|reflexivity|exact Hrule|discriminate|done|done|done| |done|done].
  by apply (Hagain (scan_object 7 sample_row)).
Defined.

(** The scan of the sample after a run, armed from its row. *)
Lemma scheduleJob_writes_run_times_sample :
  let st := set_scheduled_scans {[ 7 := sample_ran_row ]} sample_state in
  let scan := scan_object 7 sample_ran_row in
  let st' := (scheduleJob sample_env scan st).2 in
  field scan "id" = VNum 7
  ∧ truthy (field scan "active") = true
  ∧ rule_of (field scan "frequency") = VStr "0 0 * * *"
  ∧ env_validRule sample_env "0 0 * * *" = true
  ∧ env_nextInvocation sample_env "0 0 * * *" (env_clock sample_env (tick st))
    = Some 1762003600000
  ∧ map_get (VNum 7) (activeJobs st) ≠ Some None
  ∧ scheduled_scans st !! 7 = Some sample_ran_row
  ∧ r_last_run <$> scheduled_scans st !! 7 = Some (SText "2025-11-01T00:00:00.000Z")
  ∧ r_last_run <$> scheduled_scans st' !! 7 = Some SNull.
Proof.
  cbv zeta.
  destruct (scheduleJob_writes_run_times sample_env (scan_object 7 sample_ran_row) 7
              sample_ran_row "0 0 * * *" 1762003600000
              (set_scheduled_scans {[ 7 := sample_ran_row ]} sample_state))
    as (_ & Hlast & Hnone); [reflexivity|reflexivity|reflexivity|reflexivity|reflexivity
                            |discriminate|reflexivity|].
  split_and!; [reflexivity|reflexivity|reflexivity|reflexivity|reflexivity|discriminate
              |reflexivity|reflexivity|].
  apply Hlast, Hnone.
Defined.

(** Arming the scan of the sample leaves the scans of other identifiers. *)
Lemma scheduleJob_leaves_other_scans_sample :
  let st' := (scheduleJob sample_env (scan_object 7 sample_row) sample_armed_state).2 in
  reachable sample_env sample_armed_state
  ∧ live_timers (VNum 8) st' = live_timers (VNum 8) sample_armed_state
  ∧ entries (VNum 8) st' = entries (VNum 8) sample_armed_state
  ∧ scheduled_scans st' !! 8 = scheduled_scans sample_armed_state !! 8
  ∧ certificates st' = certificates sample_armed_state
  ∧ tick st' = tick sample_armed_state.
Proof.
  cbv zeta.
  destruct (scheduleJob_leaves_other_scans sample_env (scan_object 7 sample_row)
              sample_armed_state sample_armed_reachable)
    as (Hother & Hrows & Hcerts & Htick).
  destruct (Hother (VNum 8)) as [Hlive Hentries]; [discriminate|].
  split_and!; [exact sample_armed_reachable|done|done| |done|done].
  apply Hrows. discriminate.
Defined.

(** [cancelAllJobs] on the armed state of the sample. *)
Lemma cancelAllJobs_stops_every_timer_sample :
  let st' := (cancelAllJobs sample_armed_state).2 in
  reachable sample_env sample_armed_state
  ∧ (∀ k, (k, None) ∉ activeJobs sample_armed_state)
  ∧ length (live_timers (VNum 7) sample_armed_state) = 1%nat
  ∧ returns (cancelAllJobs sample_armed_state).1 = true
  ∧ activeJobs st' = []
  ∧ live_timers (VNum 7) st' = []
  ∧ scheduled_scans st' = scheduled_scans sample_armed_state.
Proof.
  cbv zeta.
  assert (∀ k : jsval, (k, None) ∉ activeJobs sample_armed_state) as Hnull
    by (by intros k [[=]|?%elem_of_nil]%elem_of_cons).
  destruct (cancelAllJobs_stops_every_timer sample_env sample_armed_state
              sample_armed_reachable Hnull)
    as (Hret & Hmap & _ & Hall & _ & _ & Hscans).
  split_and!; [exact sample_armed_reachable|exact Hnull|reflexivity|done|done| |done].
  apply (Hall (VNum 7)).
Defined.

(** The start of the process on the store of the sample. *)
Lemma initializeScheduler_arms_active_scans_sample :
  let st' := (initializeScheduler sample_env sample_state).2 in
  reachable sample_env sample_state
  ∧ (∀ k, (k, None) ∉ activeJobs sample_state)
  ∧ returns (initializeScheduler sample_env sample_state).1 = true
  ∧ armed (VNum 7) st'
  ∧ length (entries (VNum 7) st') = 1%nat
  ∧ length (live_timers (VNum 7) st') = 1%nat.
Proof.
  cbv zeta.
  assert (reachable sample_env sample_state) as Hreach by (by apply reachable_start).
  assert (∀ k : jsval, (k, None) ∉ activeJobs sample_state) as Hnull
    by (by intros k ?%elem_of_nil).
  destruct (initializeScheduler_arms_active_scans sample_env sample_state Hreach Hnull)
    as (Hret & Harmed & _).
  split_and!; [exact Hreach|exact Hnull|done|..];
    by apply (Harmed 7 sample_row "0 0 * * *").
Defined.

(** A manual run of the scan of the sample, whose second host refuses the
    connection. *)
Lemma runScanNow_saves_every_result_sample :
  let st' := (runScanNow sample_env 7 sample_state).2 in
  scheduled_scans sample_state !! 7 = Some sample_row
  ∧ r_hosts sample_row = VStrs ["internal.example"; "absent.example"]
  ∧ r_ports sample_row = VNums [443]
  ∧ ∃ results,
      (runScanNow sample_env 7 sample_state).1 = Returned results
      ∧ tick st' = 2%nat
      ∧ certificates st'
        = foldl (λ table r, <[target_of r := cert_row_of r]> table)
            (certificates sample_state) results
      ∧ c_status <$> certificates st' !! (SText "absent.example", SInt 443)
        = Some (SText "error").
Proof.
  cbv zeta.
  destruct (runScanNow_saves_every_result sample_env 7 sample_row
              ["internal.example"; "absent.example"] [443] sample_state)
    as (results & _ & Hrun & Htick & Hcerts & _); [reflexivity|reflexivity|reflexivity|].
  split_and!; [reflexivity|reflexivity|reflexivity|].
  exists results. split_and!; [done|done|done|]. vm_compute. reflexivity.
Defined.

(** The timer of the scan of the sample, firing in the armed state. *)
Lemma fire_saves_and_stamps_sample :
  let st' := (fire sample_env 0 sample_armed_state).2 in
  jobs sample_armed_state !! 0%nat = Some sample_job
  ∧ j_live sample_job = true
  ∧ field (j_scan sample_job) "hosts" = VStrs ["internal.example"; "absent.example"]
  ∧ field (j_scan sample_job) "ports" = VNums [443]
  ∧ field (j_scan sample_job) "id" = VNum 7
  ∧ tick st' = 2%nat
  ∧ r_last_run <$> scheduled_scans st' !! 7 = Some (SText "T1762000002000")
  ∧ r_next_run <$> scheduled_scans st' !! 7 = Some (SText "T1762003602000")
  ∧ ∃ results,
      (scanHosts sample_env ["internal.example"; "absent.example"] [443] 5000
         sample_armed_state).1 = Returned results
      ∧ certificates st'
        = foldl (λ table r, <[target_of r := cert_row_of r]> table)
            (certificates sample_armed_state) results.
Proof.
  cbv zeta.
  destruct (fire_saves_and_stamps sample_env 0 sample_job
              ["internal.example"; "absent.example"] [443] 7 sample_armed_state)
    as (results & Hscan & Htick & Hcerts & Hrow & _);
    [reflexivity|reflexivity|reflexivity|reflexivity|reflexivity|].
  split_and!; [reflexivity|reflexivity|reflexivity|reflexivity|reflexivity|done|..].
  - erewrite Hrow; [|reflexivity|reflexivity]. reflexivity.
  - erewrite Hrow; [|reflexivity|reflexivity]. reflexivity.
  - by exists results.
Defined.

(** A request to the API with an empty body. *)
Lemma post_api_scan_without_hosts_sample :
  truthy (field (∅ : obj) "hosts") = false
  ∧ post_api_scan sample_env ∅ sample_state
    = (Returned (JsonFailure 400 "No valid hosts provided"), sample_state).
Proof.
  split; [reflexivity|].
  by apply (post_api_scan_without_hosts sample_env ∅ sample_state).
Defined.

(** A request to the API that names the port by its service. *)
Lemma post_api_scan_without_a_valid_port_sample :
  let body : obj :=
    list_to_map [("type", VStr "manual"); ("hosts", VStr "internal.example");
                 ("ports", VStr "https")] in
  splitHosts is_separator "internal.example" = ["internal.example"]
  ∧ parsePorts "https" = []
  ∧ ∃ summary,
      post_api_scan sample_env body sample_state
      = (Returned (JsonResults [] summary), sample_state)
      ∧ field summary "hosts" = VNum 1
      ∧ field summary "ports" = VNum 0
      ∧ field summary "total" = VNum 0.
Proof.
  cbv zeta. split; [reflexivity|]. split; [reflexivity|].
  apply (post_api_scan_without_a_valid_port sample_env _ "internal.example" "https");
    first [reflexivity|discriminate].
Defined.

(** A request to the API for a range of nine addresses. *)
Lemma post_api_scan_range_end_points_sample :
  let body : obj :=
    list_to_map [("type", VStr "range"); ("ipRange", VStr "10.0.0.1 - 10.0.0.9")] in
  trim "10.0.0.1 " = "10.0.0.1"
  ∧ trim " 10.0.0.9" = "10.0.0.9"
  ∧ hostsToScan body sample_state = (Returned ["10.0.0.1"; "10.0.0.9"], sample_state)
  ∧ ∃ results,
      (scanHosts sample_env ["10.0.0.1"; "10.0.0.9"] [443] 5000 sample_state).1
      = Returned results
      ∧ length results = 2%nat.
Proof.
  cbv zeta.
  destruct (post_api_scan_range_end_points sample_env
              (list_to_map [("type", VStr "range"); ("ipRange", VStr "10.0.0.1 - 10.0.0.9")])
              "10.0.0.1 " " 10.0.0.9" sample_state)
    as (Hhosts & _ & Hscan);
    [reflexivity|reflexivity|reflexivity|reflexivity|discriminate|discriminate|].
  split_and!; [reflexivity|reflexivity|exact Hhosts|exact Hscan].
Defined.

(** The form of the scanner, filled with the two hosts of the sample. *)
Lemma scanner_post_saves_every_result_sample :
  let body : obj :=
    list_to_map [("hosts", VStr "internal.example, absent.example"); ("ports", VStr "443")] in
  splitHosts is_line_separator "internal.example, absent.example"
  = ["internal.example"; "absent.example"]
  ∧ parsePorts "443" = [443]
  ∧ ∃ results summary,
      (scanner_post sample_env body sample_state).1
      = Returned (ScannerResults results summary)
      ∧ field summary "total" = VNum 2
      ∧ certificates (scanner_post sample_env body sample_state).2
        = foldl (λ table r, <[target_of r := cert_row_of r]> table)
            (certificates sample_state) results
      ∧ c_status <$> certificates (scanner_post sample_env body sample_state).2
                     !! (SText "absent.example", SInt 443)
        = Some (SText "error").
Proof.
  cbv zeta. split; [reflexivity|]. split; [reflexivity|].
  destruct (scanner_post_saves_every_result sample_env
              (list_to_map [("hosts", VStr "internal.example, absent.example");
                            ("ports", VStr "443")])
              "internal.example, absent.example" "443" sample_state)
    as [_ Hscan]; [reflexivity|reflexivity|discriminate|discriminate|].
  destruct Hscan as (results & summary & _ & Hpage & Htotal & Hcerts & _); [discriminate|].
  exists results, summary. split_and!; [done|done|done|]. vm_compute. reflexivity.
Defined.

(** The route that deletes a scan, on the armed scan of the sample. *)
Lemma delete_scheduled_scan_stops_and_removes_sample :
  let run := delete_scheduled_scan sample_env (VNum 7) sample_armed_state in
  reachable sample_env sample_armed_state
  ∧ (7 ≠ 0)
  ∧ map_get (VNum 7) (activeJobs sample_armed_state) ≠ Some None
  ∧ run.1 = Returned (Redirect "/scheduler")
  ∧ scheduled_scans run.2 !! 7 = None
  ∧ live_timers (VNum 7) run.2 = []
  ∧ entries (VNum 7) run.2 = [].
Proof.
  cbv zeta.
  destruct (delete_scheduled_scan_stops_and_removes sample_env 7 sample_armed_state
              sample_armed_reachable) as [Hdone _]; [discriminate|].
  destruct Hdone as (Hpage & Hrow & Hlive & Hentries & _); [discriminate|].
  split_and!; [exact sample_armed_reachable|discriminate|discriminate|done..].
Defined.

(** The history of the two rows of the sample. *)
Lemma scanHistory_is_one_bucket_sample :
  Forall (λ cert, field cert "lastScanned" = VUndef) sample_certificate_rows
  ∧ Forall (λ cert, field cert "last_scanned" ≠ VUndef) sample_certificate_rows
  ∧ ∃ entry,
      scanHistory sample_certificate_rows = Some [entry]
      ∧ field entry "date" = VStr "Unknown"
      ∧ field entry "totalHosts" = VNum 2
      ∧ field entry "validCerts" = VNum 1
      ∧ field entry "errorCerts" = VNum 1.
Proof.
  assert (Forall (λ cert, field cert "lastScanned" = VUndef) sample_certificate_rows)
    as Hrows by (by repeat constructor).
  destruct (scanHistory_is_one_bucket _ _ Hrows)
    as (_ & entry & Hentry & _ & Hdate & Htotal & Hvalid & _ & _ & Herror).
  split_and!; [exact Hrows|by repeat constructor|].
  exists entry. by split_and!.
Defined.
